(** * A region quadtree over raster images (pa3/qtree.cpp)

    Shallow embedding of [QTree]: construction from a raster ([BuildNode],
    [assignColor]), rendering ([Render], [RenderPixel]), pruning
    ([Prune], [PruneNode], [shouldPrune], [DeleteChildren]), horizontal flip
    ([FlipHorizontal], [FlipNode], [positionNormal]), counter-clockwise
    rotation ([RotateCCW], [RotateSubtree], [coordinateHelper]), copying
    ([operator=], [Copy], [CopyNode]) and clearing ([Clear], [ClearSubtree]).
    Copying and clearing are embedded twice: on tree values, and in
    [Store] on nodes kept in numbered memory cells, where allocation,
    deletion and sharing of nodes can be told apart.

    Conventions.
    - [unsigned int] and [int] values are integers of [Z]; every store into
      an [unsigned int] goes through [u32], every store into an [int] through
      [i32], every store into a colour channel through [u8].
    - A [Node*] is a value of [NodePtr]: [nullptr] or an exclusively owned
      node.  Ownership is strictly hierarchical in the source, so in-place
      mutation of a subtree is a function from the old subtree to the new.
    - Dereferencing [nullptr] or a pointer to a deleted node, dividing by
      zero or [INT_MIN] by -1 and touching a pixel outside a raster are
      errors of the [result] monad.  Recursion whose argument is
      rewritten before the recursive call takes a [fuel] counter; the
      theorems show that the fuel chosen by the public operations suffices.
    - The alpha channel of [RGBAPixel] is never read or written by the
      quadtree code apart from whole-pixel copies and is left out. *)

From Stdlib Require Import ZArith List Bool Lia String Permutation.
Import ListNotations.
Local Open Scope Z_scope.


(* ===================================================================== *)
(** ** Machine integers *)

Definition u32 (z : Z) : Z := z mod 4294967296.
Definition i32 (z : Z) : Z := (z + 2147483648) mod 4294967296 - 2147483648.
Definition u8 (z : Z) : Z := z mod 256.

(** [ceil(x / 2.0)] for an [int] [x]; exact in double precision. *)
Definition ceil_half (x : Z) : Z := (x + 1) / 2.

(* ===================================================================== *)
(** ** Errors *)

Inductive error : Type :=
| NullDeref
| DivByZero
| DivOverflow
| OutOfRange
| Dangling
| OutOfFuel.

Inductive result (A : Type) : Type :=
| Ok (a : A)
| Err (e : error).
Arguments Ok {A} a.
Arguments Err {A} e.

Definition bind {A B : Type} (m : result A) (k : A -> result B) : result B :=
  match m with
  | Ok a => k a
  | Err e => Err e
  end.

Declare Scope result_scope.
Delimit Scope result_scope with result.
Notation "x <- m ;; k" := (bind m (fun x => k))
  (at level 61, m at next level, right associativity) : result_scope.
Notation "' p <- m ;; k" := (bind m (fun x => let p := x in k))
  (at level 61, p pattern, m at next level, right associativity)
  : result_scope.
Local Open Scope result_scope.

(* ===================================================================== *)
(** ** Pixels and rasters *)

Record RGBAPixel : Type := mkPixel { r : Z; g : Z; b : Z }.

(** Modelled from the spec: the default-constructed pixel [RGBAPixel()] of
    the external pixel type (opaque white).  [BuildNode] overwrites every
    channel it reads later. *)
Definition RGBAPixel_default : RGBAPixel := mkPixel 255 255 255.

(** Modelled from the spec: the external raster type [PNG], "constructible
    at a given (width,height) and exposing per-pixel access by integer
    coordinate"; pixels are kept row by row. *)
Record PNG : Type := mkPNG {
  width_ : Z;
  height_ : Z;
  imageData_ : list RGBAPixel
}.

Definition PNG_new (w h : Z) : PNG :=
  mkPNG w h (repeat RGBAPixel_default (Z.to_nat (w * h))).

Definition in_raster (img : PNG) (x y : Z) : bool :=
  (0 <=? x) && (x <? width_ img) && (0 <=? y) && (y <? height_ img).

Definition pixel_index (img : PNG) (x y : Z) : nat :=
  Z.to_nat (x + y * width_ img).

Fixpoint list_set {A : Type} (l : list A) (n : nat) (a : A) : list A :=
  match l, n with
  | [], _ => []
  | _ :: t, O => a :: t
  | h :: t, S n' => h :: list_set t n' a
  end.

(** [*img.getPixel(x, y)] read. *)
Definition getPixel (img : PNG) (x y : Z) : result RGBAPixel :=
  if in_raster img x y then
    match nth_error (imageData_ img) (pixel_index img x y) with
    | Some p => Ok p
    | None => Err OutOfRange
    end
  else Err OutOfRange.

(** [*img.getPixel(x, y) = c] write. *)
Definition putPixel (img : PNG) (x y : Z) (c : RGBAPixel) : result PNG :=
  if in_raster img x y then
    if (pixel_index img x y <? List.length (imageData_ img))%nat then
      Ok (mkPNG (width_ img) (height_ img)
                (list_set (imageData_ img) (pixel_index img x y) c))
    else Err OutOfRange
  else Err OutOfRange.

(* ===================================================================== *)
(** ** Nodes and trees *)

(** A [pair<unsigned int, unsigned int>]. *)
Abbreviation point := (Z * Z)%type (only parsing).

(** A [Node*]: null, or a node with its rectangle, average colour and four
    child pointers. *)
Inductive NodePtr : Type :=
| nullptr
| node (upLeft lowRight : point) (avg : RGBAPixel) (NW NE SW SE : NodePtr).

Record QTree : Type := mkQTree {
  root : NodePtr;
  width : Z;
  height : Z
}.

Definition isNull (p : NodePtr) : bool :=
  match p with
  | nullptr => true
  | node _ _ _ _ _ _ _ => false
  end.

(** [p->NW == nullptr && p->NE == nullptr && p->SW == nullptr &&
    p->SE == nullptr] for a non-null [p]. *)
Definition isLeaf (p : NodePtr) : bool :=
  match p with
  | nullptr => false
  | node _ _ _ nw ne sw se => isNull nw && isNull ne && isNull sw && isNull se
  end.

(** [p->upLeft] and [p->lowRight]. *)
Definition rectOf (p : NodePtr) : result (point * point) :=
  match p with
  | nullptr => Err NullDeref
  | node ul lr _ _ _ _ _ => Ok (ul, lr)
  end.

Definition avgOf (p : NodePtr) : result RGBAPixel :=
  match p with
  | nullptr => Err NullDeref
  | node _ _ a _ _ _ _ => Ok a
  end.

(** [p->upLeft = ul; p->lowRight = lr;] *)
Definition setRect (ul lr : point) (p : NodePtr) : NodePtr :=
  match p with
  | nullptr => nullptr
  | node _ _ a nw ne sw se => node ul lr a nw ne sw se
  end.

Fixpoint depth (p : NodePtr) : nat :=
  match p with
  | nullptr => O
  | node _ _ _ nw ne sw se =>
      S (Nat.max (Nat.max (depth nw) (depth ne)) (Nat.max (depth sw) (depth se)))
  end.

(* ===================================================================== *)
(** ** Builder *)

(** [(c->lowRight.second - c->upLeft.second + 1) *
     (c->lowRight.first - c->upLeft.first + 1)] stored into an [int]. *)
Definition areaOf (c : NodePtr) : result Z :=
  '(ul, lr) <- rectOf c ;;
  Ok (i32 ((snd lr - snd ul + 1) * (fst lr - fst ul + 1))).

(** One channel of [assignColor]: an [int] sum of products, truncating
    division by [totalArea], stored into an [unsigned char].  The [int]
    division is undefined for a zero divisor and for [INT_MIN / -1]. *)
Definition weighted (terms : list (Z * Z)) (totalArea : Z) : result Z :=
  let sum := i32 (fold_right (fun t acc => fst t * snd t + acc) 0 terms) in
  if totalArea =? 0 then Err DivByZero
  else if (sum =? -2147483648) && (totalArea =? -1) then Err DivOverflow
  else Ok (u8 (Z.quot sum totalArea)).

Definition assignColor (subtree : NodePtr) (mode : string) : result NodePtr :=
  match subtree with
  | nullptr => Err NullDeref
  | node ul lr a nw ne sw se =>
      if String.eqb mode "v" then
        nwArea <- areaOf nw ;;
        swArea <- areaOf sw ;;
        let totalArea := i32 (nwArea + swArea) in
        nwc <- avgOf nw ;;
        swc <- avgOf sw ;;
        ar <- weighted [(nwArea, r nwc); (swArea, r swc)] totalArea ;;
        ag <- weighted [(nwArea, g nwc); (swArea, g swc)] totalArea ;;
        ab <- weighted [(nwArea, b nwc); (swArea, b swc)] totalArea ;;
        Ok (node ul lr (mkPixel ar ag ab) nw ne sw se)
      else if String.eqb mode "h" then
        nwArea <- areaOf nw ;;
        neArea <- areaOf ne ;;
        let totalArea := i32 (nwArea + neArea) in
        nwc <- avgOf nw ;;
        nec <- avgOf ne ;;
        ar <- weighted [(nwArea, r nwc); (neArea, r nec)] totalArea ;;
        ag <- weighted [(nwArea, g nwc); (neArea, g nec)] totalArea ;;
        ab <- weighted [(nwArea, b nwc); (neArea, b nec)] totalArea ;;
        Ok (node ul lr (mkPixel ar ag ab) nw ne sw se)
      else
        nwArea <- areaOf nw ;;
        neArea <- areaOf ne ;;
        swArea <- areaOf sw ;;
        seArea <- areaOf se ;;
        let totalArea := i32 (nwArea + neArea + swArea + seArea) in
        nwc <- avgOf nw ;;
        nec <- avgOf ne ;;
        swc <- avgOf sw ;;
        sec <- avgOf se ;;
        ar <- weighted [(nwArea, r nwc); (neArea, r nec);
                        (swArea, r swc); (seArea, r sec)] totalArea ;;
        ag <- weighted [(nwArea, g nwc); (neArea, g nec);
                        (swArea, g swc); (seArea, g sec)] totalArea ;;
        ab <- weighted [(nwArea, b nwc); (neArea, b nec);
                        (swArea, b swc); (seArea, b sec)] totalArea ;;
        Ok (node ul lr (mkPixel ar ag ab) nw ne sw se)
  end.

(** [BuildNode(img, ul, lr)].  The corner arguments of the recursive calls
    are [double] expressions converted to [unsigned int]. *)
Fixpoint BuildNode (fuel : nat) (img : PNG) (ul lr : point) : result NodePtr :=
  match fuel with
  | O => Err OutOfFuel
  | S fuel' =>
      let x := i32 (fst lr - fst ul + 1) in
      let y := i32 (snd lr - snd ul + 1) in
      let halfw := ceil_half x in
      let halfh := ceil_half y in
      if (x =? 1) && (y =? 1) then
        px <- getPixel img (fst ul) (snd ul) ;;
        Ok (node ul lr px nullptr nullptr nullptr nullptr)
      else if (x =? 1) && negb (y =? 1) then
        nw <- BuildNode fuel' img ul
                (u32 (fst ul + halfw - 1), u32 (snd ul + halfh - 1)) ;;
        sw <- BuildNode fuel' img (fst ul, u32 (snd ul + halfh))
                (u32 (fst ul + halfw - 1), snd lr) ;;
        assignColor (node ul lr RGBAPixel_default nw nullptr sw nullptr) "v"
      else if (y =? 1) && negb (x =? 1) then
        nw <- BuildNode fuel' img ul
                (u32 (fst ul + halfw - 1), u32 (snd ul + halfh - 1)) ;;
        ne <- BuildNode fuel' img (u32 (fst ul + halfw), snd ul)
                (fst lr, u32 (snd ul + halfh - 1)) ;;
        assignColor (node ul lr RGBAPixel_default nw ne nullptr nullptr) "h"
      else
        nw <- BuildNode fuel' img ul
                (u32 (fst ul + halfw - 1), u32 (snd ul + halfh - 1)) ;;
        ne <- BuildNode fuel' img (u32 (fst ul + halfw), snd ul)
                (fst lr, u32 (snd ul + halfh - 1)) ;;
        sw <- BuildNode fuel' img (fst ul, u32 (snd ul + halfh))
                (u32 (fst ul + halfw - 1), snd lr) ;;
        se <- BuildNode fuel' img (u32 (fst ul + halfw), u32 (snd ul + halfh)) lr ;;
        assignColor (node ul lr RGBAPixel_default nw ne sw se) "else"
  end.

(** [QTree::QTree(const PNG& imIn)].  Every recursive call of [BuildNode]
    lowers width plus height of its rectangle, which bounds the fuel. *)
Definition QTree_new (imIn : PNG) : result QTree :=
  let height := height_ imIn in
  let width := width_ imIn in
  root <- BuildNode (Z.to_nat (width + height)) imIn (0, 0)
            (u32 (width - 1), u32 (height - 1)) ;;
  Ok (mkQTree root width height).

(* ===================================================================== *)
(** ** Renderer *)

(** The values [lo, lo+1, ..., hi-1] of a counting [for] loop. *)
Definition loop_range (lo hi : Z) : list Z :=
  map (fun k => lo + Z.of_nat k) (seq 0 (Z.to_nat (hi - lo))).

(** [for (i = lo; i < hi; i++) body(i)] over a threaded state. *)
Definition for_loop {S : Type} (lo hi : Z) (body : Z -> S -> result S) (s : S)
  : result S :=
  fold_left (fun acc i => s' <- acc ;; body i s') (loop_range lo hi) (Ok s).

Fixpoint RenderPixel (img : PNG) (p : NodePtr) (scale : Z) : result PNG :=
  match p with
  | nullptr => Ok img
  | node ul lr a nw ne sw se =>
      let x := i32 (fst lr - fst ul + 1) in
      let y := i32 (snd lr - snd ul + 1) in
      img1 <- (if scale =? 1 then
                 for_loop (i32 (fst ul)) (u32 (fst ul + x))
                   (fun i im =>
                      for_loop (i32 (snd ul)) (u32 (snd ul + y))
                        (fun j im' => putPixel im' (u32 i) (u32 j) a) im)
                   img
               else
                 for_loop 0 scale
                   (fun i im =>
                      for_loop 0 scale
                        (fun j im' =>
                           putPixel im' (u32 (fst ul * scale + i))
                                        (u32 (snd ul * scale + j)) a) im)
                   img) ;;
      img2 <- RenderPixel img1 nw scale ;;
      img3 <- RenderPixel img2 ne scale ;;
      img4 <- RenderPixel img3 sw scale ;;
      RenderPixel img4 se scale
  end.

Definition Render (t : QTree) (scale : Z) : result PNG :=
  RenderPixel (PNG_new (u32 (width t * scale)) (u32 (height t * scale)))
              (root t) scale.

(* ===================================================================== *)
(** ** Pruner *)

(** The colour-distance interface of the external pixel type:
    [a.distanceTo(b)] returns a [double], and the pruner compares it with
    the [double] tolerance by [<=]. *)
Class PixelMetric : Type := {
  double : Type;
  distanceTo : RGBAPixel -> RGBAPixel -> double;
  double_le : double -> double -> bool
}.

Section Pruner.
Context {metric : PixelMetric}.

Fixpoint shouldPrune (subtree : NodePtr) (a : RGBAPixel) (tolerance : double)
  : bool :=
  match subtree with
  | nullptr => true
  | node _ _ c nw ne sw se =>
      if isNull nw && isNull ne && isNull sw && isNull se then
        double_le (distanceTo c a) tolerance
      else
        shouldPrune nw a tolerance && shouldPrune ne a tolerance
        && shouldPrune sw a tolerance && shouldPrune se a tolerance
  end.

(** [delete c; c = NULL;] guarded by [c != nullptr]. *)
Definition deleteChild (c : NodePtr) : NodePtr :=
  if isNull c then c else nullptr.

Fixpoint DeleteChildren (subtree : NodePtr) : NodePtr :=
  match subtree with
  | nullptr => nullptr
  | node ul lr a nw ne sw se =>
      if isNull nw && isNull ne && isNull sw && isNull se then subtree
      else
        let nw1 := DeleteChildren nw in
        let ne1 := DeleteChildren ne in
        let sw1 := DeleteChildren sw in
        let se1 := DeleteChildren se in
        node ul lr a (deleteChild nw1) (deleteChild ne1)
                     (deleteChild sw1) (deleteChild se1)
  end.

Fixpoint PruneNode (fuel : nat) (subtree : NodePtr) (tolerance : double)
  : result NodePtr :=
  match fuel with
  | O => Err OutOfFuel
  | S fuel' =>
      match subtree with
      | nullptr => Ok subtree
      | node _ _ a _ _ _ _ =>
          if isLeaf subtree then Ok subtree
          else
            let subtree1 :=
              if shouldPrune subtree a tolerance then DeleteChildren subtree
              else subtree in
            match subtree1 with
            | nullptr => Err NullDeref
            | node ul lr a1 nw ne sw se =>
                nw' <- PruneNode fuel' nw tolerance ;;
                ne' <- PruneNode fuel' ne tolerance ;;
                sw' <- PruneNode fuel' sw tolerance ;;
                se' <- PruneNode fuel' se tolerance ;;
                Ok (node ul lr a1 nw' ne' sw' se')
            end
      end
  end.

Definition Prune (t : QTree) (tolerance : double) : result QTree :=
  root' <- PruneNode (S (depth (root t))) (root t) tolerance ;;
  Ok (mkQTree root' (width t) (height t)).

End Pruner.

(* ===================================================================== *)
(** ** Flipper *)

Definition positionNormal (subtree : NodePtr) (width1 height1 : Z)
  : result NodePtr :=
  match subtree with
  | nullptr => Err NullDeref
  | node ul lr a nw ne sw se =>
      let ne' :=
        if isNull ne then ne
        else setRect (u32 (fst lr - width1 + 1), snd ul)
                     (fst lr, u32 (snd ul + height1 - 1)) ne in
      let nw' :=
        if isNull nw then nw
        else setRect (fst ul, snd ul)
                     (u32 (fst lr - width1), u32 (snd ul + height1 - 1)) nw in
      let se' :=
        if isNull se then se
        else setRect (u32 (fst lr - width1 + 1), u32 (snd ul + height1))
                     (fst lr, snd lr) se in
      let sw' :=
        if isNull sw then sw
        else setRect (fst ul, u32 (snd ul + height1))
                     (u32 (fst lr - width1), snd lr) sw in
      Ok (node ul lr a nw' ne' sw' se')
  end.

Fixpoint FlipNode (fuel : nat) (subtree : NodePtr) : result NodePtr :=
  match fuel with
  | O => Err OutOfFuel
  | S fuel' =>
      match subtree with
      | nullptr => Ok subtree
      | node ul lr a nw ne sw se =>
          if isLeaf subtree then Ok subtree
          else
            '(width1, height1) <-
              (if isNull nw && isNull sw then
                 '(cul, clr) <- rectOf ne ;;
                 Ok (i32 (fst lr - fst ul + 1 - (fst clr - fst cul + 1)),
                     i32 (snd clr - snd cul + 1))
               else if isNull nw && isNull ne then
                 '(cul, clr) <- rectOf sw ;;
                 Ok (i32 (fst clr - fst cul + 1),
                     i32 (snd lr - snd ul + 1 - (snd clr - snd cul + 1)))
               else
                 '(cul, clr) <- rectOf nw ;;
                 Ok (i32 (fst clr - fst cul + 1),
                     i32 (snd clr - snd cul + 1))) ;;
            (* std::swap(NW, NE); std::swap(SW, SE); *)
            subtree1 <- positionNormal (node ul lr a ne nw se sw)
                                       width1 height1 ;;
            match subtree1 with
            | nullptr => Err NullDeref
            | node ul1 lr1 a1 nw1 ne1 sw1 se1 =>
                nw2 <- FlipNode fuel' nw1 ;;
                ne2 <- FlipNode fuel' ne1 ;;
                sw2 <- FlipNode fuel' sw1 ;;
                se2 <- FlipNode fuel' se1 ;;
                Ok (node ul1 lr1 a1 nw2 ne2 sw2 se2)
            end
      end
  end.

Definition FlipHorizontal (t : QTree) : result QTree :=
  root' <- FlipNode (S (depth (root t))) (root t) ;;
  Ok (mkQTree root' (width t) (height t)).

(* ===================================================================== *)
(** ** Rotator *)

Definition coordinateHelper (subtree : NodePtr) (width1 width2 height1 : Z)
  : result NodePtr :=
  match subtree with
  | nullptr => Err NullDeref
  | node ul lr a nw ne sw se =>
      let nw' :=
        if isNull nw then nw
        else setRect (fst ul, u32 (snd ul + width2))
                     (u32 (fst ul + height1 - 1), snd lr) nw in
      let ne' :=
        if isNull ne then ne
        else setRect (fst ul, snd ul)
                     (u32 (fst ul + height1 - 1), u32 (snd ul + width2 - 1)) ne in
      let sw' :=
        if isNull sw then sw
        else setRect (u32 (fst ul + height1), u32 (snd ul + width2))
                     (fst lr, snd lr) sw in
      let se' :=
        if isNull se then se
        else setRect (u32 (fst ul + height1), snd ul)
                     (fst lr, u32 (snd ul + width2 - 1)) se in
      Ok (node ul lr a nw' ne' sw' se')
  end.

Fixpoint RotateSubtree (fuel : nat) (subtree : NodePtr) : result NodePtr :=
  match fuel with
  | O => Err OutOfFuel
  | S fuel' =>
      match subtree with
      | nullptr => Ok subtree
      | node ul lr a nw ne sw se =>
          if isLeaf subtree then Ok subtree
          else
            '(width1, width2, height1) <-
              (if isNull nw && isNull sw then
                 '(cul, clr) <- rectOf ne ;;
                 Ok (i32 (snd lr - snd ul + 1 - (fst clr - fst cul + 1)),
                     i32 (fst clr - fst cul + 1),
                     i32 (snd clr - snd cul + 1))
               else if isNull nw && isNull ne then
                 '(wul, wlr) <- rectOf sw ;;
                 '(eul, elr) <- rectOf se ;;
                 Ok (i32 (fst wlr - fst wul + 1),
                     i32 (fst elr - fst eul + 1),
                     i32 (fst lr - fst ul + 1 - (snd wlr - snd wul + 1)))
               else if isNull ne && isNull se then
                 '(cul, clr) <- rectOf nw ;;
                 Ok (i32 (fst clr - fst cul + 1),
                     i32 (snd lr - snd ul + 1 - (fst clr - fst cul + 1)),
                     i32 (snd clr - snd cul + 1))
               else
                 '(wul, wlr) <- rectOf nw ;;
                 '(eul, elr) <- rectOf ne ;;
                 Ok (i32 (fst wlr - fst wul + 1),
                     i32 (fst elr - fst eul + 1),
                     i32 (snd wlr - snd wul + 1))) ;;
            subtree1 <- coordinateHelper subtree width1 width2 height1 ;;
            match subtree1 with
            | nullptr => Err NullDeref
            | node ul1 lr1 a1 nw1 ne1 sw1 se1 =>
                (* temp = SE; SE = SW; SW = NW; NW = NE; NE = temp; *)
                nw2 <- RotateSubtree fuel' ne1 ;;
                ne2 <- RotateSubtree fuel' se1 ;;
                sw2 <- RotateSubtree fuel' nw1 ;;
                se2 <- RotateSubtree fuel' sw1 ;;
                Ok (node ul1 lr1 a1 nw2 ne2 sw2 se2)
            end
      end
  end.

Definition RotateCCW (t : QTree) : result QTree :=
  (* std::swap(height, width); *)
  let height' := width t in
  let width' := height t in
  match root t with
  | nullptr => Err NullDeref
  | node ul lr a nw ne sw se =>
      (* std::swap(root->lowRight.first, root->lowRight.second); *)
      let root1 := node ul (snd lr, fst lr) a nw ne sw se in
      root2 <- RotateSubtree (S (depth root1)) root1 ;;
      Ok (mkQTree root2 width' height')
  end.

(* ===================================================================== *)
(** ** Copying and clearing *)

(** [CopyNode(other)]: a [new Node] with the rectangle and average of
    every node of [other], children copied in NW, NE, SW, SE order. *)
Fixpoint CopyNode (other : NodePtr) : NodePtr :=
  match other with
  | nullptr => nullptr
  | node ul lr a nw ne sw se =>
      let subtree_nw := CopyNode nw in
      let subtree_ne := CopyNode ne in
      let subtree_sw := CopyNode sw in
      let subtree_se := CopyNode se in
      node ul lr a subtree_nw subtree_ne subtree_sw subtree_se
  end.

(** [Copy(other)]: overwrite the height, width and root of [this]. *)
Definition Copy (this other : QTree) : QTree :=
  let height := height other in
  let width := width other in
  mkQTree (CopyNode (root other)) width height.

(** [operator=(rhs)]: [Copy(rhs); return *this;]. *)
Definition assign (this rhs : QTree) : QTree := Copy this rhs.

(** [ClearSubtree(subtree)]: clear the four children, [delete subtree] and
    set the pointer to [NULL]. *)
Fixpoint ClearSubtree (subtree : NodePtr) : NodePtr :=
  match subtree with
  | nullptr => subtree
  | node _ _ _ nw ne sw se =>
      let nw' := ClearSubtree nw in
      let ne' := ClearSubtree ne in
      let sw' := ClearSubtree sw in
      let se' := ClearSubtree se in
      nullptr
  end.

Definition Clear (t : QTree) : QTree :=
  mkQTree (ClearSubtree (root t)) (width t) (height t).

(* ===================================================================== *)
(** ** Copying and clearing, with the nodes in memory *)

(** A tree value cannot tell a copy from the original, nor a deleted node
    from a live one.  For [operator=], [Copy], [CopyNode], [Clear] and
    [ClearSubtree] the nodes are therefore also kept in a memory of numbered
    cells, where a [Node*] is the number of a cell. *)
Module Store.

Definition addr : Type := nat.

(** A [Node*]: [None] is the null pointer. *)
Definition ptr : Type := option addr.

Record Node : Type := mkNode {
  upLeft : Z * Z;
  lowRight : Z * Z;
  avg : RGBAPixel;
  NW : ptr;
  NE : ptr;
  SW : ptr;
  SE : ptr
}.

(** Modelled from the spec: the constructor [Node(ul, lr, avg)] of the node
    type, which is declared outside these sources; a new node is a leaf,
    "all four child slots are empty". *)
Definition Node_new (ul lr : Z * Z) (a : RGBAPixel) : Node :=
  mkNode ul lr a None None None None.

(** The four child fields of a node. *)
Inductive slot : Type := sNW | sNE | sSW | sSE.

Definition get_slot (s : slot) (n : Node) : ptr :=
  match s with
  | sNW => NW n
  | sNE => NE n
  | sSW => SW n
  | sSE => SE n
  end.

Definition set_slot (s : slot) (v : ptr) (n : Node) : Node :=
  match s with
  | sNW => mkNode (upLeft n) (lowRight n) (avg n) v (NE n) (SW n) (SE n)
  | sNE => mkNode (upLeft n) (lowRight n) (avg n) (NW n) v (SW n) (SE n)
  | sSW => mkNode (upLeft n) (lowRight n) (avg n) (NW n) (NE n) v (SE n)
  | sSE => mkNode (upLeft n) (lowRight n) (avg n) (NW n) (NE n) (SW n) v
  end.

(** Memory: cell [a] holds a live node, or nothing when it was never
    allocated or has been deleted. *)
Definition memory : Type := list (option Node).

Definition cell (m : memory) (a : addr) : option Node :=
  match nth_error m a with
  | Some c => c
  | None => None
  end.

(** The node [p] points to, for a read of [p->...]. *)
Definition load (m : memory) (p : ptr) : result Node :=
  match p with
  | None => Err NullDeref
  | Some a =>
      match cell m a with
      | Some n => Ok n
      | None => Err Dangling
      end
  end.

(** [a->s = v;] *)
Definition write (m : memory) (a : addr) (s : slot) (v : ptr) : result memory :=
  n <- load m (Some a) ;;
  Ok (list_set m a (Some (set_slot s v n))).

(** [delete p;] for a non-null [p]. *)
Definition delete (m : memory) (a : addr) : result memory :=
  match cell m a with
  | Some _ => Ok (list_set m a None)
  | None => Err Dangling
  end.

(** The fields of a [QTree] object. *)
Record QTree : Type := mkQTree {
  root : ptr;
  width : Z;
  height : Z
}.

(** What a [Node*&] names: the [root] field of the tree object, or a child
    field of a node in memory. *)
Inductive place : Type :=
| Root
| Child (a : addr) (s : slot).

Definition read (m : memory) (this : QTree) (pl : place) : result ptr :=
  match pl with
  | Root => Ok (root this)
  | Child a s => n <- load m (Some a) ;; Ok (get_slot s n)
  end.

Definition assign_place (m : memory) (this : QTree) (pl : place) (v : ptr)
  : result (memory * QTree) :=
  match pl with
  | Root => Ok (m, mkQTree v (width this) (height this))
  | Child a s => m' <- write m a s v ;; Ok (m', this)
  end.

(** [ClearSubtree(subtree->s);] *)
Definition clear_slot (rec : memory -> QTree -> place -> result (memory * QTree))
           (m : memory) (this : QTree) (subtree : place) (s : slot)
  : result (memory * QTree) :=
  p <- read m this subtree ;;
  match p with
  | None => Err NullDeref
  | Some a => rec m this (Child a s)
  end.

(** [ClearSubtree(subtree)], [subtree] a reference to a pointer.  The
    recursion follows the pointers in memory and takes fuel. *)
Fixpoint ClearSubtree (fuel : nat) (m : memory) (this : QTree) (subtree : place)
  : result (memory * QTree) :=
  match fuel with
  | O => Err OutOfFuel
  | S fuel' =>
      p <- read m this subtree ;;
      match p with
      | None => Ok (m, this)
      | Some _ =>
          '(m1, this1) <- clear_slot (ClearSubtree fuel') m this subtree sNW ;;
          '(m2, this2) <- clear_slot (ClearSubtree fuel') m1 this1 subtree sNE ;;
          '(m3, this3) <- clear_slot (ClearSubtree fuel') m2 this2 subtree sSW ;;
          '(m4, this4) <- clear_slot (ClearSubtree fuel') m3 this3 subtree sSE ;;
          p' <- read m4 this4 subtree ;;
          m5 <- match p' with
                | None => Ok m4
                | Some a => delete m4 a
                end ;;
          assign_place m5 this4 subtree None
      end
  end.

(** [Clear()].  A chain of distinct live nodes is no longer than the
    memory, which bounds the fuel. *)
Definition Clear (m : memory) (this : QTree) : result (memory * QTree) :=
  ClearSubtree (S (List.length m)) m this Root.

Section Allocator.

(** [new Node(...)]: the allocator picks a cell that holds no node, lets it
    hold the new node and leaves every other cell alone. *)
Variable new : memory -> Node -> memory * addr.

Definition new_ok : Prop :=
  forall (m : memory) (n : Node),
    cell m (snd (new m n)) = None /\
    cell (fst (new m n)) (snd (new m n)) = Some n /\
    forall q, q <> snd (new m n) -> cell (fst (new m n)) q = cell m q.

(** [subtree->s = CopyNode(other->s);] *)
Definition copy_slot (rec : memory -> ptr -> result (memory * ptr))
           (m : memory) (other : ptr) (subtree : addr) (s : slot)
  : result memory :=
  o <- load m other ;;
  '(m', c) <- rec m (get_slot s o) ;;
  write m' subtree s c.

(** [CopyNode(other)]. *)
Fixpoint CopyNode (fuel : nat) (m : memory) (other : ptr)
  : result (memory * ptr) :=
  match fuel with
  | O => Err OutOfFuel
  | S fuel' =>
      match other with
      | None => Ok (m, None)
      | Some _ =>
          o <- load m other ;;
          let '(m0, subtree) :=
            new m (Node_new (upLeft o) (lowRight o) (avg o)) in
          m1 <- copy_slot (CopyNode fuel') m0 other subtree sNW ;;
          m2 <- copy_slot (CopyNode fuel') m1 other subtree sNE ;;
          m3 <- copy_slot (CopyNode fuel') m2 other subtree sSW ;;
          m4 <- copy_slot (CopyNode fuel') m3 other subtree sSE ;;
          Ok (m4, Some subtree)
      end
  end.

(** [Copy(other)]: overwrite the height, width and root of [this]; nothing
    is deleted. *)
Definition Copy (m : memory) (this other : QTree) : result (memory * QTree) :=
  let height := height other in
  let width := width other in
  '(m', root) <- CopyNode (S (List.length m)) m (root other) ;;
  Ok (m', mkQTree root width height).

(** [operator=(rhs)]: [Copy(rhs); return *this;]. *)
Definition assign (m : memory) (this rhs : QTree) : result (memory * QTree) :=
  Copy m this rhs.

End Allocator.

(** An allocator: the new node goes into a new cell after all others. *)
Definition new_at_end (m : memory) (n : Node) : memory * addr :=
  (m ++ [Some n], List.length m).

End Store.

(* ===================================================================== *)
(** * Verification *)

(** ** Wrap-around disappears on values that fit *)

Lemma u32_id (z : Z) : 0 <= z < 4294967296 -> u32 z = z.
Proof. intros H. unfold u32. apply Z.mod_small. exact H. Qed.

Lemma i32_id (z : Z) : -2147483648 <= z < 2147483648 -> i32 z = z.
Proof. intros H. unfold i32. rewrite Z.mod_small; lia. Qed.

Lemma u8_id (z : Z) : 0 <= z < 256 -> u8 z = z.
Proof. intros H. unfold u8. apply Z.mod_small. exact H. Qed.

Ltac unwrap :=
  repeat match goal with
         | |- context [u32 ?e] => rewrite (u32_id e) by lia
         | |- context [i32 ?e] => rewrite (i32_id e) by lia
         end.

Ltac unwrap_in H :=
  repeat match type of H with
         | context [u32 ?e] => rewrite (u32_id e) in H by lia
         | context [i32 ?e] => rewrite (i32_id e) in H by lia
         end.

Lemma ceil_half_bounds (x : Z) : 2 <= x -> 1 <= ceil_half x < x.
Proof.
  intros H. unfold ceil_half.
  pose proof (Z.div_mod (x + 1) 2 ltac:(lia)).
  pose proof (Z.mod_pos_bound (x + 1) 2 ltac:(lia)). lia.
Qed.

Lemma ceil_half_one : ceil_half 1 = 1.
Proof. reflexivity. Qed.

(** ** Well-formed trees *)

Definition rect_ok (ul lr : point) : Prop :=
  0 <= fst ul <= fst lr /\ fst lr < 2147483647 /\
  0 <= snd ul <= snd lr /\ snd lr < 2147483647.

Definition has_rect (c : NodePtr) (ul lr : point) : Prop :=
  rectOf c = Ok (ul, lr).

(** The five ways the children of an internal node lie in its rectangle:
    four quadrants, or two halves named West, East, North or South.  The
    builder makes quadrants, West pairs (one-pixel-wide strips) and North
    pairs (one-pixel-tall strips); flips and rotations make the other two. *)
Inductive shape (ul lr : point) : NodePtr -> NodePtr -> NodePtr -> NodePtr -> Prop :=
| shape_leaf : shape ul lr nullptr nullptr nullptr nullptr
| shape_quad (a b : Z) (nw ne sw se : NodePtr) :
    1 <= a <= fst lr - fst ul -> 1 <= b <= snd lr - snd ul ->
    has_rect nw (fst ul, snd ul) (fst ul + a - 1, snd ul + b - 1) ->
    has_rect ne (fst ul + a, snd ul) (fst lr, snd ul + b - 1) ->
    has_rect sw (fst ul, snd ul + b) (fst ul + a - 1, snd lr) ->
    has_rect se (fst ul + a, snd ul + b) (fst lr, snd lr) ->
    shape ul lr nw ne sw se
| shape_west (b : Z) (nw sw : NodePtr) :
    1 <= b <= snd lr - snd ul ->
    has_rect nw (fst ul, snd ul) (fst lr, snd ul + b - 1) ->
    has_rect sw (fst ul, snd ul + b) (fst lr, snd lr) ->
    shape ul lr nw nullptr sw nullptr
| shape_east (b : Z) (ne se : NodePtr) :
    1 <= b <= snd lr - snd ul ->
    has_rect ne (fst ul, snd ul) (fst lr, snd ul + b - 1) ->
    has_rect se (fst ul, snd ul + b) (fst lr, snd lr) ->
    shape ul lr nullptr ne nullptr se
| shape_north (a : Z) (nw ne : NodePtr) :
    1 <= a <= fst lr - fst ul ->
    has_rect nw (fst ul, snd ul) (fst ul + a - 1, snd lr) ->
    has_rect ne (fst ul + a, snd ul) (fst lr, snd lr) ->
    shape ul lr nw ne nullptr nullptr
| shape_south (a : Z) (sw se : NodePtr) :
    1 <= a <= fst lr - fst ul ->
    has_rect sw (fst ul, snd ul) (fst ul + a - 1, snd lr) ->
    has_rect se (fst ul + a, snd ul) (fst lr, snd lr) ->
    shape ul lr nullptr nullptr sw se.

Fixpoint wf (t : NodePtr) : Prop :=
  match t with
  | nullptr => True
  | node ul lr _ nw ne sw se =>
      rect_ok ul lr /\ shape ul lr nw ne sw se /\
      wf nw /\ wf ne /\ wf sw /\ wf se
  end.

Lemma shape_inv (ul lr : point) (nw ne sw se : NodePtr) :
  shape ul lr nw ne sw se ->
  (nw = nullptr /\ ne = nullptr /\ sw = nullptr /\ se = nullptr) \/
  (exists a b,
      1 <= a <= fst lr - fst ul /\ 1 <= b <= snd lr - snd ul /\
      has_rect nw (fst ul, snd ul) (fst ul + a - 1, snd ul + b - 1) /\
      has_rect ne (fst ul + a, snd ul) (fst lr, snd ul + b - 1) /\
      has_rect sw (fst ul, snd ul + b) (fst ul + a - 1, snd lr) /\
      has_rect se (fst ul + a, snd ul + b) (fst lr, snd lr)) \/
  (exists b,
      ne = nullptr /\ se = nullptr /\ 1 <= b <= snd lr - snd ul /\
      has_rect nw (fst ul, snd ul) (fst lr, snd ul + b - 1) /\
      has_rect sw (fst ul, snd ul + b) (fst lr, snd lr)) \/
  (exists b,
      nw = nullptr /\ sw = nullptr /\ 1 <= b <= snd lr - snd ul /\
      has_rect ne (fst ul, snd ul) (fst lr, snd ul + b - 1) /\
      has_rect se (fst ul, snd ul + b) (fst lr, snd lr)) \/
  (exists a,
      sw = nullptr /\ se = nullptr /\ 1 <= a <= fst lr - fst ul /\
      has_rect nw (fst ul, snd ul) (fst ul + a - 1, snd lr) /\
      has_rect ne (fst ul + a, snd ul) (fst lr, snd lr)) \/
  (exists a,
      nw = nullptr /\ ne = nullptr /\ 1 <= a <= fst lr - fst ul /\
      has_rect sw (fst ul, snd ul) (fst ul + a - 1, snd lr) /\
      has_rect se (fst ul + a, snd ul) (fst lr, snd lr)).
Proof.
  intros Hs. inversion Hs; subst.
  - left. auto.
  - right. left. eauto 10.
  - right. right. left. eauto 10.
  - right. right. right. left. eauto 10.
  - right. right. right. right. left. eauto 10.
  - right. right. right. right. right. eauto 10.
Qed.

(** Case analysis on the shape of a node, in the order leaf, quadrants,
    West, East, North, South; the splits are named [sa] (columns left of
    the divider) and [sb] (rows above it). *)
Ltac shape_cases Hs :=
  apply shape_inv in Hs;
  destruct Hs as
    [ (-> & -> & -> & ->)
    | [ (sa & sb & Hsa & Hsb & Rnw & Rne & Rsw & Rse)
      | [ (sb & -> & -> & Hsb & Rnw & Rsw)
        | [ (sb & -> & -> & Hsb & Rne & Rse)
          | [ (sa & -> & -> & Hsa & Rnw & Rne)
            | (sa & -> & -> & Hsa & Rsw & Rse) ]]]]];
  cbn [fst snd] in *.

Lemma has_rect_inv (c : NodePtr) (ul lr : point) :
  has_rect c ul lr ->
  exists a nw ne sw se, c = node ul lr a nw ne sw se.
Proof.
  unfold has_rect. destruct c as [|ul' lr' a nw ne sw se]; simpl; intros H.
  - discriminate.
  - inversion H; subst. eauto 6.
Qed.

(** Expose a child known through [has_rect] as a [node]. *)
Ltac expose_children :=
  repeat match goal with
         | H : has_rect ?c _ _ |- _ =>
             let a := fresh "a" in
             let nw := fresh "nw" in let ne := fresh "ne" in
             let sw := fresh "sw" in let se := fresh "se" in
             destruct (has_rect_inv _ _ _ H) as (a & nw & ne & sw & se & ->);
             clear H
         end.

Arguments u32 : simpl never.
Arguments i32 : simpl never.
Arguments u8 : simpl never.
Arguments ceil_half : simpl never.

(** ** Rasters the builder accepts *)

Definition pixel_ok (p : RGBAPixel) : Prop :=
  0 <= r p <= 255 /\ 0 <= g p <= 255 /\ 0 <= b p <= 255.

(** A raster as the image library hands it over: at least one pixel, as
    many stored pixels as its dimensions say, 8-bit channels. *)
Definition raster_ok (img : PNG) : Prop :=
  1 <= width_ img /\ 1 <= height_ img /\
  List.length (imageData_ img) = Z.to_nat (width_ img * height_ img) /\
  Forall pixel_ok (imageData_ img).

(** A raster the constructor is defined on: at least one pixel, as many
    stored pixels as its dimensions say, 8-bit channels, and few enough
    pixels that the [int] sums of [assignColor] do not overflow. *)
Definition valid_image (img : PNG) : Prop :=
  1 <= width_ img /\ 1 <= height_ img /\
  255 * (width_ img * height_ img) < 2147483648 /\
  List.length (imageData_ img) = Z.to_nat (width_ img * height_ img) /\
  Forall pixel_ok (imageData_ img).

Lemma valid_image_raster_ok (img : PNG) : valid_image img -> raster_ok img.
Proof. intros (Hw & Hh & _ & Hlen & Hall). repeat split; assumption. Qed.

Lemma getPixel_raster (img : PNG) (x y : Z) :
  raster_ok img -> 0 <= x < width_ img -> 0 <= y < height_ img ->
  exists p, getPixel img x y = Ok p /\ pixel_ok p.
Proof.
  intros (Hw & Hh & Hlen & Hall) Hx Hy.
  unfold getPixel, in_raster.
  replace (0 <=? x) with true by (symmetry; apply Z.leb_le; lia).
  replace (x <? width_ img) with true by (symmetry; apply Z.ltb_lt; lia).
  replace (0 <=? y) with true by (symmetry; apply Z.leb_le; lia).
  replace (y <? height_ img) with true by (symmetry; apply Z.ltb_lt; lia).
  simpl.
  destruct (nth_error (imageData_ img) (pixel_index img x y)) as [p|] eqn:E.
  - exists p. split; [reflexivity|].
    rewrite Forall_forall in Hall. apply Hall. eapply nth_error_In; eauto.
  - exfalso. apply nth_error_None in E. rewrite Hlen in E.
    unfold pixel_index in E. nia.
Qed.

Lemma getPixel_ok (img : PNG) (x y : Z) :
  valid_image img -> 0 <= x < width_ img -> 0 <= y < height_ img ->
  exists p, getPixel img x y = Ok p /\ pixel_ok p.
Proof. intros Himg. apply getPixel_raster, valid_image_raster_ok, Himg. Qed.

(** ** What the builder promises about a node *)

Definition pixel_area (c : NodePtr) : Z :=
  match c with
  | nullptr => 0
  | node ul lr _ _ _ _ _ => (fst lr - fst ul + 1) * (snd lr - snd ul + 1)
  end.

Definition avg_of (c : NodePtr) : RGBAPixel :=
  match c with
  | nullptr => RGBAPixel_default
  | node _ _ a _ _ _ _ => a
  end.

(** The direct children of a node: its non-null child slots. *)
Definition children (t : NodePtr) : list NodePtr :=
  match t with
  | nullptr => []
  | node _ _ _ nw ne sw se =>
      filter (fun c => negb (isNull c)) [nw; ne; sw; se]
  end.

(** [Σ(childArea·childAvg.channel) / Σ(childArea)], truncating. *)
Definition weighted_mean (channel : RGBAPixel -> Z) (cs : list NodePtr) : Z :=
  Z.quot (fold_right (fun c acc => pixel_area c * channel (avg_of c) + acc) 0 cs)
         (fold_right (fun c acc => pixel_area c + acc) 0 cs).

Fixpoint avg_rule (t : NodePtr) : Prop :=
  match t with
  | nullptr => True
  | node _ _ a nw ne sw se =>
      (isLeaf t = false ->
       r a = weighted_mean r (children t) /\
       g a = weighted_mean g (children t) /\
       b a = weighted_mean b (children t)) /\
      avg_rule nw /\ avg_rule ne /\ avg_rule sw /\ avg_rule se
  end.

(** [ceil(w/2)] as the split rule words it. *)
Definition ceiling_div2 (w : Z) : Z := - ((- w) / 2).

Fixpoint split_rule (img : PNG) (t : NodePtr) : Prop :=
  match t with
  | nullptr => True
  | node ul lr a nw ne sw se =>
      let w := fst lr - fst ul + 1 in
      let h := snd lr - snd ul + 1 in
      let halfW := ceiling_div2 w in
      let halfH := ceiling_div2 h in
      (w = 1 /\ h = 1 ->
       isLeaf t = true /\ getPixel img (fst ul) (snd ul) = Ok a) /\
      (w = 1 /\ h > 1 ->
       ne = nullptr /\ se = nullptr /\
       has_rect nw (fst ul, snd ul) (fst ul, snd ul + halfH - 1) /\
       has_rect sw (fst ul, snd ul + halfH) (fst ul, snd lr)) /\
      (h = 1 /\ w > 1 ->
       sw = nullptr /\ se = nullptr /\
       has_rect nw (fst ul, snd ul) (fst ul + halfW - 1, snd ul) /\
       has_rect ne (fst ul + halfW, snd ul) (fst lr, snd ul)) /\
      (w > 1 /\ h > 1 ->
       has_rect nw (fst ul, snd ul) (fst ul + halfW - 1, snd ul + halfH - 1) /\
       has_rect ne (fst ul + halfW, snd ul) (fst lr, snd ul + halfH - 1) /\
       has_rect sw (fst ul, snd ul + halfH) (fst ul + halfW - 1, snd lr) /\
       has_rect se (fst ul + halfW, snd ul + halfH) (fst lr, snd lr)) /\
      split_rule img nw /\ split_rule img ne /\
      split_rule img sw /\ split_rule img se
  end.

Fixpoint colors_ok (t : NodePtr) : Prop :=
  match t with
  | nullptr => True
  | node _ _ a nw ne sw se =>
      pixel_ok a /\ colors_ok nw /\ colors_ok ne /\ colors_ok sw /\ colors_ok se
  end.

Lemma ceiling_div2_ceil_half (w : Z) : ceiling_div2 w = ceil_half w.
Proof.
  unfold ceiling_div2, ceil_half.
  pose proof (Z.div_mod (- w) 2 ltac:(lia)).
  pose proof (Z.mod_pos_bound (- w) 2 ltac:(lia)).
  pose proof (Z.div_mod (w + 1) 2 ltac:(lia)).
  pose proof (Z.mod_pos_bound (w + 1) 2 ltac:(lia)).
  lia.
Qed.

(** ** The weighted mean of [assignColor] *)

Definition term_sum (terms : list (Z * Z)) : Z :=
  fold_right (fun t acc => fst t * snd t + acc) 0 terms.

Definition weight_sum (terms : list (Z * Z)) : Z :=
  fold_right (fun t acc => fst t + acc) 0 terms.

Lemma term_sum_bounds (terms : list (Z * Z)) :
  Forall (fun t => 0 <= fst t /\ 0 <= snd t <= 255) terms ->
  0 <= term_sum terms <= 255 * weight_sum terms.
Proof.
  induction 1 as [|[a c] l [Ha Hc] _ IH].
  - simpl. lia.
  - change (term_sum ((a, c) :: l)) with (a * c + term_sum l).
    change (weight_sum ((a, c) :: l)) with (a + weight_sum l).
    simpl in Ha, Hc.
    assert (0 <= a * c <= 255 * a) by nia. lia.
Qed.

Lemma weighted_ok (terms : list (Z * Z)) (total : Z) :
  Forall (fun t => 0 <= fst t /\ 0 <= snd t <= 255) terms ->
  total = weight_sum terms -> 0 < total -> 255 * total < 2147483648 ->
  weighted terms total = Ok (Z.quot (term_sum terms) total) /\
  0 <= Z.quot (term_sum terms) total <= 255.
Proof.
  intros Hall Htot Hpos Hbound.
  pose proof (term_sum_bounds _ Hall) as Hsum. rewrite <- Htot in Hsum.
  assert (Hq : 0 <= Z.quot (term_sum terms) total <= 255).
  { rewrite Z.quot_div_nonneg by lia. split.
    - apply Z.div_pos; lia.
    - apply Z.div_le_upper_bound; lia. }
  split; [|exact Hq].
  unfold weighted. fold (term_sum terms). cbv zeta.
  destruct (total =? 0) eqn:E; [apply Z.eqb_eq in E; lia|].
  destruct (total =? -1) eqn:E1; [apply Z.eqb_eq in E1; lia|].
  rewrite andb_false_r.
  rewrite (i32_id (term_sum terms)) by lia.
  rewrite u8_id by lia. reflexivity.
Qed.

Lemma areaOf_ok (ul lr : point) (a : RGBAPixel) (nw ne sw se : NodePtr) :
  rect_ok ul lr ->
  pixel_area (node ul lr a nw ne sw se) < 2147483648 ->
  areaOf (node ul lr a nw ne sw se) = Ok (pixel_area (node ul lr a nw ne sw se)) /\
  0 < pixel_area (node ul lr a nw ne sw se).
Proof.
  intros (Hx & _ & Hy & _) Hb. unfold areaOf. simpl in *.
  assert (0 < (fst lr - fst ul + 1) * (snd lr - snd ul + 1)) by nia.
  split; [|assumption].
  rewrite i32_id by nia. f_equal. ring.
Qed.

Definition child_good (c : NodePtr) : Prop :=
  match c with
  | nullptr => False
  | node ul lr a _ _ _ _ => rect_ok ul lr /\ pixel_ok a
  end.

Lemma child_good_pos (c : NodePtr) : child_good c -> 0 < pixel_area c.
Proof.
  destruct c as [|ul lr a nw ne sw se]; simpl; [tauto|].
  intros [(Hx & _ & Hy & _) _]. apply Z.mul_pos_pos; lia.
Qed.

Lemma child_good_area (c : NodePtr) :
  child_good c -> pixel_area c < 2147483648 ->
  areaOf c = Ok (pixel_area c) /\ 0 < pixel_area c /\
  avgOf c = Ok (avg_of c) /\ pixel_ok (avg_of c).
Proof.
  destruct c as [|ul lr a nw ne sw se]; simpl; [tauto|].
  intros [Hr Hp] Hb.
  destruct (areaOf_ok ul lr a nw ne sw se Hr Hb) as [E P].
  simpl in E, P. auto.
Qed.

Ltac weigh ch :=
  match goal with
  | |- context [weighted ?ts ?tot] =>
      let Hw := fresh "Hw" in let Hq := fresh "Hq" in
      destruct (weighted_ok ts tot) as [Hw Hq];
      [ repeat constructor; simpl; lia
      | simpl; lia | lia | lia
      | rewrite Hw; cbn [bind] ]
  end.

Ltac assign_color_tac :=
  repeat match goal with
         | H : child_good ?c, B : pixel_area ?c < _ |- _ =>
             let E := fresh "E" in let P := fresh "P" in
             let A := fresh "A" in let K := fresh "K" in
             destruct (child_good_area c H B) as (E & P & A & K);
             clear H; rewrite ?E, ?A; destruct K as (? & ? & ?)
         end;
  cbn [bind];
  match goal with
  | |- context [i32 ?e] => rewrite (i32_id e) by lia
  end;
  weigh r; weigh g; weigh b;
  eexists; split; [reflexivity|];
  unfold pixel_ok, weighted_mean; simpl;
  unfold term_sum in *; simpl in *;
  repeat split; try lia; f_equal; lia.

Lemma assignColor_v (ul lr : point) (a0 : RGBAPixel) (nw sw : NodePtr) :
  child_good nw -> child_good sw ->
  255 * (pixel_area nw + pixel_area sw) < 2147483648 ->
  exists a,
    assignColor (node ul lr a0 nw nullptr sw nullptr) "v"
    = Ok (node ul lr a nw nullptr sw nullptr) /\
    pixel_ok a /\
    r a = weighted_mean r [nw; sw] /\
    g a = weighted_mean g [nw; sw] /\
    b a = weighted_mean b [nw; sw].
Proof.
  intros Gnw Gsw Hb.
  pose proof (child_good_pos nw Gnw). pose proof (child_good_pos sw Gsw).
  assert (Bnw : pixel_area nw < 2147483648) by lia.
  assert (Bsw : pixel_area sw < 2147483648) by lia.
  unfold assignColor. cbn [String.eqb Ascii.eqb Bool.eqb].
  assign_color_tac.
Qed.

Lemma assignColor_h (ul lr : point) (a0 : RGBAPixel) (nw ne : NodePtr) :
  child_good nw -> child_good ne ->
  255 * (pixel_area nw + pixel_area ne) < 2147483648 ->
  exists a,
    assignColor (node ul lr a0 nw ne nullptr nullptr) "h"
    = Ok (node ul lr a nw ne nullptr nullptr) /\
    pixel_ok a /\
    r a = weighted_mean r [nw; ne] /\
    g a = weighted_mean g [nw; ne] /\
    b a = weighted_mean b [nw; ne].
Proof.
  intros Gnw Gne Hb.
  pose proof (child_good_pos nw Gnw). pose proof (child_good_pos ne Gne).
  assert (Bnw : pixel_area nw < 2147483648) by lia.
  assert (Bne : pixel_area ne < 2147483648) by lia.
  unfold assignColor. cbn [String.eqb Ascii.eqb Bool.eqb].
  assign_color_tac.
Qed.

Lemma assignColor_else (ul lr : point) (a0 : RGBAPixel) (nw ne sw se : NodePtr) :
  child_good nw -> child_good ne -> child_good sw -> child_good se ->
  255 * (pixel_area nw + pixel_area ne + pixel_area sw + pixel_area se)
  < 2147483648 ->
  exists a,
    assignColor (node ul lr a0 nw ne sw se) "else"
    = Ok (node ul lr a nw ne sw se) /\
    pixel_ok a /\
    r a = weighted_mean r [nw; ne; sw; se] /\
    g a = weighted_mean g [nw; ne; sw; se] /\
    b a = weighted_mean b [nw; ne; sw; se].
Proof.
  intros Gnw Gne Gsw Gse Hb.
  pose proof (child_good_pos nw Gnw). pose proof (child_good_pos ne Gne).
  pose proof (child_good_pos sw Gsw). pose proof (child_good_pos se Gse).
  assert (Bnw : pixel_area nw < 2147483648) by lia.
  assert (Bne : pixel_area ne < 2147483648) by lia.
  assert (Bsw : pixel_area sw < 2147483648) by lia.
  assert (Bse : pixel_area se < 2147483648) by lia.
  unfold assignColor. cbn [String.eqb Ascii.eqb Bool.eqb].
  assign_color_tac.
Qed.

(** ** The builder on a rectangle of the raster *)

(** Everything later proofs need to know about the node built for the
    rectangle [ul]..[lr]. *)
Record built (img : PNG) (ul lr : point) (t : NodePtr) : Prop := mkBuilt {
  built_rect : has_rect t ul lr;
  built_wf : wf t;
  built_split : split_rule img t;
  built_avg : avg_rule t;
  built_colors : colors_ok t
}.

Lemma built_child_good (img : PNG) (ul lr : point) (t : NodePtr) :
  built img ul lr t -> rect_ok ul lr -> child_good t.
Proof.
  intros [Hr _ _ _ Hc] Hok. destruct (has_rect_inv _ _ _ Hr) as (a & nw & ne & sw & se & ->).
  simpl in *. tauto.
Qed.

Lemma built_area (img : PNG) (ul lr : point) (t : NodePtr) :
  built img ul lr t ->
  pixel_area t = (fst lr - fst ul + 1) * (snd lr - snd ul + 1).
Proof.
  intros [Hr _ _ _ _]. destruct (has_rect_inv _ _ _ Hr) as (a & nw & ne & sw & se & ->).
  reflexivity.
Qed.

Lemma rect_area_le (img : PNG) (ul lr : point) :
  rect_ok ul lr -> fst lr < width_ img -> snd lr < height_ img ->
  (fst lr - fst ul + 1) * (snd lr - snd ul + 1) <= width_ img * height_ img.
Proof.
  intros (Hx & _ & Hy & _) Hw Hh.
  apply Z.mul_le_mono_nonneg; lia.
Qed.

Lemma sub_rect_area (a b a' b' : Z) :
  255 * (a * b) < 2147483648 -> 0 < a' <= a -> 0 < b' <= b ->
  255 * (a' * b') < 2147483648.
Proof.
  intros Hb Ha Hb'.
  assert (a' * b' <= a * b) by (apply Z.mul_le_mono_nonneg; lia). lia.
Qed.

Ltac sub_rect :=
  first [lia | eapply sub_rect_area; [eassumption | lia | lia]].

(** The builder on any rectangle of a raster whose [int] sums fit, whatever
    the size of the raster around it. *)
Lemma BuildNode_rect (fuel : nat) (img : PNG) :
  raster_ok img ->
  forall ul lr : point,
    rect_ok ul lr -> fst lr < width_ img -> snd lr < height_ img ->
    255 * ((fst lr - fst ul + 1) * (snd lr - snd ul + 1)) < 2147483648 ->
    (fst lr - fst ul + 1) + (snd lr - snd ul + 1) - 1 <= Z.of_nat fuel ->
    exists t, BuildNode fuel img ul lr = Ok t /\ built img ul lr t.
Proof.
  intros Himg. induction fuel as [|fuel IH];
    intros [x0 y0] [x1 y1] Hok Hw Hh Hvol Hfuel.
  - unfold rect_ok in Hok. simpl in *. lia.
  - unfold rect_ok in Hok. cbn [fst snd] in *.
    cbn [BuildNode fst snd].
    rewrite (i32_id (x1 - x0 + 1)) by lia.
    rewrite (i32_id (y1 - y0 + 1)) by lia.
    destruct (x1 - x0 + 1 =? 1) eqn:Ex; destruct (y1 - y0 + 1 =? 1) eqn:Ey;
      cbn [andb negb].
    + (* a single pixel *)
      apply Z.eqb_eq in Ex. apply Z.eqb_eq in Ey.
      destruct (getPixel_raster img x0 y0 Himg) as (p & Ep & Hp); [lia | lia |].
      rewrite Ep. cbn [bind]. eexists. split; [reflexivity|].
      constructor; simpl.
      * reflexivity.
      * unfold rect_ok. cbn [fst snd]. repeat split; try lia. constructor.
      * repeat split; try tauto; try lia.
      * repeat split; try tauto; discriminate.
      * tauto.
    + (* one pixel wide *)
      apply Z.eqb_eq in Ex. apply Z.eqb_neq in Ey.
      replace (x1 - x0 + 1) with 1 by lia. rewrite ceil_half_one.
      pose proof (ceil_half_bounds (y1 - y0 + 1) ltac:(lia)) as Hhh.
      pose proof (ceiling_div2_ceil_half (y1 - y0 + 1)) as Hc.
      set (hh := ceil_half (y1 - y0 + 1)) in *.
      unwrap. replace (x0 + 1 - 1) with x1 by lia.
      destruct (IH (x0, y0) (x1, y0 + hh - 1)) as (nw & Enw & Bnw);
        [unfold rect_ok; cbn [fst snd]; lia | cbn [fst snd]; sub_rect.. |].
      rewrite Enw. cbn [bind].
      destruct (IH (x0, y0 + hh) (x1, y1)) as (sw & Esw & Bsw);
        [unfold rect_ok; cbn [fst snd]; lia | cbn [fst snd]; sub_rect.. |].
      rewrite Esw. cbn [bind].
      destruct (assignColor_v (x0, y0) (x1, y1) RGBAPixel_default nw sw)
        as (a & Ea & Pa & Hr & Hg & Hb).
      { eapply built_child_good; [eassumption|]. unfold rect_ok; cbn [fst snd]; lia. }
      { eapply built_child_good; [eassumption|]. unfold rect_ok; cbn [fst snd]; lia. }
      { rewrite (built_area _ _ _ _ Bnw), (built_area _ _ _ _ Bsw).
        cbn [fst snd]. nia. }
      rewrite Ea. eexists. split; [reflexivity|].
      destruct Bnw as [Rnw Wnw Snw Anw Cnw]. destruct Bsw as [Rsw Wsw Ssw Asw Csw].
      constructor.
      * reflexivity.
      * simpl. split; [unfold rect_ok; cbn [fst snd]; lia|].
        split; [|tauto].
        apply shape_west with (b := hh); cbn [fst snd]; [lia | assumption..].
      * simpl. rewrite Hc. replace x0 with x1 in * by lia.
        repeat split; try assumption; try reflexivity; intros; exfalso; lia.
      * destruct (has_rect_inv _ _ _ Rnw) as (? & ? & ? & ? & ? & ->).
        destruct (has_rect_inv _ _ _ Rsw) as (? & ? & ? & ? & ? & ->).
        simpl in *. tauto.
      * simpl. tauto.
    + (* one pixel tall *)
      apply Z.eqb_neq in Ex. apply Z.eqb_eq in Ey.
      replace (y1 - y0 + 1) with 1 by lia. rewrite ceil_half_one.
      pose proof (ceil_half_bounds (x1 - x0 + 1) ltac:(lia)) as Hhw.
      pose proof (ceiling_div2_ceil_half (x1 - x0 + 1)) as Hc.
      set (hw := ceil_half (x1 - x0 + 1)) in *.
      unwrap. replace (y0 + 1 - 1) with y1 by lia.
      destruct (IH (x0, y0) (x0 + hw - 1, y1)) as (nw & Enw & Bnw);
        [unfold rect_ok; cbn [fst snd]; lia | cbn [fst snd]; sub_rect.. |].
      rewrite Enw. cbn [bind].
      destruct (IH (x0 + hw, y0) (x1, y1)) as (ne & Ene & Bne);
        [unfold rect_ok; cbn [fst snd]; lia | cbn [fst snd]; sub_rect.. |].
      rewrite Ene. cbn [bind].
      destruct (assignColor_h (x0, y0) (x1, y1) RGBAPixel_default nw ne)
        as (a & Ea & Pa & Hr & Hg & Hb).
      { eapply built_child_good; [eassumption|]. unfold rect_ok; cbn [fst snd]; lia. }
      { eapply built_child_good; [eassumption|]. unfold rect_ok; cbn [fst snd]; lia. }
      { rewrite (built_area _ _ _ _ Bnw), (built_area _ _ _ _ Bne).
        cbn [fst snd]. nia. }
      rewrite Ea. eexists. split; [reflexivity|].
      destruct Bnw as [Rnw Wnw Snw Anw Cnw]. destruct Bne as [Rne Wne Sne Ane Cne].
      constructor.
      * reflexivity.
      * simpl. split; [unfold rect_ok; cbn [fst snd]; lia|].
        split; [|tauto].
        apply shape_north with (a := hw); cbn [fst snd]; [lia | assumption..].
      * simpl. rewrite Hc. replace y0 with y1 in * by lia.
        repeat split; try assumption; try reflexivity; intros; exfalso; lia.
      * destruct (has_rect_inv _ _ _ Rnw) as (? & ? & ? & ? & ? & ->).
        destruct (has_rect_inv _ _ _ Rne) as (? & ? & ? & ? & ? & ->).
        simpl in *. tauto.
      * simpl. tauto.
    + (* four quadrants *)
      apply Z.eqb_neq in Ex. apply Z.eqb_neq in Ey.
      pose proof (ceil_half_bounds (x1 - x0 + 1) ltac:(lia)) as Hhw.
      pose proof (ceiling_div2_ceil_half (x1 - x0 + 1)) as Hcw.
      set (hw := ceil_half (x1 - x0 + 1)) in *.
      pose proof (ceil_half_bounds (y1 - y0 + 1) ltac:(lia)) as Hhh.
      pose proof (ceiling_div2_ceil_half (y1 - y0 + 1)) as Hch.
      set (hh := ceil_half (y1 - y0 + 1)) in *.
      unwrap.
      destruct (IH (x0, y0) (x0 + hw - 1, y0 + hh - 1)) as (nw & Enw & Bnw);
        [unfold rect_ok; cbn [fst snd]; lia | cbn [fst snd]; sub_rect.. |].
      rewrite Enw. cbn [bind].
      destruct (IH (x0 + hw, y0) (x1, y0 + hh - 1)) as (ne & Ene & Bne);
        [unfold rect_ok; cbn [fst snd]; lia | cbn [fst snd]; sub_rect.. |].
      rewrite Ene. cbn [bind].
      destruct (IH (x0, y0 + hh) (x0 + hw - 1, y1)) as (sw & Esw & Bsw);
        [unfold rect_ok; cbn [fst snd]; lia | cbn [fst snd]; sub_rect.. |].
      rewrite Esw. cbn [bind].
      destruct (IH (x0 + hw, y0 + hh) (x1, y1)) as (se & Ese & Bse);
        [unfold rect_ok; cbn [fst snd]; lia | cbn [fst snd]; sub_rect.. |].
      rewrite Ese. cbn [bind].
      destruct (assignColor_else (x0, y0) (x1, y1) RGBAPixel_default nw ne sw se)
        as (a & Ea & Pa & Hr & Hg & Hb).
      { eapply built_child_good; [eassumption|]. unfold rect_ok; cbn [fst snd]; lia. }
      { eapply built_child_good; [eassumption|]. unfold rect_ok; cbn [fst snd]; lia. }
      { eapply built_child_good; [eassumption|]. unfold rect_ok; cbn [fst snd]; lia. }
      { eapply built_child_good; [eassumption|]. unfold rect_ok; cbn [fst snd]; lia. }
      { rewrite (built_area _ _ _ _ Bnw), (built_area _ _ _ _ Bne),
          (built_area _ _ _ _ Bsw), (built_area _ _ _ _ Bse).
        cbn [fst snd].
        replace ((x0 + hw - 1 - x0 + 1) * (y0 + hh - 1 - y0 + 1)
                 + (x1 - (x0 + hw) + 1) * (y0 + hh - 1 - y0 + 1)
                 + (x0 + hw - 1 - x0 + 1) * (y1 - (y0 + hh) + 1)
                 + (x1 - (x0 + hw) + 1) * (y1 - (y0 + hh) + 1))
          with ((x1 - x0 + 1) * (y1 - y0 + 1)) by ring.
        lia. }
      rewrite Ea. eexists. split; [reflexivity|].
      destruct Bnw as [Rnw Wnw Snw Anw Cnw]. destruct Bne as [Rne Wne Sne Ane Cne].
      destruct Bsw as [Rsw Wsw Ssw Asw Csw]. destruct Bse as [Rse Wse Sse Ase Cse].
      constructor.
      * reflexivity.
      * simpl. split; [unfold rect_ok; cbn [fst snd]; lia|].
        split; [|tauto].
        apply shape_quad with (a := hw) (b := hh); cbn [fst snd];
          [lia | lia | assumption..].
      * simpl. rewrite Hcw, Hch.
        repeat split; try assumption; try reflexivity; intros; exfalso; lia.
      * destruct (has_rect_inv _ _ _ Rnw) as (? & ? & ? & ? & ? & ->).
        destruct (has_rect_inv _ _ _ Rne) as (? & ? & ? & ? & ? & ->).
        destruct (has_rect_inv _ _ _ Rsw) as (? & ? & ? & ? & ? & ->).
        destruct (has_rect_inv _ _ _ Rse) as (? & ? & ? & ? & ? & ->).
        simpl in *. tauto.
      * simpl. tauto.
Qed.

Lemma BuildNode_built (fuel : nat) (img : PNG) :
  valid_image img ->
  forall ul lr : point,
    rect_ok ul lr -> fst lr < width_ img -> snd lr < height_ img ->
    (fst lr - fst ul + 1) + (snd lr - snd ul + 1) - 1 <= Z.of_nat fuel ->
    exists t, BuildNode fuel img ul lr = Ok t /\ built img ul lr t.
Proof.
  intros Himg ul lr Hok Hw Hh Hfuel.
  apply BuildNode_rect; try assumption.
  - apply valid_image_raster_ok, Himg.
  - pose proof (rect_area_le img _ _ Hok Hw Hh) as Harea.
    assert (Hvol : 255 * (width_ img * height_ img) < 2147483648) by apply Himg.
    lia.
Qed.

Lemma QTree_new_built (img : PNG) :
  valid_image img ->
  exists t,
    QTree_new img = Ok t /\
    width t = width_ img /\ height t = height_ img /\
    built img (0, 0) (width_ img - 1, height_ img - 1) (root t).
Proof.
  intros Himg. pose proof Himg as (Hw & Hh & Hvol & _).
  assert (width_ img <= width_ img * height_ img) by nia.
  assert (height_ img <= width_ img * height_ img) by nia.
  unfold QTree_new. unwrap.
  destruct (BuildNode_built (Z.to_nat (width_ img + height_ img)) img Himg
              (0, 0) (width_ img - 1, height_ img - 1))
    as (t & Et & Bt);
    [unfold rect_ok; cbn [fst snd]; lia | cbn [fst snd]; lia..|].
  rewrite Et. cbn [bind]. eexists. split; [reflexivity|].
  simpl. auto.
Qed.

(** ** Flipping, seen as a function of the rectangle a node is given *)

Definition node_width (c : NodePtr) : Z :=
  match c with
  | nullptr => 0
  | node ul lr _ _ _ _ _ => fst lr - fst ul + 1
  end.

Definition node_height (c : NodePtr) : Z :=
  match c with
  | nullptr => 0
  | node ul lr _ _ _ _ _ => snd lr - snd ul + 1
  end.

(** [flipped ul lr t]: the subtree [FlipNode] leaves behind when it runs on
    [t] after [positionNormal] has moved [t] to the rectangle [ul]..[lr]. *)
Fixpoint flipped (ul lr : point) (t : NodePtr) : NodePtr :=
  match t with
  | nullptr => nullptr
  | node _ _ a nw ne sw se =>
      if isNull nw && isNull ne && isNull sw && isNull se then
        node ul lr a nw ne sw se
      else
        let wh :=
          if isNull nw && isNull sw then
            (fst lr - fst ul + 1 - node_width ne, node_height ne)
          else if isNull nw && isNull ne then
            (node_width sw, snd lr - snd ul + 1 - node_height sw)
          else (node_width nw, node_height nw) in
        let w1 := fst wh in
        let h1 := snd wh in
        node ul lr a
          (flipped (fst ul, snd ul) (fst lr - w1, snd ul + h1 - 1) ne)
          (flipped (fst lr - w1 + 1, snd ul) (fst lr, snd ul + h1 - 1) nw)
          (flipped (fst ul, snd ul + h1) (fst lr - w1, snd lr) se)
          (flipped (fst lr - w1 + 1, snd ul + h1) (fst lr, snd lr) sw)
  end.

(** [t] has the width and height of the rectangle [ul]..[lr]. *)
Definition same_size (t : NodePtr) (ul lr : point) : Prop :=
  match t with
  | nullptr => True
  | node ul' lr' _ _ _ _ _ =>
      fst lr' - fst ul' = fst lr - fst ul /\
      snd lr' - snd ul' = snd lr - snd ul
  end.

Lemma flipped_unfold (ul lr ul' lr' : point) (a : RGBAPixel) (nw ne sw se : NodePtr) :
  flipped ul lr (node ul' lr' a nw ne sw se) =
  if isNull nw && isNull ne && isNull sw && isNull se then
    node ul lr a nw ne sw se
  else
    let wh :=
      if isNull nw && isNull sw then
        (fst lr - fst ul + 1 - node_width ne, node_height ne)
      else if isNull nw && isNull ne then
        (node_width sw, snd lr - snd ul + 1 - node_height sw)
      else (node_width nw, node_height nw) in
    let w1 := fst wh in
    let h1 := snd wh in
    node ul lr a
      (flipped (fst ul, snd ul) (fst lr - w1, snd ul + h1 - 1) ne)
      (flipped (fst lr - w1 + 1, snd ul) (fst lr, snd ul + h1 - 1) nw)
      (flipped (fst ul, snd ul + h1) (fst lr - w1, snd lr) se)
      (flipped (fst lr - w1 + 1, snd ul + h1) (fst lr, snd lr) sw).
Proof. reflexivity. Qed.

Lemma flipped_ext (x0 y0 x1 y1 x0' y0' x1' y1' : Z) (t : NodePtr) :
  x0 = x0' -> y0 = y0' -> x1 = x1' -> y1 = y1' ->
  flipped (x0, y0) (x1, y1) t = flipped (x0', y0') (x1', y1') t.
Proof. intros; subst; reflexivity. Qed.

Lemma depth_has_rect (c : NodePtr) (ul lr : point) :
  has_rect c ul lr -> (1 <= depth c)%nat.
Proof.
  intros H. destruct (has_rect_inv _ _ _ H) as (a & nw & ne & sw & se & ->).
  simpl. lia.
Qed.

(** Split the bound on the depth of a node into bounds for its children,
    and learn that an internal node leaves fuel for them. *)
Ltac children_depth Hd fuel nw ne sw se :=
  cbn [depth] in Hd;
  assert ((depth nw < fuel)%nat) by lia;
  assert ((depth ne < fuel)%nat) by lia;
  assert ((depth sw < fuel)%nat) by lia;
  assert ((depth se < fuel)%nat) by lia;
  clear Hd.

Ltac fuel_left fuel :=
  match goal with
  | H : has_rect ?c _ _, D : (depth ?c < fuel)%nat |- _ =>
      let P := fresh "P" in
      pose proof (depth_has_rect _ _ _ H) as P;
      assert ((1 <= fuel)%nat) by lia; clear P
  end.

Ltac flip_children IH fuel :=
  repeat match goal with
    | W : wf (node ?oul ?olr ?a ?c1 ?c2 ?c3 ?c4)
      |- context [FlipNode fuel (node ?ul ?lr ?a ?c1 ?c2 ?c3 ?c4)] =>
        change (FlipNode fuel (node ul lr a c1 c2 c3 c4))
          with (FlipNode fuel (setRect ul lr (node oul olr a c1 c2 c3 c4)));
        rewrite (IH _ ul lr W);
        [ cbn [bind]
        | unfold rect_ok; cbn [fst snd]; lia
        | cbn [same_size fst snd]; lia
        | assumption ]
    end.

Lemma FlipNode_flipped (fuel : nat) :
  forall (t : NodePtr) (ul lr : point),
    wf t -> rect_ok ul lr -> same_size t ul lr -> (depth t < fuel)%nat ->
    FlipNode fuel (setRect ul lr t) = Ok (flipped ul lr t).
Proof.
  induction fuel as [|fuel IH]; intros t [x0 y0] [x1 y1] Hwf Hok Hsz Hd; [lia|].
  destruct t as [|[x0' y0'] [x1' y1'] a nw ne sw se]; [reflexivity|].
  destruct Hwf as (Hok' & Hs & Wnw & Wne & Wsw & Wse).
  unfold rect_ok in Hok, Hok'. cbn [fst snd same_size] in *.
  children_depth Hd fuel nw ne sw se.
  shape_cases Hs;
    try reflexivity; fuel_left fuel; expose_children;
    rewrite flipped_unfold;
    cbn [FlipNode setRect isLeaf isNull andb rectOf bind fst snd
           node_width node_height];
    unwrap;
    cbn [positionNormal isNull setRect fst snd bind]; unwrap;
    (destruct fuel as [|fuel]; [exfalso; lia|]);
    flip_children IH (S fuel);
    reflexivity.
Qed.

Lemma has_rect_facts (c : NodePtr) (ul lr : point) :
  has_rect c ul lr ->
  isNull c = false /\
  node_width c = fst lr - fst ul + 1 /\
  node_height c = snd lr - snd ul + 1.
Proof.
  intros H. destruct (has_rect_inv _ _ _ H) as (a & nw & ne & sw & se & ->).
  simpl. auto.
Qed.

(** Record nullness, width and height of every child known by [has_rect]. *)
Ltac child_facts :=
  repeat match goal with
         | H : has_rect ?c ?ul ?lr |- _ =>
             let N := fresh "N" in let W := fresh "W" in let T := fresh "T" in
             destruct (has_rect_facts c ul lr H) as (N & W & T);
             cbn [fst snd] in W, T;
             revert H
         end;
  intros.

Lemma isNull_flipped (ul lr : point) (t : NodePtr) :
  isNull (flipped ul lr t) = isNull t.
Proof.
  destruct t as [|? ? a nw ne sw se]; simpl; [reflexivity|].
  destruct (isNull nw && isNull ne && isNull sw && isNull se); reflexivity.
Qed.

Lemma rectOf_flipped (ul lr : point) (t : NodePtr) :
  isNull t = false -> has_rect (flipped ul lr t) ul lr.
Proof.
  destruct t as [|? ? a nw ne sw se]; simpl; [discriminate|]. intros _.
  unfold has_rect.
  destruct (isNull nw && isNull ne && isNull sw && isNull se); reflexivity.
Qed.

Lemma has_rect_flipped (ul lr ul' lr' : point) (t : NodePtr) :
  isNull t = false -> ul = ul' -> lr = lr' ->
  has_rect (flipped ul lr t) ul' lr'.
Proof. intros H <- <-. apply rectOf_flipped. exact H. Qed.

Lemma node_width_flipped (ul lr : point) (t : NodePtr) :
  isNull t = false -> node_width (flipped ul lr t) = fst lr - fst ul + 1.
Proof.
  intros H. apply (has_rect_facts _ _ _ (rectOf_flipped ul lr t H)).
Qed.

Lemma node_height_flipped (ul lr : point) (t : NodePtr) :
  isNull t = false -> node_height (flipped ul lr t) = snd lr - snd ul + 1.
Proof.
  intros H. apply (has_rect_facts _ _ _ (rectOf_flipped ul lr t H)).
Qed.

Lemma depth_flipped (t : NodePtr) :
  forall ul lr, depth (flipped ul lr t) = depth t.
Proof.
  induction t as [|ul' lr' a nw IHnw ne IHne sw IHsw se IHse]; intros ul lr;
    [reflexivity|].
  rewrite flipped_unfold.
  destruct (isNull nw && isNull ne && isNull sw && isNull se); [reflexivity|].
  cbv zeta. cbn [depth]. rewrite IHnw, IHne, IHsw, IHse. lia.
Qed.

Lemma pair_eq (x y x' y' : Z) : x = x' -> y = y' -> (x, y) = (x', y').
Proof. intros; subst; reflexivity. Qed.

Lemma same_size_has_rect (c : NodePtr) (ul lr ul' lr' : point) :
  has_rect c ul lr ->
  fst lr - fst ul = fst lr' - fst ul' -> snd lr - snd ul = snd lr' - snd ul' ->
  same_size c ul' lr'.
Proof.
  intros H Hx Hy. destruct (has_rect_inv _ _ _ H) as (a & nw & ne & sw & se & ->).
  simpl. auto.
Qed.

Ltac use_facts :=
  repeat match goal with
         | H : isNull _ = _ |- _ => rewrite H
         | H : node_width _ = _ |- _ => rewrite H
         | H : node_height _ = _ |- _ => rewrite H
         end.

Ltac solve_rect_ok := unfold rect_ok; cbn [fst snd]; lia.

Ltac solve_same_size :=
  eapply same_size_has_rect; [eassumption | cbn [fst snd]; lia..].

Ltac flipped_has_rect :=
  apply has_rect_flipped; [assumption | apply pair_eq; lia..].

Lemma wf_flipped (t : NodePtr) :
  forall ul lr,
    wf t -> rect_ok ul lr -> same_size t ul lr -> wf (flipped ul lr t).
Proof.
  induction t as [|[x0' y0'] [x1' y1'] a nw IHnw ne IHne sw IHsw se IHse];
    intros [x0 y0] [x1 y1] Hwf Hok Hsz; [exact I|].
  destruct Hwf as (Hok' & Hs & Wnw & Wne & Wsw & Wse).
  unfold rect_ok in Hok, Hok'. cbn [fst snd same_size] in *.
  rewrite flipped_unfold.
  shape_cases Hs;
    child_facts; use_facts; cbn [andb fst snd isNull flipped]; cbv zeta;
    cbn [fst snd wf];
    (split; [solve_rect_ok|]);
    (split;
     [| repeat split;
        try match goal with
          | IH : forall ul lr, wf ?c -> _ |- wf (flipped _ _ ?c) =>
              apply IH; [assumption | solve_rect_ok | solve_same_size]
          end]).
  - constructor.
  - apply shape_quad with (a := x1 - x0 + 1 - sa) (b := sb);
      cbn [fst snd]; [lia | lia | flipped_has_rect..].
  - apply shape_east with (b := sb); cbn [fst snd]; [lia | flipped_has_rect..].
  - apply shape_west with (b := sb); cbn [fst snd]; [lia | flipped_has_rect..].
  - apply shape_north with (a := x1 - x0 + 1 - sa); cbn [fst snd];
      [lia | flipped_has_rect..].
  - apply shape_south with (a := x1 - x0 + 1 - sa); cbn [fst snd];
      [lia | flipped_has_rect..].
Qed.

Ltac flipped_facts :=
  rewrite ?isNull_flipped;
  use_facts;
  rewrite ?node_width_flipped, ?node_height_flipped by assumption;
  cbn [andb fst snd isNull flipped]; cbv zeta; cbn [fst snd].

(** Flipping a well-formed subtree twice, the second time back into its
    own rectangle, restores it. *)
Lemma flipped_flipped (t : NodePtr) :
  forall ul lr oul olr oul' olr',
    wf t -> has_rect t oul olr ->
    fst oul' = fst oul -> snd oul' = snd oul ->
    fst olr' = fst olr -> snd olr' = snd olr ->
    rect_ok ul lr -> same_size t ul lr ->
    flipped oul' olr' (flipped ul lr t) = t.
Proof.
  induction t as [|[x0' y0'] [x1' y1'] a nw IHnw ne IHne sw IHsw se IHse];
    intros [x0 y0] [x1 y1] oul olr [X0 Y0] [X1 Y1] Hwf Hr E1 E2 E3 E4 Hok Hsz;
    [reflexivity|].
  unfold has_rect in Hr. simpl in Hr. inversion Hr; subst oul olr; clear Hr.
  cbn [fst snd] in *. subst X0 Y0 X1 Y1.
  destruct Hwf as (Hok' & Hs & Wnw & Wne & Wsw & Wse).
  unfold rect_ok in Hok, Hok'. cbn [fst snd same_size] in *.
  rewrite flipped_unfold.
  shape_cases Hs;
    child_facts; flipped_facts;
    try reflexivity;
    flipped_facts;
    f_equal;
    match goal with
    | IH : forall ul lr oul olr oul' olr', wf ?c -> _
      |- flipped _ _ (flipped _ _ ?c) = ?c =>
        eapply IH;
        [ assumption | eassumption | cbn [fst snd]; lia ..
        | solve_rect_ok | solve_same_size ]
    end.
Qed.
(** ** Rotating, seen as a function of the rectangle a node is given *)

(** [rotated ul lr t]: the subtree [RotateSubtree] leaves behind when it
    runs on [t] after [coordinateHelper] (or [RotateCCW], at the root) has
    given [t] the rectangle [ul]..[lr]. *)
Fixpoint rotated (ul lr : point) (t : NodePtr) : NodePtr :=
  match t with
  | nullptr => nullptr
  | node _ _ a nw ne sw se =>
      if isNull nw && isNull ne && isNull sw && isNull se then
        node ul lr a nw ne sw se
      else
        let wh :=
          if isNull nw && isNull sw then (node_width ne, node_height ne)
          else if isNull nw && isNull ne then
            (node_width se, fst lr - fst ul + 1 - node_height sw)
          else if isNull ne && isNull se then
            (snd lr - snd ul + 1 - node_width nw, node_height nw)
          else (node_width ne, node_height nw) in
        let w2 := fst wh in
        let h1 := snd wh in
        node ul lr a
          (rotated (fst ul, snd ul) (fst ul + h1 - 1, snd ul + w2 - 1) ne)
          (rotated (fst ul + h1, snd ul) (fst lr, snd ul + w2 - 1) se)
          (rotated (fst ul, snd ul + w2) (fst ul + h1 - 1, snd lr) nw)
          (rotated (fst ul + h1, snd ul + w2) (fst lr, snd lr) sw)
  end.

Lemma rotated_unfold (ul lr ul' lr' : point) (a : RGBAPixel) (nw ne sw se : NodePtr) :
  rotated ul lr (node ul' lr' a nw ne sw se) =
  if isNull nw && isNull ne && isNull sw && isNull se then
    node ul lr a nw ne sw se
  else
    let wh :=
      if isNull nw && isNull sw then (node_width ne, node_height ne)
      else if isNull nw && isNull ne then
        (node_width se, fst lr - fst ul + 1 - node_height sw)
      else if isNull ne && isNull se then
        (snd lr - snd ul + 1 - node_width nw, node_height nw)
      else (node_width ne, node_height nw) in
    let w2 := fst wh in
    let h1 := snd wh in
    node ul lr a
      (rotated (fst ul, snd ul) (fst ul + h1 - 1, snd ul + w2 - 1) ne)
      (rotated (fst ul + h1, snd ul) (fst lr, snd ul + w2 - 1) se)
      (rotated (fst ul, snd ul + w2) (fst ul + h1 - 1, snd lr) nw)
      (rotated (fst ul + h1, snd ul + w2) (fst lr, snd lr) sw).
Proof. reflexivity. Qed.

(** The rectangle [ul]..[lr] has the width of [t] as its height and the
    height of [t] as its width. *)
Definition swapped_size (t : NodePtr) (ul lr : point) : Prop :=
  match t with
  | nullptr => True
  | node ul' lr' _ _ _ _ _ =>
      fst lr' - fst ul' = snd lr - snd ul /\
      snd lr' - snd ul' = fst lr - fst ul
  end.

Ltac rotate_children IH fuel :=
  repeat match goal with
    | W : wf (node ?oul ?olr ?a ?c1 ?c2 ?c3 ?c4)
      |- context [RotateSubtree fuel (node ?ul ?lr ?a ?c1 ?c2 ?c3 ?c4)] =>
        change (RotateSubtree fuel (node ul lr a c1 c2 c3 c4))
          with (RotateSubtree fuel (setRect ul lr (node oul olr a c1 c2 c3 c4)));
        rewrite (IH _ ul lr W);
        [ cbn [bind]
        | unfold rect_ok; cbn [fst snd]; lia
        | cbn [swapped_size fst snd]; lia
        | assumption ]
    end.

Lemma RotateSubtree_rotated (fuel : nat) :
  forall (t : NodePtr) (ul lr : point),
    wf t -> rect_ok ul lr -> swapped_size t ul lr -> (depth t < fuel)%nat ->
    RotateSubtree fuel (setRect ul lr t) = Ok (rotated ul lr t).
Proof.
  induction fuel as [|fuel IH]; intros t [x0 y0] [x1 y1] Hwf Hok Hsz Hd; [lia|].
  destruct t as [|[x0' y0'] [x1' y1'] a nw ne sw se]; [reflexivity|].
  destruct Hwf as (Hok' & Hs & Wnw & Wne & Wsw & Wse).
  unfold rect_ok in Hok, Hok'. cbn [fst snd swapped_size] in *.
  children_depth Hd fuel nw ne sw se.
  shape_cases Hs;
    try reflexivity; fuel_left fuel; expose_children;
    rewrite rotated_unfold;
    cbn [RotateSubtree setRect isLeaf isNull andb rectOf bind fst snd
           node_width node_height];
    unwrap;
    cbn [coordinateHelper isNull setRect fst snd bind]; unwrap;
    (destruct fuel as [|fuel]; [exfalso; lia|]);
    rotate_children IH (S fuel);
    reflexivity.
Qed.

Lemma isNull_rotated (ul lr : point) (t : NodePtr) :
  isNull (rotated ul lr t) = isNull t.
Proof.
  destruct t as [|? ? a nw ne sw se]; simpl; [reflexivity|].
  destruct (isNull nw && isNull ne && isNull sw && isNull se); reflexivity.
Qed.

Lemma rectOf_rotated (ul lr : point) (t : NodePtr) :
  isNull t = false -> has_rect (rotated ul lr t) ul lr.
Proof.
  destruct t as [|? ? a nw ne sw se]; simpl; [discriminate|]. intros _.
  unfold has_rect.
  destruct (isNull nw && isNull ne && isNull sw && isNull se); reflexivity.
Qed.

Lemma has_rect_rotated (ul lr ul' lr' : point) (t : NodePtr) :
  isNull t = false -> ul = ul' -> lr = lr' ->
  has_rect (rotated ul lr t) ul' lr'.
Proof. intros H <- <-. apply rectOf_rotated. exact H. Qed.

Lemma node_width_rotated (ul lr : point) (t : NodePtr) :
  isNull t = false -> node_width (rotated ul lr t) = fst lr - fst ul + 1.
Proof.
  intros H. apply (has_rect_facts _ _ _ (rectOf_rotated ul lr t H)).
Qed.

Lemma node_height_rotated (ul lr : point) (t : NodePtr) :
  isNull t = false -> node_height (rotated ul lr t) = snd lr - snd ul + 1.
Proof.
  intros H. apply (has_rect_facts _ _ _ (rectOf_rotated ul lr t H)).
Qed.

Lemma depth_rotated (t : NodePtr) :
  forall ul lr, depth (rotated ul lr t) = depth t.
Proof.
  induction t as [|ul' lr' a nw IHnw ne IHne sw IHsw se IHse]; intros ul lr;
    [reflexivity|].
  rewrite rotated_unfold.
  destruct (isNull nw && isNull ne && isNull sw && isNull se); [reflexivity|].
  cbv zeta. cbn [depth]. rewrite IHnw, IHne, IHsw, IHse. lia.
Qed.

Lemma swapped_size_has_rect (c : NodePtr) (ul lr ul' lr' : point) :
  has_rect c ul lr ->
  fst lr - fst ul = snd lr' - snd ul' -> snd lr - snd ul = fst lr' - fst ul' ->
  swapped_size c ul' lr'.
Proof.
  intros H Hx Hy. destruct (has_rect_inv _ _ _ H) as (a & nw & ne & sw & se & ->).
  simpl. auto.
Qed.

Ltac solve_swapped_size :=
  eapply swapped_size_has_rect; [eassumption | cbn [fst snd]; lia..].

Ltac rotated_has_rect :=
  apply has_rect_rotated; [assumption | apply pair_eq; lia..].

Ltac rotated_facts :=
  rewrite ?isNull_rotated;
  use_facts;
  rewrite ?node_width_rotated, ?node_height_rotated
    by (rewrite ?isNull_rotated; assumption);
  cbn [andb fst snd isNull rotated]; cbv zeta; cbn [fst snd].

Lemma wf_rotated (t : NodePtr) :
  forall ul lr,
    wf t -> rect_ok ul lr -> swapped_size t ul lr -> wf (rotated ul lr t).
Proof.
  induction t as [|[x0' y0'] [x1' y1'] a nw IHnw ne IHne sw IHsw se IHse];
    intros [x0 y0] [x1 y1] Hwf Hok Hsz; [exact I|].
  destruct Hwf as (Hok' & Hs & Wnw & Wne & Wsw & Wse).
  unfold rect_ok in Hok, Hok'. cbn [fst snd swapped_size] in *.
  rewrite rotated_unfold.
  shape_cases Hs;
    child_facts; rotated_facts; cbn [wf];
    (split; [solve_rect_ok|]);
    (split;
     [| repeat split;
        try match goal with
          | IH : forall ul lr, wf ?c -> _ |- wf (rotated _ _ ?c) =>
              apply IH; [assumption | solve_rect_ok | solve_swapped_size]
          end]).
  - constructor.
  - apply shape_quad with (a := sb) (b := y1 - y0 + 1 - sa);
      cbn [fst snd]; [lia | lia | rotated_has_rect..].
  - apply shape_south with (a := sb); cbn [fst snd]; [lia | rotated_has_rect..].
  - apply shape_north with (a := sb); cbn [fst snd]; [lia | rotated_has_rect..].
  - apply shape_west with (b := y1 - y0 + 1 - sa); cbn [fst snd];
      [lia | rotated_has_rect..].
  - apply shape_east with (b := y1 - y0 + 1 - sa); cbn [fst snd];
      [lia | rotated_has_rect..].
Qed.

(** Four rotations, the last one back into the subtree's own rectangle,
    restore a well-formed subtree. *)
Lemma rotated_four (t : NodePtr) :
  forall r1u r1l r2u r2l r3u r3l oul olr oul' olr',
    wf t -> has_rect t oul olr ->
    fst oul' = fst oul -> snd oul' = snd oul ->
    fst olr' = fst olr -> snd olr' = snd olr ->
    rect_ok r1u r1l -> swapped_size t r1u r1l ->
    rect_ok r2u r2l -> same_size t r2u r2l ->
    rect_ok r3u r3l -> swapped_size t r3u r3l ->
    rotated oul' olr' (rotated r3u r3l (rotated r2u r2l (rotated r1u r1l t))) = t.
Proof.
  induction t as [|[x0' y0'] [x1' y1'] a nw IHnw ne IHne sw IHsw se IHse];
    intros [p0 q0] [p1 q1] [s0 t0] [s1 t1] [u0 v0] [u1 v1] oul olr
           [X0 Y0] [X1 Y1] Hwf Hr E1 E2 E3 E4 Hok1 Hsz1 Hok2 Hsz2 Hok3 Hsz3;
    [reflexivity|].
  unfold has_rect in Hr. simpl in Hr. inversion Hr; subst oul olr; clear Hr.
  cbn [fst snd] in *. subst X0 Y0 X1 Y1.
  destruct Hwf as (Hok' & Hs & Wnw & Wne & Wsw & Wse).
  unfold rect_ok in Hok1, Hok2, Hok3, Hok'.
  cbn [fst snd same_size swapped_size] in *.
  rewrite rotated_unfold.
  shape_cases Hs;
    child_facts; rotated_facts;
    try reflexivity;
    rotated_facts; rotated_facts; rotated_facts;
    f_equal;
    match goal with
    | IH : forall r1u r1l r2u r2l r3u r3l oul olr oul' olr', wf ?c -> _
      |- rotated _ _ (rotated _ _ (rotated _ _ (rotated _ _ ?c))) = ?c =>
        eapply IH;
        [ assumption | eassumption | cbn [fst snd]; lia ..
        | solve_rect_ok | solve_swapped_size
        | solve_rect_ok | solve_same_size
        | solve_rect_ok | solve_swapped_size ]
    end.
Qed.

(** ** Pruning, as the specification words it *)

Section PrunerFacts.
Context {metric : PixelMetric}.

(** The average colours of the leaves of a subtree. *)
Fixpoint leaf_colors (t : NodePtr) : list RGBAPixel :=
  match t with
  | nullptr => []
  | node _ _ a nw ne sw se =>
      if isNull nw && isNull ne && isNull sw && isNull se then [a]
      else leaf_colors nw ++ leaf_colors ne ++ leaf_colors sw ++ leaf_colors se
  end.

(** "All of its leaves are within [tolerance] of the subtree root's
    average." *)
Definition qualifies (t : NodePtr) (tolerance : double) : bool :=
  forallb (fun c => double_le (distanceTo c (avg_of t)) tolerance)
          (leaf_colors t).

(** "If so, delete all descendants (subtree becomes a leaf, average
    unchanged); otherwise recurse into each existing child independently
    and repeat the test there"; a leaf is left untouched. *)
Fixpoint pruned (t : NodePtr) (tolerance : double) : NodePtr :=
  match t with
  | nullptr => nullptr
  | node ul lr a nw ne sw se =>
      if isLeaf t then t
      else if qualifies t tolerance then
        node ul lr a nullptr nullptr nullptr nullptr
      else
        node ul lr a (pruned nw tolerance) (pruned ne tolerance)
                     (pruned sw tolerance) (pruned se tolerance)
  end.

Lemma shouldPrune_forallb (t : NodePtr) (a : RGBAPixel) (tolerance : double) :
  shouldPrune t a tolerance
  = forallb (fun c => double_le (distanceTo c a) tolerance) (leaf_colors t).
Proof.
  induction t as [|ul lr c nw IHnw ne IHne sw IHsw se IHse]; [reflexivity|].
  simpl.
  destruct (isNull nw && isNull ne && isNull sw && isNull se).
  - simpl. rewrite andb_true_r. reflexivity.
  - rewrite !forallb_app, IHnw, IHne, IHsw, IHse.
    rewrite !andb_assoc. reflexivity.
Qed.

Lemma deleteChild_null (c : NodePtr) : deleteChild c = nullptr.
Proof. destruct c; reflexivity. Qed.

Lemma DeleteChildren_internal (ul lr : point) (a : RGBAPixel) (nw ne sw se : NodePtr) :
  isLeaf (node ul lr a nw ne sw se) = false ->
  DeleteChildren (node ul lr a nw ne sw se)
  = node ul lr a nullptr nullptr nullptr nullptr.
Proof.
  simpl. intros ->. cbv zeta. rewrite !deleteChild_null. reflexivity.
Qed.

Lemma depth_internal (ul lr : point) (a : RGBAPixel) (nw ne sw se : NodePtr) :
  isLeaf (node ul lr a nw ne sw se) = false ->
  (2 <= depth (node ul lr a nw ne sw se))%nat.
Proof.
  cbn [isLeaf]. intros H.
  destruct nw; [|cbn [depth]; lia]. destruct ne; [|cbn [depth]; lia].
  destruct sw; [|cbn [depth]; lia]. destruct se; [discriminate|cbn [depth]; lia].
Qed.

Lemma PruneNode_pruned (fuel : nat) :
  forall (t : NodePtr) (tolerance : double),
    (depth t < fuel)%nat ->
    PruneNode fuel t tolerance = Ok (pruned t tolerance).
Proof.
  induction fuel as [|fuel IH]; intros t tolerance Hd; [lia|].
  destruct t as [|ul lr a nw ne sw se]; [reflexivity|].
  cbn [PruneNode pruned].
  destruct (isLeaf (node ul lr a nw ne sw se)) eqn:Eleaf; [reflexivity|].
  pose proof (depth_internal _ _ _ _ _ _ _ Eleaf) as Hd2.
  unfold qualifies. cbn [avg_of]. rewrite <- shouldPrune_forallb.
  destruct (shouldPrune (node ul lr a nw ne sw se) a tolerance).
  - rewrite (DeleteChildren_internal _ _ _ _ _ _ _ Eleaf).
    destruct fuel as [|fuel]; [lia|]. reflexivity.
  - simpl in Hd.
    rewrite !IH by lia. reflexivity.
Qed.

Lemma Prune_pruned (t : QTree) (tolerance : double) :
  Prune t tolerance
  = Ok (mkQTree (pruned (root t) tolerance) (width t) (height t)).
Proof.
  unfold Prune. rewrite PruneNode_pruned by lia. reflexivity.
Qed.

Lemma rectOf_pruned (t : NodePtr) (tolerance : double) :
  rectOf (pruned t tolerance) = rectOf t.
Proof.
  destruct t as [|ul lr a nw ne sw se]; [reflexivity|].
  cbn [pruned]. destruct (isLeaf _); [reflexivity|].
  destruct (qualifies _ _); reflexivity.
Qed.

Lemma wf_pruned (t : NodePtr) (tolerance : double) :
  wf t -> wf (pruned t tolerance).
Proof.
  induction t as [|ul lr a nw IHnw ne IHne sw IHsw se IHse]; [trivial|].
  intros Hwf. cbn [pruned].
  destruct (isLeaf _); [exact Hwf|].
  destruct Hwf as (Hok & Hs & Wnw & Wne & Wsw & Wse).
  destruct (qualifies _ _).
  - simpl. repeat split; try apply Hok. constructor.
  - cbn [wf]. split; [exact Hok|]. split; [|auto].
    inversion Hs; subst; cbn [pruned];
      [ constructor
      | eapply shape_quad | eapply shape_west | eapply shape_east
      | eapply shape_north | eapply shape_south ];
      try eassumption; unfold has_rect; rewrite rectOf_pruned; assumption.
Qed.

(** The number of nodes of a subtree. *)
Fixpoint node_count (t : NodePtr) : nat :=
  match t with
  | nullptr => O
  | node _ _ _ nw ne sw se =>
      S (node_count nw + node_count ne + node_count sw + node_count se)
  end.

Lemma node_count_pruned_pos (t : NodePtr) (tolerance : double) :
  isNull t = false -> (1 <= node_count (pruned t tolerance))%nat.
Proof.
  destruct t as [|ul lr a nw ne sw se]; [discriminate|]. intros _.
  cbn [pruned]. destruct (isLeaf _); [simpl; lia|].
  destruct (qualifies _ _); simpl; lia.
Qed.

Lemma qualifies_mono (t : NodePtr) (t1 t2 : double) :
  (forall x y z : double,
      double_le x y = true -> double_le y z = true -> double_le x z = true) ->
  double_le t1 t2 = true ->
  qualifies t t1 = true -> qualifies t t2 = true.
Proof.
  intros Htrans Hle. unfold qualifies. rewrite !forallb_forall.
  intros H c Hc. eapply Htrans; [apply H; exact Hc | exact Hle].
Qed.

Lemma node_count_pruned_mono (t : NodePtr) (t1 t2 : double) :
  (forall x y z : double,
      double_le x y = true -> double_le y z = true -> double_le x z = true) ->
  double_le t1 t2 = true ->
  (node_count (pruned t t2) <= node_count (pruned t t1))%nat.
Proof.
  intros Htrans Hle.
  induction t as [|ul lr a nw IHnw ne IHne sw IHsw se IHse]; [simpl; lia|].
  cbn [pruned]. destruct (isLeaf _); [lia|].
  destruct (qualifies _ t1) eqn:Q1.
  - rewrite (qualifies_mono _ _ _ Htrans Hle Q1). lia.
  - destruct (qualifies _ t2); simpl; lia.
Qed.

End PrunerFacts.

(** ** Leaf rectangles tile the rectangle of a well-formed node *)

Abbreviation rect := (point * point)%type (only parsing).

(** The pixel position [p] lies in the rectangle [rc] (corners inclusive). *)
Definition inside (p : point) (rc : rect) : bool :=
  (fst (fst rc) <=? fst p) && (fst p <=? fst (snd rc)) &&
  (snd (fst rc) <=? snd p) && (snd p <=? snd (snd rc)).

Fixpoint leaves (t : NodePtr) : list rect :=
  match t with
  | nullptr => []
  | node ul lr _ nw ne sw se =>
      if isNull nw && isNull ne && isNull sw && isNull se then [(ul, lr)]
      else leaves nw ++ leaves ne ++ leaves sw ++ leaves se
  end.

(** How many rectangles of [l] contain [p]. *)
Definition cover (p : point) (l : list rect) : nat :=
  List.length (filter (inside p) l).

Definition disjoint (r1 r2 : rect) : Prop :=
  forall p, inside p r1 = true -> inside p r2 = true -> False.

(** [l] partitions [full]: no rectangle of [l] is empty, no two overlap,
    and a position lies in [full] exactly when some rectangle of [l]
    contains it. *)
Definition partitions (l : list rect) (full : rect) : Prop :=
  Forall (fun rc => fst (fst rc) <= fst (snd rc) /\ snd (fst rc) <= snd (snd rc)) l /\
  ForallOrdPairs disjoint l /\
  (forall p, inside p full = true <-> exists rc, In rc l /\ inside p rc = true).

Lemma inside_true (x y x0 y0 x1 y1 : Z) :
  inside (x, y) ((x0, y0), (x1, y1)) = true <->
  x0 <= x <= x1 /\ y0 <= y <= y1.
Proof.
  unfold inside. cbn [fst snd].
  rewrite !andb_true_iff, !Z.leb_le. lia.
Qed.

Lemma inside_false (x y x0 y0 x1 y1 : Z) :
  inside (x, y) ((x0, y0), (x1, y1)) = false <->
  ~ (x0 <= x <= x1 /\ y0 <= y <= y1).
Proof.
  rewrite <- inside_true. destruct (inside _ _); split; congruence.
Qed.

Lemma cover_app (p : point) (l1 l2 : list rect) :
  cover p (l1 ++ l2) = (cover p l1 + cover p l2)%nat.
Proof. unfold cover. rewrite filter_app, length_app. reflexivity. Qed.

Definition indicator (c : bool) : nat := if c then 1%nat else 0%nat.

Lemma inside_in (x y x0 y0 x1 y1 : Z) :
  x0 <= x <= x1 -> y0 <= y <= y1 ->
  inside (x, y) ((x0, y0), (x1, y1)) = true.
Proof. intros. apply inside_true. lia. Qed.

Lemma inside_out_x (x y x0 y0 x1 y1 : Z) :
  x < x0 \/ x1 < x -> inside (x, y) ((x0, y0), (x1, y1)) = false.
Proof. intros. apply inside_false. lia. Qed.

Lemma inside_out_y (x y x0 y0 x1 y1 : Z) :
  y < y0 \/ y1 < y -> inside (x, y) ((x0, y0), (x1, y1)) = false.
Proof. intros. apply inside_false. lia. Qed.

(** Once the position is placed against the edges and dividers of a node,
    every membership test is decided. *)
Ltac eval_inside :=
  repeat match goal with
         | |- context [inside (?x, ?y) ((?x0, ?y0), (?x1, ?y1))] =>
             first [ rewrite (inside_in x y x0 y0 x1 y1) by lia
                   | rewrite (inside_out_x x y x0 y0 x1 y1) by lia
                   | rewrite (inside_out_y x y x0 y0 x1 y1) by lia ]
         end.

Ltac place v lo hi :=
  destruct (Z_lt_le_dec v lo); [|destruct (Z_lt_le_dec hi v)].

Lemma wf_cover (t : NodePtr) :
  forall ul lr p,
    wf t -> has_rect t ul lr ->
    cover p (leaves t) = indicator (inside p (ul, lr)).
Proof.
  induction t as [|[x0' y0'] [x1' y1'] a nw IHnw ne IHne sw IHsw se IHse];
    intros ul lr [x y] Hwf Hr; [discriminate|].
  unfold has_rect in Hr. simpl in Hr. inversion Hr; subst ul lr; clear Hr.
  destruct Hwf as (Hok & Hs & Wnw & Wne & Wsw & Wse).
  unfold rect_ok in Hok. cbn [fst snd] in *. cbn [leaves].
  shape_cases Hs;
    child_facts; use_facts; cbn [andb isNull leaves];
    rewrite ?cover_app;
    repeat match goal with
      | H : has_rect ?c _ _, IH : forall ul lr p, wf ?c -> _ |- _ =>
          rewrite (IH _ _ (x, y) ltac:(assumption) H); clear IH
      end;
    cbn [cover filter List.length app];
    try (destruct (inside (x, y) (x0', y0', (x1', y1'))); reflexivity);
    place x x0' x1'; place y y0' y1';
    try (destruct (Z_lt_le_dec x (x0' + sa)));
    try (destruct (Z_lt_le_dec y (y0' + sb)));
    try (exfalso; lia);
    eval_inside; reflexivity.
Qed.

Lemma cover_cons (p : point) (rc : rect) (l : list rect) :
  cover p (rc :: l) = (indicator (inside p rc) + cover p l)%nat.
Proof. unfold cover. simpl. destruct (inside p rc); reflexivity. Qed.

Lemma cover_pos (p : point) (l : list rect) (rc : rect) :
  In rc l -> inside p rc = true -> (1 <= cover p l)%nat.
Proof.
  induction l as [|rc' l IH]; intros Hin Hp; [contradiction|].
  rewrite cover_cons. destruct Hin as [-> | Hin].
  - rewrite Hp. simpl. lia.
  - specialize (IH Hin Hp). lia.
Qed.

Lemma cover_pos_inv (p : point) (l : list rect) :
  (1 <= cover p l)%nat -> exists rc, In rc l /\ inside p rc = true.
Proof.
  unfold cover. intros H.
  destruct (filter (inside p) l) as [|rc rest] eqn:E; [simpl in H; lia|].
  assert (Hin : In rc (filter (inside p) l)) by (rewrite E; left; reflexivity).
  apply filter_In in Hin. exists rc. exact Hin.
Qed.

Lemma cover_le1_disjoint (l : list rect) :
  (forall p, (cover p l <= 1)%nat) -> ForallOrdPairs disjoint l.
Proof.
  induction l as [|rc l IH]; intros H; constructor.
  - rewrite Forall_forall. intros rc' Hin p Hp Hp'.
    specialize (H p). rewrite cover_cons, Hp in H.
    pose proof (cover_pos p l rc' Hin Hp'). simpl in H. lia.
  - apply IH. intros p. specialize (H p). rewrite cover_cons in H. lia.
Qed.

Lemma cover_partitions (l : list rect) (full : rect) :
  Forall (fun rc => fst (fst rc) <= fst (snd rc) /\ snd (fst rc) <= snd (snd rc)) l ->
  (forall p, cover p l = indicator (inside p full)) ->
  partitions l full.
Proof.
  intros Hne Hc. split; [exact Hne|]. split.
  - apply cover_le1_disjoint. intros p. rewrite Hc.
    destruct (inside p full); simpl; lia.
  - intros p. split.
    + intros Hp. apply cover_pos_inv. rewrite Hc, Hp. simpl. lia.
    + intros (rc & Hin & Hp). pose proof (cover_pos p l rc Hin Hp) as H.
      rewrite Hc in H. destruct (inside p full); [reflexivity|simpl in H; lia].
Qed.

Lemma wf_leaves_nonempty (t : NodePtr) :
  wf t ->
  Forall (fun rc => fst (fst rc) <= fst (snd rc) /\ snd (fst rc) <= snd (snd rc))
         (leaves t).
Proof.
  induction t as [|ul lr a nw IHnw ne IHne sw IHsw se IHse]; intros Hwf;
    [constructor|].
  destruct Hwf as (Hok & _ & Wnw & Wne & Wsw & Wse). cbn [leaves].
  destruct (isNull nw && isNull ne && isNull sw && isNull se).
  - constructor; [|constructor]. unfold rect_ok in Hok. cbn [fst snd]. lia.
  - rewrite !Forall_app. auto.
Qed.

Lemma wf_partitions (t : NodePtr) (ul lr : point) :
  wf t -> has_rect t ul lr -> partitions (leaves t) (ul, lr).
Proof.
  intros Hwf Hr. apply cover_partitions.
  - apply wf_leaves_nonempty. exact Hwf.
  - intros p. apply wf_cover; assumption.
Qed.

(** ** The invariant of a tree between operations *)

(** The root is well formed and covers [0..width-1] x [0..height-1]. *)
Definition tree_ok (t : QTree) : Prop :=
  wf (root t) /\ has_rect (root t) (0, 0) (width t - 1, height t - 1).

Lemma tree_ok_bounds (t : QTree) :
  tree_ok t -> 1 <= width t < 2147483648 /\ 1 <= height t < 2147483648.
Proof.
  intros [Hwf Hr].
  destruct (has_rect_inv _ _ _ Hr) as (a & nw & ne & sw & se & E).
  rewrite E in Hwf. destruct Hwf as (Hok & _). unfold rect_ok in Hok.
  cbn [fst snd] in Hok. lia.
Qed.

Lemma QTree_new_ok (img : PNG) :
  valid_image img ->
  exists t, QTree_new img = Ok t /\ tree_ok t /\
            built img (0, 0) (width t - 1, height t - 1) (root t).
Proof.
  intros Himg. destruct (QTree_new_built img Himg) as (t & Et & Hw & Hh & Hb).
  exists t. split; [exact Et|]. rewrite Hw, Hh.
  split; [|exact Hb]. split; [apply Hb|]. rewrite Hw, Hh. apply Hb.
Qed.

Lemma setRect_same (t : NodePtr) (ul lr : point) :
  has_rect t ul lr -> setRect ul lr t = t.
Proof.
  intros H. destruct (has_rect_inv _ _ _ H) as (a & nw & ne & sw & se & ->).
  reflexivity.
Qed.

Lemma same_size_refl (t : NodePtr) (ul lr : point) :
  has_rect t ul lr -> same_size t ul lr.
Proof. intros H. eapply same_size_has_rect; [exact H | lia..]. Qed.

Lemma wf_rect_ok (t : NodePtr) (ul lr : point) :
  wf t -> has_rect t ul lr -> rect_ok ul lr.
Proof.
  intros Hwf H. destruct (has_rect_inv _ _ _ H) as (a & nw & ne & sw & se & ->).
  apply Hwf.
Qed.

Lemma FlipHorizontal_flipped (t : QTree) :
  tree_ok t ->
  FlipHorizontal t
  = Ok (mkQTree (flipped (0, 0) (width t - 1, height t - 1) (root t))
                (width t) (height t)).
Proof.
  intros [Hwf Hr]. unfold FlipHorizontal.
  rewrite <- (setRect_same _ _ _ Hr) at 2.
  rewrite FlipNode_flipped;
    [reflexivity | assumption | eapply wf_rect_ok; eassumption
    | apply same_size_refl; assumption | lia].
Qed.

Lemma FlipHorizontal_ok (t : QTree) :
  tree_ok t ->
  tree_ok (mkQTree (flipped (0, 0) (width t - 1, height t - 1) (root t))
                   (width t) (height t)).
Proof.
  intros [Hwf Hr]. pose proof (has_rect_facts _ _ _ Hr) as (N & _).
  split; cbn [root width height].
  - apply wf_flipped; [assumption | eapply wf_rect_ok; eassumption
                      | apply same_size_refl; assumption].
  - apply rectOf_flipped. exact N.
Qed.

Lemma RotateCCW_rotated (t : QTree) :
  tree_ok t ->
  RotateCCW t
  = Ok (mkQTree (rotated (0, 0) (height t - 1, width t - 1) (root t))
                (height t) (width t)).
Proof.
  intros [Hwf Hr]. unfold RotateCCW.
  pose proof (wf_rect_ok _ _ _ Hwf Hr) as Hok.
  destruct (has_rect_inv _ _ _ Hr) as (a & nw & ne & sw & se & E).
  rewrite E in *. cbn [fst snd].
  change (node (0, 0) (height t - 1, width t - 1) a nw ne sw se)
    with (setRect (0, 0) (height t - 1, width t - 1)
            (node (0, 0) (width t - 1, height t - 1) a nw ne sw se)) at 2.
  rewrite RotateSubtree_rotated;
    [reflexivity | assumption
    | unfold rect_ok in *; cbn [fst snd] in *; lia
    | cbn [swapped_size fst snd]; lia
    | simpl; lia].
Qed.

Lemma RotateCCW_ok (t : QTree) :
  tree_ok t ->
  tree_ok (mkQTree (rotated (0, 0) (height t - 1, width t - 1) (root t))
                   (height t) (width t)).
Proof.
  intros [Hwf Hr]. pose proof (has_rect_facts _ _ _ Hr) as (N & _).
  pose proof (wf_rect_ok _ _ _ Hwf Hr) as Hok.
  split; cbn [root width height].
  - apply wf_rotated; [assumption
                      | unfold rect_ok in *; cbn [fst snd] in *; lia
                      | eapply swapped_size_has_rect; [eassumption|cbn [fst snd]; lia..]].
  - apply rectOf_rotated. exact N.
Qed.

(** ** The renderer never leaves its canvas *)

(** A canvas of [w] by [h] pixels, all of them stored. *)
Definition canvas (w h : Z) (img : PNG) : Prop :=
  width_ img = w /\ height_ img = h /\
  List.length (imageData_ img) = Z.to_nat (w * h).

Lemma list_set_length {A : Type} (l : list A) (n : nat) (a : A) :
  List.length (list_set l n a) = List.length l.
Proof.
  revert n. induction l as [|h t IH]; intros [|n]; simpl; auto.
Qed.

Lemma putPixel_canvas (w h : Z) (img : PNG) (x y : Z) (c : RGBAPixel) :
  canvas w h img -> 0 <= x < w -> 0 <= y < h ->
  exists img', putPixel img x y c = Ok img' /\ canvas w h img'.
Proof.
  intros (Hw & Hh & Hlen) Hx Hy. unfold putPixel, in_raster.
  rewrite Hw, Hh.
  replace (0 <=? x) with true by (symmetry; apply Z.leb_le; lia).
  replace (x <? w) with true by (symmetry; apply Z.ltb_lt; lia).
  replace (0 <=? y) with true by (symmetry; apply Z.leb_le; lia).
  replace (y <? h) with true by (symmetry; apply Z.ltb_lt; lia).
  cbn [andb].
  assert (Hidx : (pixel_index img x y < List.length (imageData_ img))%nat).
  { rewrite Hlen. unfold pixel_index. rewrite Hw. nia. }
  apply Nat.ltb_lt in Hidx. rewrite Hidx.
  eexists. split; [reflexivity|].
  unfold canvas. cbn [width_ height_ imageData_].
  rewrite list_set_length. auto.
Qed.

Lemma loop_range_bounds (lo hi i : Z) :
  In i (loop_range lo hi) -> lo <= i < hi.
Proof.
  unfold loop_range. rewrite in_map_iff. intros (k & <- & Hk).
  apply in_seq in Hk. lia.
Qed.

Lemma for_loop_invariant {S : Type} (P : S -> Prop) (lo hi : Z)
      (body : Z -> S -> result S) (s : S) :
  P s ->
  (forall i s0, lo <= i < hi -> P s0 -> exists s1, body i s0 = Ok s1 /\ P s1) ->
  exists s', for_loop lo hi body s = Ok s' /\ P s'.
Proof.
  intros Hs Hbody. unfold for_loop.
  pose proof (loop_range_bounds lo hi) as Hin.
  revert s Hs. induction (loop_range lo hi) as [|i l IH]; intros s Hs.
  - exists s. split; [reflexivity | exact Hs].
  - cbn [fold_left bind].
    destruct (Hbody i s (Hin i (or_introl eq_refl)) Hs) as (s1 & E1 & P1).
    rewrite E1. apply IH; [|exact P1].
    intros j Hj. apply Hin. right. exact Hj.
Qed.

(** The rectangle of [t] lies within [w] columns and [h] rows. *)
Definition fits (w h : Z) (t : NodePtr) : Prop :=
  match t with
  | nullptr => True
  | node _ lr _ _ _ _ _ => fst lr < w /\ snd lr < h
  end.

Lemma fits_has_rect (w h : Z) (c : NodePtr) (ul lr : point) :
  has_rect c ul lr -> fst lr < w -> snd lr < h -> fits w h c.
Proof.
  intros H Hx Hy. destruct (has_rect_inv _ _ _ H) as (a & nw & ne & sw & se & ->).
  simpl. auto.
Qed.

Lemma shape_fits (w h : Z) (ul lr : point) (nw ne sw se : NodePtr) :
  shape ul lr nw ne sw se -> fst lr < w -> snd lr < h ->
  fits w h nw /\ fits w h ne /\ fits w h sw /\ fits w h se.
Proof.
  intros Hs Hx Hy.
  inversion Hs; subst; repeat split; try exact I;
    (eapply fits_has_rect; [eassumption | cbn [fst snd]; lia..]).
Qed.

Lemma RenderPixel_canvas (w h scale : Z) :
  1 <= scale -> w * scale < 4294967296 -> h * scale < 4294967296 ->
  forall (t : NodePtr) (img : PNG),
    wf t -> fits w h t -> canvas (w * scale) (h * scale) img ->
    exists img', RenderPixel img t scale = Ok img' /\
                 canvas (w * scale) (h * scale) img'.
Proof.
  intros Hscale Hws Hhs.
  induction t as [|[x0 y0] [x1 y1] a nw IHnw ne IHne sw IHsw se IHse];
    intros img Hwf Hfit Hc.
  - exists img. split; [reflexivity | exact Hc].
  - destruct Hwf as (Hok & Hs & Wnw & Wne & Wsw & Wse).
    destruct Hfit as [Hx Hy].
    destruct (shape_fits w h _ _ _ _ _ _ Hs Hx Hy) as (Fnw & Fne & Fsw & Fse).
    unfold rect_ok in Hok. cbn [fst snd] in *. cbn [RenderPixel fst snd].
    unwrap.
    assert (Hpaint : exists img1,
      (if scale =? 1
       then for_loop x0 (x0 + (x1 - x0 + 1))
              (fun i im => for_loop y0 (y0 + (y1 - y0 + 1))
                 (fun j im' => putPixel im' (u32 i) (u32 j) a) im) img
       else for_loop 0 scale
              (fun i im => for_loop 0 scale
                 (fun j im' => putPixel im' (u32 (x0 * scale + i))
                                            (u32 (y0 * scale + j)) a) im) img)
      = Ok img1 /\ canvas (w * scale) (h * scale) img1).
    { destruct (scale =? 1) eqn:E.
      - apply Z.eqb_eq in E. subst scale.
        apply for_loop_invariant; [exact Hc|]. intros i im Hi Him.
        apply for_loop_invariant; [exact Him|]. intros j im' Hj Him'.
        unwrap. apply putPixel_canvas; [exact Him' | lia | lia].
      - apply for_loop_invariant; [exact Hc|]. intros i im Hi Him.
        apply for_loop_invariant; [exact Him|]. intros j im' Hj Him'.
        assert (x0 * scale <= (w - 1) * scale)
          by (apply Z.mul_le_mono_nonneg_r; lia).
        assert (y0 * scale <= (h - 1) * scale)
          by (apply Z.mul_le_mono_nonneg_r; lia).
        assert (0 <= x0 * scale) by (apply Z.mul_nonneg_nonneg; lia).
        assert (0 <= y0 * scale) by (apply Z.mul_nonneg_nonneg; lia).
        unwrap. apply putPixel_canvas; [exact Him' | lia | lia]. }
    destruct Hpaint as (img1 & E1 & C1). rewrite E1. cbn [bind].
    destruct (IHnw img1 Wnw Fnw C1) as (img2 & E2 & C2). rewrite E2. cbn [bind].
    destruct (IHne img2 Wne Fne C2) as (img3 & E3 & C3). rewrite E3. cbn [bind].
    destruct (IHsw img3 Wsw Fsw C3) as (img4 & E4 & C4). rewrite E4. cbn [bind].
    apply IHse; assumption.
Qed.

Lemma Render_total (t : QTree) (scale : Z) :
  tree_ok t -> 1 <= scale ->
  width t * scale < 4294967296 -> height t * scale < 4294967296 ->
  exists img, Render t scale = Ok img /\
              canvas (width t * scale) (height t * scale) img.
Proof.
  intros Hok Hscale Hws Hhs. pose proof (tree_ok_bounds t Hok) as [Hw Hh].
  destruct Hok as [Hwf Hr]. unfold Render.
  assert (0 <= width t * scale) by (apply Z.mul_nonneg_nonneg; lia).
  assert (0 <= height t * scale) by (apply Z.mul_nonneg_nonneg; lia).
  unwrap.
  apply RenderPixel_canvas; try assumption.
  - eapply fits_has_rect; [eassumption | cbn [fst snd]; lia..].
  - unfold canvas, PNG_new. cbn [width_ height_ imageData_].
    rewrite repeat_length. auto.
Qed.

(** ** Average colours under flips and rotations *)

(** The tree of average colours of a subtree: its nodes without their
    rectangles. *)
Inductive colors : Type :=
| no_colors
| colors_node (a : RGBAPixel) (nw ne sw se : colors).

Fixpoint colors_of (t : NodePtr) : colors :=
  match t with
  | nullptr => no_colors
  | node _ _ a nw ne sw se =>
      colors_node a (colors_of nw) (colors_of ne) (colors_of sw) (colors_of se)
  end.

(** West and East children exchanged at every node. *)
Fixpoint mirror (c : colors) : colors :=
  match c with
  | no_colors => no_colors
  | colors_node a nw ne sw se =>
      colors_node a (mirror ne) (mirror nw) (mirror se) (mirror sw)
  end.

(** Children moved one step counter-clockwise at every node:
    NE to NW, NW to SW, SW to SE, SE to NE. *)
Fixpoint cycle (c : colors) : colors :=
  match c with
  | no_colors => no_colors
  | colors_node a nw ne sw se =>
      colors_node a (cycle ne) (cycle se) (cycle nw) (cycle sw)
  end.

(** The average colours of all nodes of a subtree. *)
Fixpoint avgs (t : NodePtr) : list RGBAPixel :=
  match t with
  | nullptr => []
  | node _ _ a nw ne sw se => a :: avgs nw ++ avgs ne ++ avgs sw ++ avgs se
  end.

Lemma RGBAPixel_eq_dec (p q : RGBAPixel) : {p = q} + {p <> q}.
Proof. decide equality; apply Z.eq_dec. Defined.

Lemma isNull_true (c : NodePtr) : isNull c = true -> c = nullptr.
Proof. destruct c; [reflexivity | discriminate]. Qed.

Lemma all_null (nw ne sw se : NodePtr) :
  isNull nw && isNull ne && isNull sw && isNull se = true ->
  nw = nullptr /\ ne = nullptr /\ sw = nullptr /\ se = nullptr.
Proof.
  rewrite !andb_true_iff. intros [[[A B] C] D].
  repeat split; apply isNull_true; assumption.
Qed.

Lemma colors_flipped (t : NodePtr) :
  forall ul lr, colors_of (flipped ul lr t) = mirror (colors_of t).
Proof.
  induction t as [|ul' lr' a nw IHnw ne IHne sw IHsw se IHse]; intros ul lr;
    [reflexivity|].
  rewrite flipped_unfold.
  destruct (isNull nw && isNull ne && isNull sw && isNull se) eqn:E.
  - apply all_null in E. destruct E as (-> & -> & -> & ->). reflexivity.
  - cbv zeta. cbn [colors_of mirror]. rewrite IHnw, IHne, IHsw, IHse. reflexivity.
Qed.

Lemma colors_rotated (t : NodePtr) :
  forall ul lr, colors_of (rotated ul lr t) = cycle (colors_of t).
Proof.
  induction t as [|ul' lr' a nw IHnw ne IHne sw IHsw se IHse]; intros ul lr;
    [reflexivity|].
  rewrite rotated_unfold.
  destruct (isNull nw && isNull ne && isNull sw && isNull se) eqn:E.
  - apply all_null in E. destruct E as (-> & -> & -> & ->). reflexivity.
  - cbv zeta. cbn [colors_of cycle]. rewrite IHnw, IHne, IHsw, IHse. reflexivity.
Qed.

Lemma count_avgs_flipped (t : NodePtr) (c : RGBAPixel) :
  forall ul lr,
    count_occ RGBAPixel_eq_dec (avgs (flipped ul lr t)) c
    = count_occ RGBAPixel_eq_dec (avgs t) c.
Proof.
  induction t as [|ul' lr' a nw IHnw ne IHne sw IHsw se IHse]; intros ul lr;
    [reflexivity|].
  rewrite flipped_unfold.
  destruct (isNull nw && isNull ne && isNull sw && isNull se) eqn:E;
    [reflexivity|].
  cbv zeta. cbn [avgs count_occ].
  rewrite !count_occ_app, IHnw, IHne, IHsw, IHse.
  destruct (RGBAPixel_eq_dec a c); lia.
Qed.

Lemma count_avgs_rotated (t : NodePtr) (c : RGBAPixel) :
  forall ul lr,
    count_occ RGBAPixel_eq_dec (avgs (rotated ul lr t)) c
    = count_occ RGBAPixel_eq_dec (avgs t) c.
Proof.
  induction t as [|ul' lr' a nw IHnw ne IHne sw IHsw se IHse]; intros ul lr;
    [reflexivity|].
  rewrite rotated_unfold.
  destruct (isNull nw && isNull ne && isNull sw && isNull se) eqn:E;
    [reflexivity|].
  cbv zeta. cbn [avgs count_occ].
  rewrite !count_occ_app, IHnw, IHne, IHsw, IHse.
  destruct (RGBAPixel_eq_dec a c); lia.
Qed.

Lemma avgs_flipped (t : NodePtr) (ul lr : point) :
  Permutation (avgs t) (avgs (flipped ul lr t)).
Proof.
  apply (Permutation_count_occ RGBAPixel_eq_dec). intros c.
  symmetry. apply count_avgs_flipped.
Qed.

Lemma avgs_rotated (t : NodePtr) (ul lr : point) :
  Permutation (avgs t) (avgs (rotated ul lr t)).
Proof.
  apply (Permutation_count_occ RGBAPixel_eq_dec). intros c.
  symmetry. apply count_avgs_rotated.
Qed.

(** ** A leaf of the builder is one pixel of the raster *)

Lemma split_rule_leaf (img : PNG) (ul lr : point) (a : RGBAPixel) :
  rect_ok ul lr ->
  split_rule img (node ul lr a nullptr nullptr nullptr nullptr) ->
  ul = lr /\ getPixel img (fst ul) (snd ul) = Ok a.
Proof.
  intros Hok Hs. destruct ul as [x0 y0], lr as [x1 y1].
  unfold rect_ok in Hok. cbn [split_rule fst snd] in *.
  destruct Hs as (H11 & H1h & Hw1 & Hwh & _).
  assert (Hx : x1 - x0 + 1 = 1).
  { destruct (Z.eq_dec (x1 - x0 + 1) 1) as [|Hn]; [assumption|exfalso].
    destruct (Z.eq_dec (y1 - y0 + 1) 1) as [Ey|Ey].
    - destruct Hw1 as (_ & _ & Hnw & _); [lia|]. discriminate Hnw.
    - destruct Hwh as (Hnw & _); [lia|]. discriminate Hnw. }
  assert (Hy : y1 - y0 + 1 = 1).
  { destruct (Z.eq_dec (y1 - y0 + 1) 1) as [|Hn]; [assumption|exfalso].
    destruct H1h as (_ & _ & Hnw & _); [lia|]. discriminate Hnw. }
  destruct H11 as (_ & Hpix); [lia|].
  split; [f_equal; lia | exact Hpix].
Qed.

(** ** Averages stay within the colours of the raster *)

(** Every channel of [p] lies between that channel of [lo] and of [hi]. *)
Definition in_box (lo hi p : RGBAPixel) : Prop :=
  r lo <= r p <= r hi /\ g lo <= g p <= g hi /\ b lo <= b p <= b hi.

Lemma weighted_sums_between (channel : RGBAPixel -> Z) (lo hi : Z) (cs : list NodePtr) :
  Forall (fun c => 0 < pixel_area c /\ 0 <= channel (avg_of c) /\
                   lo <= channel (avg_of c) <= hi) cs ->
  let n := fold_right (fun c acc => pixel_area c * channel (avg_of c) + acc) 0 cs in
  let s := fold_right (fun c acc => pixel_area c + acc) 0 cs in
  0 <= s /\ 0 <= n /\ lo * s <= n <= hi * s /\ (cs <> [] -> 0 < s).
Proof.
  induction 1 as [|c cs (Ha & Hc0 & Hc) _ IH]; cbn [fold_right].
  - cbv zeta. repeat split; try lia. congruence.
  - cbv zeta in *. destruct IH as (Hs & Hn & Hb & _).
    set (s := fold_right (fun c acc => pixel_area c + acc) 0 cs) in *.
    set (n := fold_right (fun c acc => pixel_area c * channel (avg_of c) + acc) 0 cs) in *.
    assert (0 <= pixel_area c * channel (avg_of c)) by (apply Z.mul_nonneg_nonneg; lia).
    assert (lo * pixel_area c <= pixel_area c * channel (avg_of c)) by nia.
    assert (pixel_area c * channel (avg_of c) <= hi * pixel_area c) by nia.
    repeat split; try lia.
Qed.

Lemma weighted_mean_between (channel : RGBAPixel -> Z) (lo hi : Z) (cs : list NodePtr) :
  cs <> [] ->
  Forall (fun c => 0 < pixel_area c /\ 0 <= channel (avg_of c) /\
                   lo <= channel (avg_of c) <= hi) cs ->
  lo <= weighted_mean channel cs <= hi.
Proof.
  intros Hne Hall. destruct (weighted_sums_between channel lo hi cs Hall)
    as (Hs & Hn & Hb & Hpos).
  specialize (Hpos Hne). unfold weighted_mean.
  rewrite Z.quot_div_nonneg by lia. split.
  - apply Z.div_le_lower_bound; lia.
  - apply Z.div_le_upper_bound; lia.
Qed.

Lemma children_nonempty (ul lr : point) (a : RGBAPixel) (nw ne sw se : NodePtr) :
  isNull nw && isNull ne && isNull sw && isNull se = false ->
  children (node ul lr a nw ne sw se) <> [].
Proof.
  cbn [children filter].
  destruct (isNull nw), (isNull ne), (isNull sw), (isNull se);
    cbn [negb andb]; congruence.
Qed.

Lemma avgs_in_box (lo hi : RGBAPixel) (t : NodePtr) :
  wf t -> avg_rule t -> colors_ok t ->
  Forall (in_box lo hi) (leaf_colors t) -> Forall (in_box lo hi) (avgs t).
Proof.
  induction t as [|ul lr a nw IHnw ne IHne sw IHsw se IHse];
    intros Hwf Havg Hcol Hleaf; [constructor|].
  destruct Hwf as (Hok & Hs & Wnw & Wne & Wsw & Wse).
  destruct Havg as (Ha & Anw & Ane & Asw & Ase).
  destruct Hcol as (Hpa & Cnw & Cne & Csw & Cse).
  cbn [leaf_colors] in Hleaf. cbn [avgs isLeaf] in *.
  destruct (isNull nw && isNull ne && isNull sw && isNull se) eqn:E.
  - apply all_null in E. destruct E as (-> & -> & -> & ->).
    cbn [avgs app]. exact Hleaf.
  - rewrite !Forall_app in Hleaf. destruct Hleaf as (Lnw & Lne & Lsw & Lse).
    specialize (IHnw Wnw Anw Cnw Lnw). specialize (IHne Wne Ane Cne Lne).
    specialize (IHsw Wsw Asw Csw Lsw). specialize (IHse Wse Ase Cse Lse).
    constructor; [|rewrite !Forall_app; auto].
    destruct (Ha eq_refl) as (Hr & Hg & Hb).
    assert (Hch : Forall (fun c => 0 < pixel_area c /\ pixel_ok (avg_of c) /\
                                   in_box lo hi (avg_of c))
                         (children (node ul lr a nw ne sw se))).
    { rewrite Forall_forall. intros c Hc. cbn [children] in Hc.
      apply filter_In in Hc. destruct Hc as [Hin Hnn].
      assert (Hc : wf c /\ colors_ok c /\ Forall (in_box lo hi) (avgs c))
        by (cbn [In] in Hin; intuition (subst; auto)).
      destruct c as [|cul clr ca c1 c2 c3 c4]; [discriminate|].
      destruct Hc as ((Hcok & _) & (Hcp & _) & Hcb).
      cbn [pixel_area avg_of]. unfold rect_ok in Hcok.
      split; [apply Z.mul_pos_pos; lia|]. split; [exact Hcp|].
      inversion Hcb; assumption. }
    pose proof (children_nonempty ul lr a nw ne sw se E) as Hne.
    unfold in_box. rewrite Hr, Hg, Hb.
    (split; [|split]);
      (apply weighted_mean_between; [exact Hne|]);
      (eapply Forall_impl; [|exact Hch]);
      intros c (Hp & (Cr & Cg & Cb) & (Br & Bg & Bb)); lia.
Qed.

Lemma getPixel_In (img : PNG) (x y : Z) (c : RGBAPixel) :
  getPixel img x y = Ok c -> In c (imageData_ img).
Proof.
  unfold getPixel. destruct (in_raster img x y); [|discriminate].
  destruct (nth_error (imageData_ img) (pixel_index img x y)) eqn:E; [|discriminate].
  intros H. inversion H; subst. eapply nth_error_In. exact E.
Qed.

Lemma built_leaf_colors (img : PNG) (t : NodePtr) :
  wf t -> split_rule img t ->
  Forall (fun c => In c (imageData_ img)) (leaf_colors t).
Proof.
  induction t as [|ul lr a nw IHnw ne IHne sw IHsw se IHse]; intros Hwf Hs;
    [constructor|].
  cbn [leaf_colors].
  destruct (isNull nw && isNull ne && isNull sw && isNull se) eqn:E.
  - apply all_null in E. destruct E as (-> & -> & -> & ->).
    destruct (split_rule_leaf img ul lr a) as [_ Hpix]; [apply Hwf | exact Hs |].
    constructor; [|constructor]. eapply getPixel_In. exact Hpix.
  - destruct Hwf as (_ & _ & Wnw & Wne & Wsw & Wse).
    cbn [split_rule] in Hs. destruct Hs as (_ & _ & _ & _ & Snw & Sne & Ssw & Sse).
    rewrite !Forall_app. auto.
Qed.

(** ** The life of a tree: construction, then any operations *)

Section Lifecycle.
Context {metric : PixelMetric}.

Inductive operation : Type :=
| OpPrune (tolerance : double)
| OpFlipHorizontal
| OpRotateCCW.

Definition apply_operation (t : QTree) (op : operation) : result QTree :=
  match op with
  | OpPrune tolerance => Prune t tolerance
  | OpFlipHorizontal => FlipHorizontal t
  | OpRotateCCW => RotateCCW t
  end.

Fixpoint run (ops : list operation) (t : QTree) : result QTree :=
  match ops with
  | [] => Ok t
  | op :: rest => t' <- apply_operation t op ;; run rest t'
  end.

(** The tree after building from [img] and applying [ops] in order. *)
Definition lifecycle (img : PNG) (ops : list operation) : result QTree :=
  t <- QTree_new img ;; run ops t.

Lemma Prune_ok (t : QTree) (tolerance : double) :
  tree_ok t ->
  tree_ok (mkQTree (pruned (root t) tolerance) (width t) (height t)).
Proof.
  intros [Hwf Hr]. split; cbn [root width height].
  - apply wf_pruned. exact Hwf.
  - unfold has_rect. rewrite rectOf_pruned. exact Hr.
Qed.

Lemma apply_operation_ok (t : QTree) (op : operation) :
  tree_ok t -> exists t', apply_operation t op = Ok t' /\ tree_ok t'.
Proof.
  intros Hok. destruct op as [tolerance| |]; cbn [apply_operation].
  - rewrite Prune_pruned. eexists. split; [reflexivity|]. apply Prune_ok. exact Hok.
  - rewrite FlipHorizontal_flipped by exact Hok. eexists.
    split; [reflexivity|]. apply FlipHorizontal_ok. exact Hok.
  - rewrite RotateCCW_rotated by exact Hok. eexists.
    split; [reflexivity|]. apply RotateCCW_ok. exact Hok.
Qed.

Lemma run_ok (ops : list operation) :
  forall t, tree_ok t -> exists t', run ops t = Ok t' /\ tree_ok t'.
Proof.
  induction ops as [|op rest IH]; intros t Hok.
  - exists t. split; [reflexivity | exact Hok].
  - cbn [run]. destruct (apply_operation_ok t op Hok) as (t1 & E1 & Hok1).
    rewrite E1. cbn [bind]. apply IH. exact Hok1.
Qed.

Lemma lifecycle_ok (img : PNG) (ops : list operation) :
  valid_image img -> exists t, lifecycle img ops = Ok t /\ tree_ok t.
Proof.
  intros Himg. destruct (QTree_new_ok img Himg) as (t0 & E0 & Hok0 & _).
  unfold lifecycle. rewrite E0. cbn [bind]. apply run_ok. exact Hok0.
Qed.

End Lifecycle.

Lemma flip_twice (t : QTree) :
  tree_ok t ->
  exists t1, FlipHorizontal t = Ok t1 /\ FlipHorizontal t1 = Ok t.
Proof.
  intros Hok. pose proof (FlipHorizontal_ok t Hok) as Hok1.
  rewrite (FlipHorizontal_flipped t Hok). eexists. split; [reflexivity|].
  rewrite (FlipHorizontal_flipped _ Hok1). cbn [root width height].
  destruct Hok as [Hwf Hr].
  rewrite (flipped_flipped (root t) _ _ _ _ _ _ Hwf Hr);
    [ destruct t; reflexivity | reflexivity.. 
    | eapply wf_rect_ok; eassumption | apply same_size_refl; assumption ].
Qed.

Lemma rotate_four_times (t : QTree) :
  tree_ok t ->
  exists t1 t2 t3,
    RotateCCW t = Ok t1 /\ RotateCCW t1 = Ok t2 /\
    RotateCCW t2 = Ok t3 /\ RotateCCW t3 = Ok t.
Proof.
  intros Hok.
  pose proof (RotateCCW_ok t Hok) as Hok1.
  pose proof (RotateCCW_ok _ Hok1) as Hok2.
  pose proof (RotateCCW_ok _ Hok2) as Hok3.
  do 3 eexists.
  split; [apply (RotateCCW_rotated t Hok)|].
  split; [apply (RotateCCW_rotated _ Hok1)|].
  split; [apply (RotateCCW_rotated _ Hok2)|].
  rewrite (RotateCCW_rotated _ Hok3). cbn [root width height].
  destruct Hok as [Hwf Hr]. pose proof (wf_rect_ok _ _ _ Hwf Hr) as Hrect.
  unfold rect_ok in Hrect. cbn [fst snd] in Hrect.
  rewrite (rotated_four (root t) _ _ _ _ _ _ _ _ _ _ Hwf Hr);
    [ destruct t; reflexivity | reflexivity..
    | solve_rect_ok | solve_swapped_size
    | solve_rect_ok | solve_same_size
    | solve_rect_ok | solve_swapped_size ].
Qed.

(* ===================================================================== *)
(** * The specification's claims *)

(** ** Concrete inputs *)

(** The 2x2 raster of the specification's scenario, row by row. *)
Definition scenario_image : PNG :=
  mkPNG 2 2 [mkPixel 255 0 0; mkPixel 0 255 0; mkPixel 0 0 255; mkPixel 255 255 0].

Definition scenario_avg : RGBAPixel := mkPixel 127 127 63.

Definition scenario_tree : QTree :=
  mkQTree
    (node (0, 0) (1, 1) scenario_avg
       (node (0, 0) (0, 0) (mkPixel 255 0 0) nullptr nullptr nullptr nullptr)
       (node (1, 0) (1, 0) (mkPixel 0 255 0) nullptr nullptr nullptr nullptr)
       (node (0, 1) (0, 1) (mkPixel 0 0 255) nullptr nullptr nullptr nullptr)
       (node (1, 1) (1, 1) (mkPixel 255 255 0) nullptr nullptr nullptr nullptr))
    2 2.

Definition scenario_pruned : QTree :=
  mkQTree (node (0, 0) (1, 1) scenario_avg nullptr nullptr nullptr nullptr) 2 2.

(** A 3x2 raster with six different pixels. *)
Definition sample_image : PNG :=
  mkPNG 3 2 [mkPixel 10 0 0; mkPixel 20 0 0; mkPixel 30 0 0;
             mkPixel 40 0 0; mkPixel 50 0 0; mkPixel 60 0 0].

(** A metric to run the pruner with: the square of the Euclidean distance
    between the three channels, so that a tolerance [d] of the Euclidean
    distance is the tolerance [d * d] here. *)
Definition sq_distance (p q : RGBAPixel) : Z :=
  (r p - r q) * (r p - r q) + (g p - g q) * (g p - g q)
  + (b p - b q) * (b p - b q).

Definition squared_metric : PixelMetric :=
  {| double := Z; distanceTo := sq_distance; double_le := Z.leb |}.

Ltac valid_image_tac :=
  unfold valid_image; cbn [width_ height_ imageData_ scenario_image sample_image];
  repeat split; try lia; try reflexivity;
  repeat constructor; cbn [r g b]; lia.

Lemma scenario_image_valid : valid_image scenario_image.
Proof. valid_image_tac. Qed.

Lemma sample_image_valid : valid_image sample_image.
Proof. valid_image_tac. Qed.

Lemma scenario_build : QTree_new scenario_image = Ok scenario_tree.
Proof. vm_compute. reflexivity. Qed.

Section Scenario.
Context {metric : PixelMetric}.

(** Every pixel of the scenario is within [tolerance] of the root average. *)
Definition scenario_within (tolerance : double) : Prop :=
  double_le (distanceTo (mkPixel 255 0 0) scenario_avg) tolerance = true /\
  double_le (distanceTo (mkPixel 0 255 0) scenario_avg) tolerance = true /\
  double_le (distanceTo (mkPixel 0 0 255) scenario_avg) tolerance = true /\
  double_le (distanceTo (mkPixel 255 255 0) scenario_avg) tolerance = true.

Lemma scenario_prune (tolerance : double) :
  scenario_within tolerance ->
  Prune scenario_tree tolerance = Ok scenario_pruned.
Proof.
  intros (H1 & H2 & H3 & H4). rewrite Prune_pruned.
  unfold scenario_tree, scenario_pruned. cbn [root width height].
  cbn [pruned isLeaf isNull andb]. unfold qualifies.
  cbn [leaf_colors isNull andb app forallb avg_of].
  rewrite H1, H2, H3, H4. reflexivity.
Qed.

End Scenario.

Lemma scenario_render_1 :
  Render scenario_pruned 1
  = Ok (mkPNG 2 2 [scenario_avg; scenario_avg; scenario_avg; scenario_avg]).
Proof. vm_compute. reflexivity. Qed.


(** "[render(1)] with every pixel block-replicated [k] x [k]": the pixel at
    (x, y) of the result is the pixel at (x / k, y / k) of [img]. *)
Definition block_replicate (k : Z) (img : PNG) : PNG :=
  let w := width_ img * k in
  let h := height_ img * k in
  mkPNG w h
    (map (fun idx =>
            let x := Z.of_nat idx mod w in
            let y := Z.of_nat idx / w in
            nth (Z.to_nat (x / k + (y / k) * width_ img)) (imageData_ img)
                RGBAPixel_default)
         (seq 0 (Z.to_nat (w * h)))).


Lemma scenario_render_2 :
  Render scenario_pruned 2
  = Ok (mkPNG 4 4
          [scenario_avg; scenario_avg; RGBAPixel_default; RGBAPixel_default;
           scenario_avg; scenario_avg; RGBAPixel_default; RGBAPixel_default;
           RGBAPixel_default; RGBAPixel_default; RGBAPixel_default; RGBAPixel_default;
           RGBAPixel_default; RGBAPixel_default; RGBAPixel_default; RGBAPixel_default]).
Proof. vm_compute. reflexivity. Qed.

Lemma Z_leb_trans (x y z : Z) :
  (x <=? y) = true -> (y <=? z) = true -> (x <=? z) = true.
Proof. rewrite !Z.leb_le. lia. Qed.

Ltac scenario_within_tac :=
  unfold scenario_within; cbn; repeat split; reflexivity.

(** ** C1: rendering at a scale above 1 *)

(** C1 (the code departs from the claim).  On the pruned tree of the
    scenario, [Render] at scale 2 does not give [Render] at scale 1 with
    every pixel replicated into a 2x2 block: only the block of the leaf's
    upper-left pixel is painted.  The output pixel (3, 3) keeps the colour
    the fresh canvas had, where block replication puts the leaf's average,
    and on any 4x4 canvas [RenderPixel] leaves that pixel as it was. *)
Theorem Render_scaled_pruned_unpainted {metric : PixelMetric} (tolerance : double) :
  scenario_within tolerance ->
  exists t out1 out2,
    lifecycle scenario_image [OpPrune tolerance] = Ok t /\
    Render t 1 = Ok out1 /\
    Render t 2 = Ok out2 /\
    getPixel (block_replicate 2 out1) 3 3 = Ok scenario_avg /\
    getPixel out2 3 3 = Ok RGBAPixel_default /\
    out2 <> block_replicate 2 out1 /\
    (forall p0 p1 p2 p3 p4 p5 p6 p7 p8 p9 p10 p11 p12 p13 p14 p15,
        let blank := mkPNG 4 4 [p0; p1; p2; p3; p4; p5; p6; p7;
                                p8; p9; p10; p11; p12; p13; p14; p15] in
        exists out, RenderPixel blank (root t) 2 = Ok out /\
                    getPixel out 3 3 = Ok p15).
Proof.
  intros Hin. exists scenario_pruned. do 2 eexists.
  split.
  { unfold lifecycle. rewrite scenario_build. cbn [bind run apply_operation].
    rewrite (scenario_prune tolerance Hin). reflexivity. }
  split; [apply scenario_render_1|].
  split; [apply scenario_render_2|].
  split; [vm_compute; reflexivity|].
  split; [vm_compute; reflexivity|].
  split; [vm_compute; discriminate|].
  intros. eexists. split; vm_compute; reflexivity.
Qed.

Lemma Render_scaled_pruned_unpainted_witness :
  @scenario_within squared_metric 250000 /\
  exists t out1 out2,
    @lifecycle squared_metric scenario_image [@OpPrune squared_metric 250000] = Ok t /\
    Render t 1 = Ok out1 /\
    Render t 2 = Ok out2 /\
    getPixel (block_replicate 2 out1) 3 3 = Ok scenario_avg /\
    getPixel out2 3 3 = Ok RGBAPixel_default /\
    out2 <> block_replicate 2 out1 /\
    (forall p0 p1 p2 p3 p4 p5 p6 p7 p8 p9 p10 p11 p12 p13 p14 p15,
        let blank := mkPNG 4 4 [p0; p1; p2; p3; p4; p5; p6; p7;
                                p8; p9; p10; p11; p12; p13; p14; p15] in
        exists out, RenderPixel blank (root t) 2 = Ok out /\
                    getPixel out 3 3 = Ok p15).
Proof.
  split; [scenario_within_tac|].
  apply (@Render_scaled_pruned_unpainted squared_metric 250000).
  scenario_within_tac.
Defined.

(** ** C2: the tiling invariant *)

(** C2.  After construction from a valid raster and any sequence of
    prunes, flips and rotations (all of which succeed), the rectangles of
    the leaves partition [0..width-1] x [0..height-1] for the tree's
    current width and height: no leaf rectangle is empty, no two overlap,
    and together they cover exactly that rectangle. *)
Theorem leaves_partition_image {metric : PixelMetric}
        (img : PNG) (ops : list operation) :
  valid_image img ->
  exists t,
    lifecycle img ops = Ok t /\
    partitions (leaves (root t)) ((0, 0), (width t - 1, height t - 1)).
Proof.
  intros Himg. destruct (lifecycle_ok img ops Himg) as (t & Et & Hwf & Hr).
  exists t. split; [exact Et|]. apply wf_partitions; assumption.
Qed.

Lemma leaves_partition_image_witness :
  valid_image sample_image /\
  exists t,
    @lifecycle squared_metric sample_image
      [OpFlipHorizontal; @OpPrune squared_metric 100; OpRotateCCW] = Ok t /\
    partitions (leaves (root t)) ((0, 0), (width t - 1, height t - 1)).
Proof.
  split; [valid_image_tac|].
  apply (@leaves_partition_image squared_metric sample_image).
  valid_image_tac.
Defined.

(** ** C3: the average of an internal node *)

(** A raster of [w] by [h] pixels, all of the colour [c]. *)
Definition plain_image (w h : Z) (c : RGBAPixel) : PNG :=
  mkPNG w h (repeat c (Z.to_nat (w * h))).

Definition white : RGBAPixel := mkPixel 255 255 255.

(** 2904 by 2904 white pixels; 255 * 2904 * 2904 = 2150470080 is more than
    the largest [int], 2147483647. *)
Definition large_image : PNG := plain_image 2904 2904 white.

Lemma plain_image_raster_ok (w h : Z) (c : RGBAPixel) :
  1 <= w -> 1 <= h -> pixel_ok c -> raster_ok (plain_image w h c).
Proof.
  intros Hw Hh Hc. unfold raster_ok, plain_image. cbn [width_ height_ imageData_].
  split; [exact Hw|]. split; [exact Hh|]. split.
  - apply repeat_length.
  - apply Forall_forall. intros p Hp. apply repeat_spec in Hp. subst p. exact Hc.
Qed.

Lemma plain_image_pixels (w h : Z) (c : RGBAPixel) :
  Forall (eq c) (imageData_ (plain_image w h c)).
Proof.
  apply Forall_forall. intros p Hp. apply repeat_spec in Hp. congruence.
Qed.

Lemma in_box_point (c p : RGBAPixel) : in_box c c p -> p = c.
Proof.
  destruct c as [cr cg cb], p as [pr pg pb]. unfold in_box. cbn [r g b]. intros (Hr & Hg & Hb).
  f_equal; lia.
Qed.

(** On a rectangle of one colour, wherever the sums fit, the node the
    builder returns has that colour. *)
Lemma built_plain (img : PNG) (c : RGBAPixel) (ul lr : point) (t : NodePtr) :
  Forall (eq c) (imageData_ img) -> built img ul lr t -> avg_of t = c.
Proof.
  intros Hall [Hr Hwf Hs Ha Hc].
  assert (Hbox : Forall (in_box c c) (avgs t)).
  { apply avgs_in_box; try assumption.
    pose proof (built_leaf_colors img t Hwf Hs) as Hin.
    rewrite Forall_forall in *. intros p Hp.
    rewrite <- (Hall p (Hin p Hp)). unfold in_box. lia. }
  destruct (has_rect_inv _ _ _ Hr) as (a & nw & ne & sw & se & ->).
  cbn [avgs] in Hbox. cbn [avg_of].
  apply in_box_point. 
  inversion Hbox; assumption.
Qed.

(** One step of the builder on a rectangle at least two pixels wide and
    two pixels tall, and the constructor, as equations. *)
Lemma BuildNode_quad (fuel : nat) (img : PNG) (x0 y0 x1 y1 xm ym : Z)
      (nw ne sw se : NodePtr) :
  0 <= x0 -> x0 < x1 < 2147483647 -> 0 <= y0 -> y0 < y1 < 2147483647 ->
  xm = x0 + ceil_half (x1 - x0 + 1) -> ym = y0 + ceil_half (y1 - y0 + 1) ->
  BuildNode fuel img (x0, y0) (xm - 1, ym - 1) = Ok nw ->
  BuildNode fuel img (xm, y0) (x1, ym - 1) = Ok ne ->
  BuildNode fuel img (x0, ym) (xm - 1, y1) = Ok sw ->
  BuildNode fuel img (xm, ym) (x1, y1) = Ok se ->
  BuildNode (S fuel) img (x0, y0) (x1, y1)
  = assignColor (node (x0, y0) (x1, y1) RGBAPixel_default nw ne sw se) "else".
Proof.
  intros Hx0 Hx Hy0 Hy -> -> Enw Ene Esw Ese.
  pose proof (ceil_half_bounds (x1 - x0 + 1) ltac:(lia)) as Hhw.
  pose proof (ceil_half_bounds (y1 - y0 + 1) ltac:(lia)) as Hhh.
  cbn [BuildNode fst snd].
  rewrite (i32_id (x1 - x0 + 1)) by lia. rewrite (i32_id (y1 - y0 + 1)) by lia.
  destruct (x1 - x0 + 1 =? 1) eqn:Ex; [apply Z.eqb_eq in Ex; lia|].
  destruct (y1 - y0 + 1 =? 1) eqn:Ey; [apply Z.eqb_eq in Ey; lia|].
  cbn [andb negb].
  set (hw := ceil_half (x1 - x0 + 1)) in *.
  set (hh := ceil_half (y1 - y0 + 1)) in *.
  unwrap.
  rewrite Enw. cbn [bind]. rewrite Ene. cbn [bind].
  rewrite Esw. cbn [bind]. rewrite Ese. reflexivity.
Qed.

Lemma QTree_new_root (img : PNG) (fuel : nat) (w h x1 y1 : Z) (t : NodePtr) :
  width_ img = w -> height_ img = h -> Z.to_nat (w + h) = fuel ->
  u32 (w - 1) = x1 -> u32 (h - 1) = y1 ->
  BuildNode fuel img (0, 0) (x1, y1) = Ok t ->
  QTree_new img = Ok (mkQTree t w h).
Proof.
  intros <- <- <- <- <- E. unfold QTree_new. rewrite E. reflexivity.
Qed.

(** C3.  On the white raster of 2904 by 2904 pixels the constructor
    succeeds, the four children of the root are the four quadrants of
    1452 by 1452 pixels and each has the average (255,255,255), so the
    area-weighted mean of the children is 255 in every channel; but the
    root stores (2,2,2): the [int] sum 4 * 2108304 * 255 = 2150470080 of
    [assignColor] wraps to -2144497216, whose quotient by the total area
    8433216 is -254, stored into an [unsigned char] as 2. *)
Theorem assignColor_wraps_on_large_image :
  exists t nw ne sw se,
    QTree_new large_image = Ok t /\
    root t = node (0, 0) (2903, 2903) (mkPixel 2 2 2) nw ne sw se /\
    (has_rect nw (0, 0) (1451, 1451) /\ avg_of nw = white) /\
    (has_rect ne (1452, 0) (2903, 1451) /\ avg_of ne = white) /\
    (has_rect sw (0, 1452) (1451, 2903) /\ avg_of sw = white) /\
    (has_rect se (1452, 1452) (2903, 2903) /\ avg_of se = white) /\
    weighted_mean r (children (root t)) = 255 /\
    weighted_mean g (children (root t)) = 255 /\
    weighted_mean b (children (root t)) = 255 /\
    ~ avg_rule (root t).
Proof.
  assert (Himg : raster_ok large_image).
  { apply plain_image_raster_ok; [lia | lia | unfold pixel_ok, white; cbn; lia]. }
  pose proof (plain_image_pixels 2904 2904 white) as Hall.
  fold large_image in Hall.
  assert (Hw : width_ large_image = 2904) by reflexivity.
  assert (Hh : height_ large_image = 2904) by reflexivity.
  destruct (BuildNode_rect (Z.to_nat 5807) large_image Himg
              (0, 0) (1452 - 1, 1452 - 1)) as (nw & Enw & Bnw);
    [unfold rect_ok; cbn [fst snd]; lia | cbn [fst snd]; lia .. |].
  destruct (BuildNode_rect (Z.to_nat 5807) large_image Himg
              (1452, 0) (2903, 1452 - 1)) as (ne & Ene & Bne);
    [unfold rect_ok; cbn [fst snd]; lia | cbn [fst snd]; lia .. |].
  destruct (BuildNode_rect (Z.to_nat 5807) large_image Himg
              (0, 1452) (1452 - 1, 2903)) as (sw & Esw & Bsw);
    [unfold rect_ok; cbn [fst snd]; lia | cbn [fst snd]; lia .. |].
  destruct (BuildNode_rect (Z.to_nat 5807) large_image Himg
              (1452, 1452) (2903, 2903)) as (se & Ese & Bse);
    [unfold rect_ok; cbn [fst snd]; lia | cbn [fst snd]; lia .. |].
  pose proof (BuildNode_quad (Z.to_nat 5807) large_image 0 0 2903 2903 1452 1452
                nw ne sw se ltac:(lia) ltac:(lia) ltac:(lia) ltac:(lia)
                eq_refl eq_refl Enw Ene Esw Ese) as Eroot.
  pose proof (built_plain _ _ _ _ _ Hall Bnw) as Anw.
  pose proof (built_plain _ _ _ _ _ Hall Bne) as Ane.
  pose proof (built_plain _ _ _ _ _ Hall Bsw) as Asw.
  pose proof (built_plain _ _ _ _ _ Hall Bse) as Ase.
  pose proof (built_rect _ _ _ _ Bnw) as Rnw.
  pose proof (built_rect _ _ _ _ Bne) as Rne.
  pose proof (built_rect _ _ _ _ Bsw) as Rsw.
  pose proof (built_rect _ _ _ _ Bse) as Rse.
  clear Bnw Bne Bsw Bse Enw Ene Esw Ese.
  exists (mkQTree (node (0, 0) (2903, 2903) (mkPixel 2 2 2) nw ne sw se) 2904 2904),
    nw, ne, sw, se.
  split.
  { apply (QTree_new_root large_image (S (Z.to_nat 5807)) 2904 2904 2903 2903);
      [reflexivity .. |].
    rewrite Eroot. clear Eroot Hall Himg Hw Hh.
    destruct (has_rect_inv _ _ _ Rnw) as (a1 & n1 & n2 & n3 & n4 & ->).
    destruct (has_rect_inv _ _ _ Rne) as (a2 & e1 & e2 & e3 & e4 & ->).
    destruct (has_rect_inv _ _ _ Rsw) as (a3 & s1 & s2 & s3 & s4 & ->).
    destruct (has_rect_inv _ _ _ Rse) as (a4 & t1 & t2 & t3 & t4 & ->).
    cbn [avg_of] in Anw, Ane, Asw, Ase. subst a1 a2 a3 a4.
    vm_compute. reflexivity. }
  clear Eroot Hall Himg Hw Hh. cbn [root].
  split; [reflexivity|].
  do 4 (split; [split; assumption|]).
  destruct (has_rect_inv _ _ _ Rnw) as (a1 & n1 & n2 & n3 & n4 & ->).
  destruct (has_rect_inv _ _ _ Rne) as (a2 & e1 & e2 & e3 & e4 & ->).
  destruct (has_rect_inv _ _ _ Rsw) as (a3 & s1 & s2 & s3 & s4 & ->).
  destruct (has_rect_inv _ _ _ Rse) as (a4 & t1 & t2 & t3 & t4 & ->).
  cbn [avg_of] in Anw, Ane, Asw, Ase. subst a1 a2 a3 a4.
  do 3 (split; [vm_compute; reflexivity|]).
  intros (Hrule & _). cbn [isLeaf isNull andb] in Hrule.
  destruct (Hrule eq_refl) as (Hr & _). vm_compute in Hr. discriminate Hr.
Qed.

(** ** C4: what pruning collapses *)

(** C4.  [Prune] always succeeds and leaves the tree [pruned] describes:
    a leaf is untouched; an internal node all of whose leaves are within
    the tolerance of its own average becomes a leaf with the same
    rectangle and average; any other node keeps its rectangle and average
    and has each child pruned in the same way.  Width and height are
    unchanged. *)
Theorem Prune_collapses_highest_qualifying {metric : PixelMetric}
        (t : QTree) (tolerance : double) :
  exists t',
    Prune t tolerance = Ok t' /\
    root t' = pruned (root t) tolerance /\
    width t' = width t /\ height t' = height t.
Proof.
  eexists. split; [apply Prune_pruned|]. cbn [root width height]. auto.
Qed.

(** ** C5: flipping twice *)

(** C5.  For the tree reached from a valid raster by any operations, two
    flips in a row succeed and give a tree whose rendering, at every scale
    the renderer accepts, is the rendering of the tree before them. *)
Theorem flip_twice_renders_same {metric : PixelMetric}
        (img : PNG) (ops : list operation) :
  valid_image img ->
  exists t t1 t2,
    lifecycle img ops = Ok t /\
    FlipHorizontal t = Ok t1 /\ FlipHorizontal t1 = Ok t2 /\
    forall scale,
      1 <= scale ->
      width t * scale < 4294967296 -> height t * scale < 4294967296 ->
      exists out, Render t scale = Ok out /\ Render t2 scale = Ok out.
Proof.
  intros Himg. destruct (lifecycle_ok img ops Himg) as (t & Et & Hok).
  destruct (flip_twice t Hok) as (t1 & E1 & E2).
  exists t, t1, t. repeat split; try assumption.
  intros scale Hs Hw Hh.
  destruct (Render_total t scale Hok Hs Hw Hh) as (out & Eo & _).
  exists out. auto.
Qed.

Lemma flip_twice_renders_same_witness :
  valid_image sample_image /\
  exists t t1 t2,
    @lifecycle squared_metric sample_image
      [OpRotateCCW; @OpPrune squared_metric 100] = Ok t /\
    FlipHorizontal t = Ok t1 /\ FlipHorizontal t1 = Ok t2 /\
    forall scale,
      1 <= scale ->
      width t * scale < 4294967296 -> height t * scale < 4294967296 ->
      exists out, Render t scale = Ok out /\ Render t2 scale = Ok out.
Proof.
  split; [valid_image_tac|].
  apply (@flip_twice_renders_same squared_metric sample_image).
  valid_image_tac.
Defined.

(** ** C6: rotating four times *)

(** C6.  For the tree reached from a valid raster by any operations, four
    rotations in a row succeed, restore the stored width and height, and
    give a tree whose rendering, at every scale the renderer accepts, is
    the rendering of the tree before them. *)
Theorem rotate_four_times_renders_same {metric : PixelMetric}
        (img : PNG) (ops : list operation) :
  valid_image img ->
  exists t t1 t2 t3 t4,
    lifecycle img ops = Ok t /\
    RotateCCW t = Ok t1 /\ RotateCCW t1 = Ok t2 /\
    RotateCCW t2 = Ok t3 /\ RotateCCW t3 = Ok t4 /\
    width t4 = width t /\ height t4 = height t /\
    forall scale,
      1 <= scale ->
      width t * scale < 4294967296 -> height t * scale < 4294967296 ->
      exists out, Render t scale = Ok out /\ Render t4 scale = Ok out.
Proof.
  intros Himg. destruct (lifecycle_ok img ops Himg) as (t & Et & Hok).
  destruct (rotate_four_times t Hok) as (t1 & t2 & t3 & E1 & E2 & E3 & E4).
  exists t, t1, t2, t3, t. repeat split; try assumption.
  intros scale Hs Hw Hh.
  destruct (Render_total t scale Hok Hs Hw Hh) as (out & Eo & _).
  exists out. auto.
Qed.

Lemma rotate_four_times_renders_same_witness :
  valid_image sample_image /\
  exists t t1 t2 t3 t4,
    @lifecycle squared_metric sample_image
      [OpFlipHorizontal; @OpPrune squared_metric 100] = Ok t /\
    RotateCCW t = Ok t1 /\ RotateCCW t1 = Ok t2 /\
    RotateCCW t2 = Ok t3 /\ RotateCCW t3 = Ok t4 /\
    width t4 = width t /\ height t4 = height t /\
    forall scale,
      1 <= scale ->
      width t * scale < 4294967296 -> height t * scale < 4294967296 ->
      exists out, Render t scale = Ok out /\ Render t4 scale = Ok out.
Proof.
  split; [valid_image_tac|].
  apply (@rotate_four_times_renders_same squared_metric sample_image).
  valid_image_tac.
Defined.

(** ** C7: a larger tolerance never leaves more nodes *)

(** C7.  When [<=] on the tolerances is transitive and [t1 <= t2], pruning
    a tree with [t2] leaves at most as many nodes as pruning the same tree
    with [t1]. *)
Theorem Prune_monotone_in_tolerance {metric : PixelMetric}
        (t : QTree) (t1 t2 : double) :
  (forall x y z : double,
      double_le x y = true -> double_le y z = true -> double_le x z = true) ->
  double_le t1 t2 = true ->
  exists r1 r2,
    Prune t t1 = Ok r1 /\ Prune t t2 = Ok r2 /\
    (node_count (root r2) <= node_count (root r1))%nat.
Proof.
  intros Htrans Hle. do 2 eexists.
  split; [apply Prune_pruned|]. split; [apply Prune_pruned|].
  cbn [root]. apply node_count_pruned_mono; assumption.
Qed.

Lemma Prune_monotone_in_tolerance_witness :
  (forall x y z : Z, (x <=? y) = true -> (y <=? z) = true -> (x <=? z) = true) /\
  (100 <=? 250000) = true /\
  exists r1 r2,
    @Prune squared_metric scenario_tree 100 = Ok r1 /\
    @Prune squared_metric scenario_tree 250000 = Ok r2 /\
    (node_count (root r2) <= node_count (root r1))%nat.
Proof.
  split; [exact Z_leb_trans|]. split; [reflexivity|].
  apply (@Prune_monotone_in_tolerance squared_metric scenario_tree 100 250000).
  - exact Z_leb_trans.
  - reflexivity.
Defined.

(** ** C8: the split rule *)

(** C8.  The tree built from a valid raster has a root covering the whole
    raster, and every node obeys the split rule: with [w] and [h] the width
    and height of its rectangle, a 1x1 node is a leaf holding that pixel's
    colour; a node of width 1 and height above 1 has only NW and SW, divided
    after [ceil(h/2)] rows; a node of height 1 and width above 1 has only
    NW and NE, divided after [ceil(w/2)] columns; any other node has four
    children divided after [ceil(w/2)] columns and [ceil(h/2)] rows. *)
Theorem built_tree_obeys_split_rule (img : PNG) :
  valid_image img ->
  exists t,
    QTree_new img = Ok t /\
    width t = width_ img /\ height t = height_ img /\
    has_rect (root t) (0, 0) (width_ img - 1, height_ img - 1) /\
    split_rule img (root t).
Proof.
  intros Himg. destruct (QTree_new_built img Himg) as (t & Et & Hw & Hh & Hb).
  exists t. repeat split; try assumption; apply Hb.
Qed.

Lemma built_tree_obeys_split_rule_witness :
  valid_image sample_image /\
  exists t,
    QTree_new sample_image = Ok t /\
    width t = width_ sample_image /\ height t = height_ sample_image /\
    has_rect (root t) (0, 0) (width_ sample_image - 1, height_ sample_image - 1) /\
    split_rule sample_image (root t).
Proof.
  split; [valid_image_tac|].
  apply (built_tree_obeys_split_rule sample_image). valid_image_tac.
Defined.

(** ** C9: the 2x2 scenario *)

(** C9.  Building from the 2x2 raster of the scenario gives a root with
    average (127,127,63) over four 1x1 leaves holding the four pixels; for
    a tolerance within which the four pixels lie of that average, [Prune]
    collapses the tree to a single leaf with the same average; [Render] at
    scale 1 of the pruned tree is the 2x2 raster uniformly of that colour. *)
Theorem scenario_2x2 {metric : PixelMetric} (tolerance : double) :
  scenario_within tolerance ->
  QTree_new scenario_image = Ok scenario_tree /\
  Prune scenario_tree tolerance = Ok scenario_pruned /\
  Render scenario_pruned 1
  = Ok (mkPNG 2 2 [scenario_avg; scenario_avg; scenario_avg; scenario_avg]).
Proof.
  intros Hin. split; [apply scenario_build|].
  split; [apply scenario_prune; exact Hin | apply scenario_render_1].
Qed.

Lemma scenario_2x2_witness :
  @scenario_within squared_metric 250000 /\
  QTree_new scenario_image = Ok scenario_tree /\
  @Prune squared_metric scenario_tree 250000 = Ok scenario_pruned /\
  Render scenario_pruned 1
  = Ok (mkPNG 2 2 [scenario_avg; scenario_avg; scenario_avg; scenario_avg]).
Proof.
  split; [scenario_within_tac|].
  apply (@scenario_2x2 squared_metric 250000). scenario_within_tac.
Defined.

(** ** C10: flips and rotations keep every average *)

(** C10.  For the tree reached from a valid raster by any operations, a
    flip and a rotation both succeed; the tree of average colours after a
    flip is the one before with West and East children exchanged at every
    node, after a rotation the one before with the children moved one step
    counter-clockwise at every node; so every node keeps its own average,
    and the averages of all nodes after are a permutation of those before. *)
Theorem transforms_keep_averages {metric : PixelMetric}
        (img : PNG) (ops : list operation) :
  valid_image img ->
  exists t tf tr,
    lifecycle img ops = Ok t /\
    FlipHorizontal t = Ok tf /\ RotateCCW t = Ok tr /\
    colors_of (root tf) = mirror (colors_of (root t)) /\
    colors_of (root tr) = cycle (colors_of (root t)) /\
    Permutation (avgs (root t)) (avgs (root tf)) /\
    Permutation (avgs (root t)) (avgs (root tr)).
Proof.
  intros Himg. destruct (lifecycle_ok img ops Himg) as (t & Et & Hok).
  do 3 eexists. split; [exact Et|].
  split; [apply (FlipHorizontal_flipped t Hok)|].
  split; [apply (RotateCCW_rotated t Hok)|].
  cbn [root]. split; [apply colors_flipped|]. split; [apply colors_rotated|].
  split; [apply avgs_flipped | apply avgs_rotated].
Qed.

Lemma transforms_keep_averages_witness :
  valid_image sample_image /\
  exists t tf tr,
    @lifecycle squared_metric sample_image
      [@OpPrune squared_metric 100; OpRotateCCW] = Ok t /\
    FlipHorizontal t = Ok tf /\ RotateCCW t = Ok tr /\
    colors_of (root tf) = mirror (colors_of (root t)) /\
    colors_of (root tr) = cycle (colors_of (root t)) /\
    Permutation (avgs (root t)) (avgs (root tf)) /\
    Permutation (avgs (root t)) (avgs (root tr)).
Proof.
  split; [valid_image_tac|].
  apply (@transforms_keep_averages squared_metric sample_image).
  valid_image_tac.
Defined.

(* ===================================================================== *)
(** * Further properties of the code *)

(** ** What the renderer paints *)

Lemma loop_range_nil (lo hi : Z) : hi <= lo -> loop_range lo hi = [].
Proof.
  intros H. unfold loop_range.
  replace (Z.to_nat (hi - lo)) with 0%nat by lia. reflexivity.
Qed.

Lemma loop_range_cons (lo hi : Z) :
  lo < hi -> loop_range lo hi = lo :: loop_range (lo + 1) hi.
Proof.
  intros H. unfold loop_range.
  replace (Z.to_nat (hi - lo)) with (S (Z.to_nat (hi - (lo + 1)))) by lia.
  cbn [seq map]. f_equal; [lia|].
  rewrite <- seq_shift, map_map. apply map_ext. intros k. lia.
Qed.

Lemma fold_left_Err {S : Type} (body : Z -> S -> result S) (l : list Z) (e : error) :
  fold_left (fun acc i => s' <- acc ;; body i s') l (Err e) = Err e.
Proof. induction l as [|i l IH]; [reflexivity | exact IH]. Qed.

Lemma for_loop_step {S : Type} (lo hi : Z) (body : Z -> S -> result S) (s : S) :
  lo < hi ->
  for_loop lo hi body s = (s1 <- body lo s ;; for_loop (lo + 1) hi body s1).
Proof.
  intros H. unfold for_loop. rewrite (loop_range_cons lo hi H).
  cbn [fold_left bind]. destruct (body lo s) as [s1|e]; cbn [bind].
  - reflexivity.
  - apply fold_left_Err.
Qed.

Lemma for_loop_done {S : Type} (lo hi : Z) (body : Z -> S -> result S) (s : S) :
  hi <= lo -> for_loop lo hi body s = Ok s.
Proof. intros H. unfold for_loop. rewrite (loop_range_nil lo hi H). reflexivity. Qed.

(** A counting loop carries an invariant that may mention the counter. *)
Lemma for_loop_counted {S : Type} (Q : Z -> S -> Prop) (hi : Z)
      (body : Z -> S -> result S) :
  (forall i s0, i < hi -> Q i s0 -> exists s1, body i s0 = Ok s1 /\ Q (i + 1) s1) ->
  forall (n : nat) (lo : Z) (s : S),
    Z.of_nat n = hi - lo -> Q lo s ->
    exists s', for_loop lo hi body s = Ok s' /\ Q hi s'.
Proof.
  intros Hbody. induction n as [|n IH]; intros lo s Hn HQ.
  - exists s. split; [apply for_loop_done; lia|].
    replace hi with lo by lia. exact HQ.
  - rewrite for_loop_step by lia.
    destruct (Hbody lo s ltac:(lia) HQ) as (s1 & E1 & Q1).
    rewrite E1. cbn [bind]. apply IH; [lia | exact Q1].
Qed.

Lemma nth_error_list_set {A : Type} (l : list A) (n m : nat) (a : A) :
  (n < List.length l)%nat ->
  nth_error (list_set l n a) m
  = if (m =? n)%nat then Some a else nth_error l m.
Proof.
  revert n m. induction l as [|h t IH]; intros n m Hn; [simpl in Hn; lia|].
  destruct n as [|n]; destruct m as [|m]; cbn [list_set nth_error Nat.eqb];
    try reflexivity.
  apply IH. simpl in Hn. lia.
Qed.

Lemma pixel_index_inj (w x y x' y' : Z) :
  0 <= x < w -> 0 <= x' < w -> 0 <= y -> 0 <= y' ->
  x + y * w = x' + y' * w -> x = x' /\ y = y'.
Proof.
  intros Hx Hx' Hy Hy' E.
  assert (y = y') by nia. subst y'. lia.
Qed.

Lemma getPixel_canvas (w h : Z) (img : PNG) (x y : Z) :
  canvas w h img -> 0 <= x < w -> 0 <= y < h ->
  exists c, getPixel img x y = Ok c.
Proof.
  intros (Hw & Hh & Hlen) Hx Hy. unfold getPixel, in_raster.
  rewrite Hw, Hh.
  replace (0 <=? x) with true by (symmetry; apply Z.leb_le; lia).
  replace (x <? w) with true by (symmetry; apply Z.ltb_lt; lia).
  replace (0 <=? y) with true by (symmetry; apply Z.leb_le; lia).
  replace (y <? h) with true by (symmetry; apply Z.ltb_lt; lia).
  cbn [andb].
  destruct (nth_error (imageData_ img) (pixel_index img x y)) as [c|] eqn:E;
    [eauto|].
  exfalso. apply nth_error_None in E. rewrite Hlen in E.
  unfold pixel_index in E. rewrite Hw in E. nia.
Qed.

(** Writing one pixel changes that pixel and no other. *)
Lemma getPixel_putPixel (w h : Z) (img img' : PNG) (x y : Z) (c : RGBAPixel) :
  canvas w h img -> 0 <= x < w -> 0 <= y < h ->
  putPixel img x y c = Ok img' ->
  forall x' y', 0 <= x' < w -> 0 <= y' < h ->
    getPixel img' x' y'
    = if (x' =? x) && (y' =? y) then Ok c else getPixel img x' y'.
Proof.
  intros (Hw & Hh & Hlen) Hx Hy Hput x' y' Hx' Hy'.
  unfold putPixel, in_raster in Hput. rewrite Hw, Hh in Hput.
  replace (0 <=? x) with true in Hput by (symmetry; apply Z.leb_le; lia).
  replace (x <? w) with true in Hput by (symmetry; apply Z.ltb_lt; lia).
  replace (0 <=? y) with true in Hput by (symmetry; apply Z.leb_le; lia).
  replace (y <? h) with true in Hput by (symmetry; apply Z.ltb_lt; lia).
  cbn [andb] in Hput.
  destruct (pixel_index img x y <? List.length (imageData_ img))%nat eqn:Elt;
    [|discriminate].
  apply Nat.ltb_lt in Elt. inversion Hput; subst img'; clear Hput.
  unfold getPixel, in_raster. cbn [width_ height_ imageData_]. rewrite Hw, Hh.
  replace (0 <=? x') with true by (symmetry; apply Z.leb_le; lia).
  replace (x' <? w) with true by (symmetry; apply Z.ltb_lt; lia).
  replace (0 <=? y') with true by (symmetry; apply Z.leb_le; lia).
  replace (y' <? h) with true by (symmetry; apply Z.ltb_lt; lia).
  cbn [andb]. unfold pixel_index in *. cbn [width_]. rewrite Hw in *.
  rewrite nth_error_list_set by exact Elt.
  destruct ((x' =? x) && (y' =? y)) eqn:E.
  - apply andb_true_iff in E. destruct E as [E1 E2].
    apply Z.eqb_eq in E1. apply Z.eqb_eq in E2. subst x' y'.
    rewrite Nat.eqb_refl. reflexivity.
  - destruct (Z.to_nat (x' + y' * w) =? Z.to_nat (x + y * w))%nat eqn:En;
      [|reflexivity].
    exfalso. apply Nat.eqb_eq in En.
    assert (0 <= y * w) by (apply Z.mul_nonneg_nonneg; lia).
    assert (0 <= y' * w) by (apply Z.mul_nonneg_nonneg; lia).
    assert (Hxy : x' = x /\ y' = y) by (apply (pixel_index_inj w); lia).
    destruct Hxy as [-> ->]. rewrite !Z.eqb_refl in E. discriminate.
Qed.

Ltac split_comparisons :=
  repeat match goal with
         | |- context [?a <=? ?b] => destruct (Z.leb_spec a b)
         | |- context [?a <? ?b] => destruct (Z.ltb_spec a b)
         | |- context [?a =? ?b] => destruct (Z.eqb_spec a b)
         end;
  cbn [andb orb]; try reflexivity; try (exfalso; lia).

(** The two nested loops of [RenderPixel] write the colour [a] to every
    position of a block of the canvas and leave the rest as it was. *)
Lemma paint_block (w h : Z) (img : PNG) (a : RGBAPixel) (gx gy : Z -> Z)
      (xlo xhi ylo yhi cx cy : Z) :
  canvas w h img -> xlo <= xhi -> ylo <= yhi ->
  (forall i, xlo <= i < xhi -> gx i = cx + i /\ 0 <= cx + i < w) ->
  (forall j, ylo <= j < yhi -> gy j = cy + j /\ 0 <= cy + j < h) ->
  exists img',
    for_loop xlo xhi
      (fun i im => for_loop ylo yhi (fun j im' => putPixel im' (gx i) (gy j) a) im)
      img = Ok img' /\
    canvas w h img' /\
    forall X Y, 0 <= X < w -> 0 <= Y < h ->
      getPixel img' X Y
      = if ((cx + xlo <=? X) && (X <? cx + xhi))
           && ((cy + ylo <=? Y) && (Y <? cy + yhi))
        then Ok a else getPixel img X Y.
Proof.
  intros Hc Hx Hy Hgx Hgy.
  pose (Q := fun (i : Z) (im : PNG) =>
    xlo <= i <= xhi /\ canvas w h im /\
    forall X Y, 0 <= X < w -> 0 <= Y < h ->
      getPixel im X Y
      = if ((cx + xlo <=? X) && (X <? cx + i))
           && ((cy + ylo <=? Y) && (Y <? cy + yhi))
        then Ok a else getPixel img X Y).
  destruct (for_loop_counted Q xhi
              (fun i im => for_loop ylo yhi
                 (fun j im' => putPixel im' (gx i) (gy j) a) im))
    with (n := Z.to_nat (xhi - xlo)) (lo := xlo) (s := img)
    as (img' & E & _ & Hc' & Hpix).
  - intros i im Hi (Hir & Hcim & Him).
    pose (R := fun (j : Z) (im' : PNG) =>
      ylo <= j <= yhi /\ canvas w h im' /\
      forall X Y, 0 <= X < w -> 0 <= Y < h ->
        getPixel im' X Y
        = if ((cx + xlo <=? X) && (X <? cx + i) && (cy + ylo <=? Y) && (Y <? cy + yhi))
             || ((X =? cx + i) && (cy + ylo <=? Y) && (Y <? cy + j))
          then Ok a else getPixel img X Y).
    destruct (for_loop_counted R yhi (fun j im' => putPixel im' (gx i) (gy j) a))
      with (n := Z.to_nat (yhi - ylo)) (lo := ylo) (s := im)
      as (im1 & E1 & _ & Hc1 & Hpix1).
    + intros j im' Hj (Hjr & Hcim' & Him').
      destruct (Hgx i ltac:(lia)) as [Egx Bx].
      destruct (Hgy j ltac:(lia)) as [Egy By].
      rewrite Egx, Egy.
      destruct (putPixel_canvas w h im' (cx + i) (cy + j) a Hcim' Bx By)
        as (im2 & E2 & Hc2).
      exists im2. split; [exact E2|]. split; [lia|]. split; [exact Hc2|].
      intros X Y HX HY.
      rewrite (getPixel_putPixel w h im' im2 _ _ a Hcim' Bx By E2 X Y HX HY).
      rewrite (Him' X Y HX HY). split_comparisons.
    + lia.
    + split; [lia|]. split; [exact Hcim|].
      intros X Y HX HY. rewrite (Him X Y HX HY). split_comparisons.
    + exists im1. split; [exact E1|]. split; [lia|]. split; [exact Hc1|].
      intros X Y HX HY. rewrite (Hpix1 X Y HX HY). split_comparisons.
  - lia.
  - split; [lia|]. split; [exact Hc|].
    intros X Y HX HY. split_comparisons.
  - exists img'. auto.
Qed.

(** The average colour of the leaf of [t] whose rectangle contains the
    pixel position [p], if there is one (the first in NW, NE, SW, SE
    order). *)
Fixpoint leaf_avg_at (t : NodePtr) (p : point) : option RGBAPixel :=
  match t with
  | nullptr => None
  | node ul lr a nw ne sw se =>
      if isNull nw && isNull ne && isNull sw && isNull se then
        if inside p (ul, lr) then Some a else None
      else
        match leaf_avg_at nw p with
        | Some c => Some c
        | None =>
            match leaf_avg_at ne p with
            | Some c => Some c
            | None =>
                match leaf_avg_at sw p with
                | Some c => Some c
                | None => leaf_avg_at se p
                end
            end
        end
  end.

Definition is_some {A : Type} (o : option A) : bool :=
  match o with
  | Some _ => true
  | None => false
  end.

(** Collect, for every non-null child, whether its subtree has a leaf at
    [(x, y)], as a premise of the goal. *)
Ltac child_leaf_facts x y :=
  repeat match goal with
    | H : has_rect ?c _ _, W : wf ?c,
      IH : forall ul lr p, wf ?c -> has_rect ?c ul lr -> is_some _ = _ |- _ =>
        let F := fresh "F" in
        pose proof (IH _ _ (x, y) W H) as F; clear IH; revert F
    end.

Ltac settle_children :=
  repeat match goal with
    | F : is_some (leaf_avg_at ?c ?p) = _ |- _ =>
        destruct (leaf_avg_at c p); cbn [is_some] in F;
        try discriminate F; clear F
    end.

(** In a well-formed subtree the positions that have a leaf are the
    positions of its rectangle. *)
Lemma leaf_avg_at_inside (t : NodePtr) :
  forall ul lr p,
    wf t -> has_rect t ul lr ->
    is_some (leaf_avg_at t p) = inside p (ul, lr).
Proof.
  induction t as [|[x0' y0'] [x1' y1'] a nw IHnw ne IHne sw IHsw se IHse];
    intros ul lr [x y] Hwf Hr; [discriminate|].
  unfold has_rect in Hr. simpl in Hr. inversion Hr; subst ul lr; clear Hr.
  destruct Hwf as (Hok & Hs & Wnw & Wne & Wsw & Wse).
  unfold rect_ok in Hok. cbn [fst snd] in *. cbn [leaf_avg_at].
  shape_cases Hs;
    [ cbn [isNull andb];
      destruct (inside (x, y) (x0', y0', (x1', y1'))); reflexivity | ..];
    child_facts; use_facts; cbn [andb isNull leaf_avg_at];
    child_leaf_facts x y;
    place x x0' x1'; place y y0' y1';
    try (destruct (Z_lt_le_dec x (x0' + sa)));
    try (destruct (Z_lt_le_dec y (y0' + sb)));
    try (exfalso; lia);
    eval_inside; intros; settle_children; reflexivity.
Qed.

(** Every leaf covers a single pixel. *)
Fixpoint unit_leaves (t : NodePtr) : Prop :=
  match t with
  | nullptr => True
  | node ul lr _ nw ne sw se =>
      (isNull nw && isNull ne && isNull sw && isNull se = true -> ul = lr) /\
      unit_leaves nw /\ unit_leaves ne /\ unit_leaves sw /\ unit_leaves se
  end.

Lemma block_cond (s x0 X : Z) :
  0 < s -> (x0 * s <=? X) && (X <? x0 * s + s) = (X / s =? x0).
Proof.
  intros Hs. pose proof (Z.div_mod X s ltac:(lia)) as Hdm.
  pose proof (Z.mod_pos_bound X s Hs) as Hm.
  destruct (Z.leb_spec (x0 * s) X); destruct (Z.ltb_spec X (x0 * s + s));
    destruct (Z.eqb_spec (X / s) x0); cbn [andb]; try reflexivity;
    exfalso; nia.
Qed.

(** [RenderPixel] at scale 1, and at any scale on a subtree whose leaves
    are single pixels: every output pixel whose source position
    (X / scale, Y / scale) has a leaf gets that leaf's average colour, and
    every other pixel is left as it was. *)
Lemma RenderPixel_paints (w h scale : Z) :
  1 <= scale -> w * scale < 4294967296 -> h * scale < 4294967296 ->
  forall (t : NodePtr) (img : PNG),
    wf t -> fits w h t -> scale = 1 \/ unit_leaves t ->
    canvas (w * scale) (h * scale) img ->
    exists img',
      RenderPixel img t scale = Ok img' /\
      canvas (w * scale) (h * scale) img' /\
      forall X Y, 0 <= X < w * scale -> 0 <= Y < h * scale ->
        getPixel img' X Y
        = match leaf_avg_at t (X / scale, Y / scale) with
          | Some c => Ok c
          | None => getPixel img X Y
          end.
Proof.
  intros Hscale Hws Hhs.
  induction t as [|[x0 y0] [x1 y1] a nw IHnw ne IHne sw IHsw se IHse];
    intros img Hwf Hfit Hunit Hc.
  - exists img. split; [reflexivity|]. split; [exact Hc|]. reflexivity.
  - destruct Hwf as (Hok & Hs & Wnw & Wne & Wsw & Wse).
    destruct Hfit as [Hx Hy].
    destruct (shape_fits w h _ _ _ _ _ _ Hs Hx Hy) as (Fnw & Fne & Fsw & Fse).
    assert (Unw : scale = 1 \/ unit_leaves nw) by (cbn [unit_leaves] in Hunit; tauto).
    assert (Une : scale = 1 \/ unit_leaves ne) by (cbn [unit_leaves] in Hunit; tauto).
    assert (Usw : scale = 1 \/ unit_leaves sw) by (cbn [unit_leaves] in Hunit; tauto).
    assert (Use : scale = 1 \/ unit_leaves se) by (cbn [unit_leaves] in Hunit; tauto).
    unfold rect_ok in Hok. cbn [fst snd] in *. cbn [RenderPixel fst snd].
    unwrap.
    assert (Hpaint : exists img1,
      (if scale =? 1
       then for_loop x0 (x0 + (x1 - x0 + 1))
              (fun i im => for_loop y0 (y0 + (y1 - y0 + 1))
                 (fun j im' => putPixel im' (u32 i) (u32 j) a) im) img
       else for_loop 0 scale
              (fun i im => for_loop 0 scale
                 (fun j im' => putPixel im' (u32 (x0 * scale + i))
                                            (u32 (y0 * scale + j)) a) im) img)
      = Ok img1 /\ canvas (w * scale) (h * scale) img1 /\
      forall X Y, 0 <= X < w * scale -> 0 <= Y < h * scale ->
        (inside (X / scale, Y / scale) ((x0, y0), (x1, y1)) = false ->
         getPixel img1 X Y = getPixel img X Y) /\
        (isNull nw && isNull ne && isNull sw && isNull se = true ->
         inside (X / scale, Y / scale) ((x0, y0), (x1, y1)) = true ->
         getPixel img1 X Y = Ok a)).
    { destruct (scale =? 1) eqn:E.
      - apply Z.eqb_eq in E. subst scale.
        destruct (paint_block (w * 1) (h * 1) img a (fun i => u32 i) (fun j => u32 j)
                    x0 (x0 + (x1 - x0 + 1)) y0 (y0 + (y1 - y0 + 1)) 0 0)
          as (img1 & E1 & C1 & P1);
          [ exact Hc | lia | lia
          | intros i Hi; rewrite u32_id by lia; lia
          | intros j Hj; rewrite u32_id by lia; lia |].
        exists img1. split; [exact E1|]. split; [exact C1|].
        intros X Y HX HY. rewrite (P1 X Y HX HY), !Z.div_1_r.
        split.
        + intros Hin. apply inside_false in Hin. split_comparisons.
        + intros _ Hin. apply inside_true in Hin. split_comparisons.
      - apply Z.eqb_neq in E.
        assert (0 <= x0 * scale) by (apply Z.mul_nonneg_nonneg; lia).
        assert (0 <= y0 * scale) by (apply Z.mul_nonneg_nonneg; lia).
        assert (x0 * scale <= (w - 1) * scale)
          by (apply Z.mul_le_mono_nonneg_r; lia).
        assert (y0 * scale <= (h - 1) * scale)
          by (apply Z.mul_le_mono_nonneg_r; lia).
        destruct (paint_block (w * scale) (h * scale) img a
                    (fun i => u32 (x0 * scale + i)) (fun j => u32 (y0 * scale + j))
                    0 scale 0 scale (x0 * scale) (y0 * scale))
          as (img1 & E1 & C1 & P1);
          [ exact Hc | lia | lia
          | intros i Hi; rewrite u32_id by lia; lia
          | intros j Hj; rewrite u32_id by lia; lia |].
        exists img1. split; [exact E1|]. split; [exact C1|].
        intros X Y HX HY. rewrite (P1 X Y HX HY), !Z.add_0_r.
        rewrite !block_cond by lia.
        split.
        + intros Hin. apply inside_false in Hin. split_comparisons.
        + intros Hleaf Hin. apply inside_true in Hin.
          destruct Hunit as [?|Hunit]; [lia|].
          cbn [unit_leaves] in Hunit. destruct Hunit as (Hul & _).
          specialize (Hul Hleaf). inversion Hul; subst x1 y1.
          split_comparisons. }
    destruct Hpaint as (img1 & E1 & C1 & P1). rewrite E1. cbn [bind].
    destruct (IHnw img1 Wnw Fnw Unw C1) as (img2 & E2 & C2 & P2). rewrite E2. cbn [bind].
    destruct (IHne img2 Wne Fne Une C2) as (img3 & E3 & C3 & P3). rewrite E3. cbn [bind].
    destruct (IHsw img3 Wsw Fsw Usw C3) as (img4 & E4 & C4 & P4). rewrite E4. cbn [bind].
    destruct (IHse img4 Wse Fse Use C4) as (img5 & E5 & C5 & P5).
    exists img5. split; [exact E5|]. split; [exact C5|].
    intros X Y HX HY.
    rewrite (P5 X Y HX HY), (P4 X Y HX HY), (P3 X Y HX HY), (P2 X Y HX HY).
    destruct (P1 X Y HX HY) as [HA HB].
    clear P1 P2 P3 P4 P5 IHnw IHne IHsw IHse E1 E2 E3 E4 E5.
    remember (X / scale) as px. remember (Y / scale) as py.
    clear Heqpx Heqpy.
    shape_cases Hs.
    + cbn [isNull andb leaf_avg_at] in *.
      destruct (inside (px, py) (x0, y0, (x1, y1))); auto.
    + cbn [leaf_avg_at]; child_facts; use_facts; cbn [andb isNull leaf_avg_at].
      pose proof (leaf_avg_at_inside nw _ _ (px, py) Wnw Rnw) as Gnw.
      pose proof (leaf_avg_at_inside ne _ _ (px, py) Wne Rne) as Gne.
      pose proof (leaf_avg_at_inside sw _ _ (px, py) Wsw Rsw) as Gsw.
      pose proof (leaf_avg_at_inside se _ _ (px, py) Wse Rse) as Gse.
      clear HB. revert HA Gnw Gne Gsw Gse.
      place px x0 x1; place py y0 y1;
        destruct (Z_lt_le_dec px (x0 + sa)); destruct (Z_lt_le_dec py (y0 + sb));
        try (exfalso; lia);
        eval_inside; intros; settle_children; auto.
    + cbn [leaf_avg_at]; child_facts; use_facts; cbn [andb isNull leaf_avg_at].
      pose proof (leaf_avg_at_inside nw _ _ (px, py) Wnw Rnw) as Gnw.
      pose proof (leaf_avg_at_inside sw _ _ (px, py) Wsw Rsw) as Gsw.
      clear HB. revert HA Gnw Gsw.
      place px x0 x1; place py y0 y1;
        destruct (Z_lt_le_dec py (y0 + sb));
        try (exfalso; lia);
        eval_inside; intros; settle_children; auto.
    + cbn [leaf_avg_at]; child_facts; use_facts; cbn [andb isNull leaf_avg_at].
      pose proof (leaf_avg_at_inside ne _ _ (px, py) Wne Rne) as Gne.
      pose proof (leaf_avg_at_inside se _ _ (px, py) Wse Rse) as Gse.
      clear HB. revert HA Gne Gse.
      place px x0 x1; place py y0 y1;
        destruct (Z_lt_le_dec py (y0 + sb));
        try (exfalso; lia);
        eval_inside; intros; settle_children; auto.
    + cbn [leaf_avg_at]; child_facts; use_facts; cbn [andb isNull leaf_avg_at].
      pose proof (leaf_avg_at_inside nw _ _ (px, py) Wnw Rnw) as Gnw.
      pose proof (leaf_avg_at_inside ne _ _ (px, py) Wne Rne) as Gne.
      clear HB. revert HA Gnw Gne.
      place px x0 x1; place py y0 y1;
        destruct (Z_lt_le_dec px (x0 + sa));
        try (exfalso; lia);
        eval_inside; intros; settle_children; auto.
    + cbn [leaf_avg_at]; child_facts; use_facts; cbn [andb isNull leaf_avg_at].
      pose proof (leaf_avg_at_inside sw _ _ (px, py) Wsw Rsw) as Gsw.
      pose proof (leaf_avg_at_inside se _ _ (px, py) Wse Rse) as Gse.
      clear HB. revert HA Gsw Gse.
      place px x0 x1; place py y0 y1;
        destruct (Z_lt_le_dec px (x0 + sa));
        try (exfalso; lia);
        eval_inside; intros; settle_children; auto.
Qed.

Lemma Render_paints (t : QTree) (scale : Z) :
  tree_ok t -> 1 <= scale ->
  width t * scale < 4294967296 -> height t * scale < 4294967296 ->
  scale = 1 \/ unit_leaves (root t) ->
  exists out,
    Render t scale = Ok out /\
    canvas (width t * scale) (height t * scale) out /\
    forall X Y, 0 <= X < width t * scale -> 0 <= Y < height t * scale ->
      exists c, leaf_avg_at (root t) (X / scale, Y / scale) = Some c /\
                getPixel out X Y = Ok c.
Proof.
  intros Hok Hscale Hws Hhs Hunit. pose proof (tree_ok_bounds t Hok) as [Hw Hh].
  destruct Hok as [Hwf Hr]. unfold Render.
  assert (0 <= width t * scale) by (apply Z.mul_nonneg_nonneg; lia).
  assert (0 <= height t * scale) by (apply Z.mul_nonneg_nonneg; lia).
  unwrap.
  destruct (RenderPixel_paints (width t) (height t) scale Hscale Hws Hhs (root t)
              (PNG_new (width t * scale) (height t * scale)))
    as (out & E & C & P); try assumption.
  - eapply fits_has_rect; [eassumption | cbn [fst snd]; lia..].
  - unfold canvas, PNG_new. cbn [width_ height_ imageData_].
    rewrite repeat_length. auto.
  - exists out. split; [exact E|]. split; [exact C|].
    intros X Y HX HY. specialize (P X Y HX HY).
    pose proof (leaf_avg_at_inside (root t) _ _ (X / scale, Y / scale) Hwf Hr) as Hin.
    rewrite inside_in in Hin.
    + destruct (leaf_avg_at (root t) (X / scale, Y / scale)) as [c|];
        [|discriminate]. exists c. auto.
    + split; [apply Z.div_pos; lia|].
      assert (X / scale < width t) by (apply Z.div_lt_upper_bound; lia). lia.
    + split; [apply Z.div_pos; lia|].
      assert (Y / scale < height t) by (apply Z.div_lt_upper_bound; lia). lia.
Qed.

(** Two canvases of the same size with the same pixels are the same. *)
Lemma canvas_ext (w h : Z) (A B : PNG) :
  0 <= w -> 0 <= h -> canvas w h A -> canvas w h B ->
  (forall x y, 0 <= x < w -> 0 <= y < h -> getPixel A x y = getPixel B x y) ->
  A = B.
Proof.
  intros Hw Hh (Aw & Ah & Alen) (Bw & Bh & Blen) Hpix.
  destruct A as [aw ah ad], B as [bw bh bd]. cbn [width_ height_ imageData_] in *.
  subst aw ah bw bh. f_equal. apply nth_error_ext. intros n.
  destruct (Nat.lt_ge_cases n (Z.to_nat (w * h))) as [Hn|Hn].
  - assert (Hwpos : 0 < w) by nia.
    pose proof (Z.div_mod (Z.of_nat n) w ltac:(lia)) as Hdm.
    pose proof (Z.mod_pos_bound (Z.of_nat n) w Hwpos) as Hm.
    assert (Hq : 0 <= Z.of_nat n / w < h).
    { split; [apply Z.div_pos; lia|]. apply Z.div_lt_upper_bound; nia. }
    specialize (Hpix (Z.of_nat n mod w) (Z.of_nat n / w) Hm Hq).
    unfold getPixel, in_raster, pixel_index in Hpix.
    cbn [width_ height_ imageData_] in Hpix.
    replace (Z.to_nat (Z.of_nat n mod w + Z.of_nat n / w * w)) with n in Hpix by lia.
    replace (0 <=? Z.of_nat n mod w) with true in Hpix by (symmetry; apply Z.leb_le; lia).
    replace (Z.of_nat n mod w <? w) with true in Hpix by (symmetry; apply Z.ltb_lt; lia).
    replace (0 <=? Z.of_nat n / w) with true in Hpix by (symmetry; apply Z.leb_le; lia).
    replace (Z.of_nat n / w <? h) with true in Hpix by (symmetry; apply Z.ltb_lt; lia).
    cbn [andb] in Hpix.
    destruct (nth_error ad n) as [p|] eqn:Ea; destruct (nth_error bd n) as [q|] eqn:Eb;
      congruence.
  - assert (nth_error ad n = None) as -> by (apply nth_error_None; lia).
    symmetry. apply nth_error_None. lia.
Qed.

(** ** What the builder leaves at the leaves *)

Lemma built_unit_leaves (img : PNG) (t : NodePtr) :
  wf t -> split_rule img t -> unit_leaves t.
Proof.
  induction t as [|ul lr a nw IHnw ne IHne sw IHsw se IHse]; intros Hwf Hs;
    [exact I|].
  cbn [unit_leaves]. split.
  - intros Hleaf. apply all_null in Hleaf. destruct Hleaf as (-> & -> & -> & ->).
    eapply split_rule_leaf; [apply Hwf | exact Hs].
  - destruct Hwf as (_ & _ & Wnw & Wne & Wsw & Wse).
    cbn [split_rule] in Hs. destruct Hs as (_ & _ & _ & _ & Snw & Sne & Ssw & Sse).
    auto.
Qed.

Lemma built_leaf_pixels (img : PNG) (t : NodePtr) :
  wf t -> split_rule img t ->
  forall x y c, leaf_avg_at t (x, y) = Some c -> getPixel img x y = Ok c.
Proof.
  induction t as [|ul lr a nw IHnw ne IHne sw IHsw se IHse]; intros Hwf Hs x y c Hc;
    [discriminate|].
  cbn [leaf_avg_at] in Hc.
  destruct (isNull nw && isNull ne && isNull sw && isNull se) eqn:Hleaf.
  - apply all_null in Hleaf. destruct Hleaf as (-> & -> & -> & ->).
    destruct (split_rule_leaf img ul lr a) as [<- Hpix]; [apply Hwf | exact Hs |].
    destruct ul as [x0 y0]. cbn [fst snd] in Hpix.
    destruct (inside (x, y) (x0, y0, (x0, y0))) eqn:Hin; [|discriminate].
    apply inside_true in Hin. inversion Hc; subst c.
    replace x with x0 by lia. replace y with y0 by lia. exact Hpix.
  - destruct Hwf as (_ & _ & Wnw & Wne & Wsw & Wse).
    cbn [split_rule] in Hs. destruct Hs as (_ & _ & _ & _ & Snw & Sne & Ssw & Sse).
    destruct (leaf_avg_at nw (x, y)) eqn:E1; [inversion Hc; subst; eauto|].
    destruct (leaf_avg_at ne (x, y)) eqn:E2; [inversion Hc; subst; eauto|].
    destruct (leaf_avg_at sw (x, y)) eqn:E3; [inversion Hc; subst; eauto|].
    eauto.
Qed.

(** ** What flips and rotations do to the picture *)

Ltac inside_agree :=
  match goal with
  | |- context [inside ?p ?r] =>
      let E := fresh "E" in
      destruct (inside p r) eqn:E;
      match goal with
      | |- context [inside ?q ?s] =>
          let E' := fresh "E" in
          destruct (inside q s) eqn:E'
      end
  end;
  try reflexivity; exfalso;
  repeat match goal with
         | E : inside _ _ = true |- _ => apply inside_true in E
         | E : inside _ _ = false |- _ => apply inside_false in E
         end;
  lia.

(** The flipped subtree has, at a position, the leaf the subtree had at the
    mirrored position. *)
Lemma leaf_avg_at_flipped (t : NodePtr) :
  forall nul nlr oul olr x y qx qy,
    wf t -> has_rect t oul olr -> rect_ok nul nlr -> same_size t nul nlr ->
    qx = fst oul + (fst nlr - x) -> qy = snd oul + (y - snd nul) ->
    leaf_avg_at (flipped nul nlr t) (x, y) = leaf_avg_at t (qx, qy).
Proof.
  induction t as [|[x0' y0'] [x1' y1'] a nw IHnw ne IHne sw IHsw se IHse];
    intros [x0 y0] [x1 y1] oul olr x y qx qy Hwf Hr Hok Hsz Hqx Hqy;
    [reflexivity|].
  unfold has_rect in Hr. simpl in Hr. inversion Hr; subst oul olr; clear Hr.
  destruct Hwf as (Hok' & Hs & Wnw & Wne & Wsw & Wse).
  unfold rect_ok in Hok, Hok'. cbn [fst snd same_size] in *.
  rewrite flipped_unfold.
  shape_cases Hs; child_facts; flipped_facts; cbn [leaf_avg_at];
    rewrite ?isNull_flipped; use_facts; cbn [andb isNull];
    [ inside_agree | ..];
    repeat match goal with
      | W : wf ?c, R : has_rect ?c _ _,
        IH : forall nul nlr oul olr x y qx qy, wf ?c -> _ |- _ =>
          rewrite (IH _ _ _ _ x y qx qy W R);
          [ clear IH
          | solve_rect_ok | solve_same_size
          | cbn [fst snd]; lia | cbn [fst snd]; lia ]
      end;
    repeat match goal with
      | W : wf ?c, R : has_rect ?c _ _ |- _ =>
          let G := fresh "G" in
          pose proof (leaf_avg_at_inside c _ _ (qx, qy) W R) as G;
          clear W; revert G
      end;
    place qx x0' x1'; place qy y0' y1';
    try (destruct (Z_lt_le_dec qx (x0' + sa)));
    try (destruct (Z_lt_le_dec qy (y0' + sb)));
    try (exfalso; lia);
    eval_inside; intros; settle_children; reflexivity.
Qed.

(** The rotated subtree has, at a position, the leaf the subtree had at the
    position a quarter turn back. *)
Lemma leaf_avg_at_rotated (t : NodePtr) :
  forall nul nlr oul olr x y qx qy,
    wf t -> has_rect t oul olr -> rect_ok nul nlr -> swapped_size t nul nlr ->
    qx = fst oul + (snd nlr - y) -> qy = snd oul + (x - fst nul) ->
    leaf_avg_at (rotated nul nlr t) (x, y) = leaf_avg_at t (qx, qy).
Proof.
  induction t as [|[x0' y0'] [x1' y1'] a nw IHnw ne IHne sw IHsw se IHse];
    intros [x0 y0] [x1 y1] oul olr x y qx qy Hwf Hr Hok Hsz Hqx Hqy;
    [reflexivity|].
  unfold has_rect in Hr. simpl in Hr. inversion Hr; subst oul olr; clear Hr.
  destruct Hwf as (Hok' & Hs & Wnw & Wne & Wsw & Wse).
  unfold rect_ok in Hok, Hok'. cbn [fst snd swapped_size] in *.
  rewrite rotated_unfold.
  shape_cases Hs; child_facts; rotated_facts; cbn [leaf_avg_at];
    rewrite ?isNull_rotated; use_facts; cbn [andb isNull];
    [ inside_agree | ..];
    repeat match goal with
      | W : wf ?c, R : has_rect ?c _ _,
        IH : forall nul nlr oul olr x y qx qy, wf ?c -> _ |- _ =>
          rewrite (IH _ _ _ _ x y qx qy W R);
          [ clear IH
          | solve_rect_ok | solve_swapped_size
          | cbn [fst snd]; lia | cbn [fst snd]; lia ]
      end;
    repeat match goal with
      | W : wf ?c, R : has_rect ?c _ _ |- _ =>
          let G := fresh "G" in
          pose proof (leaf_avg_at_inside c _ _ (qx, qy) W R) as G;
          clear W; revert G
      end;
    place qx x0' x1'; place qy y0' y1';
    try (destruct (Z_lt_le_dec qx (x0' + sa)));
    try (destruct (Z_lt_le_dec qy (y0' + sb)));
    try (exfalso; lia);
    eval_inside; intros; settle_children; reflexivity.
Qed.

Lemma unit_leaves_flipped (t : NodePtr) :
  forall ul lr,
    wf t -> same_size t ul lr -> unit_leaves t -> unit_leaves (flipped ul lr t).
Proof.
  induction t as [|[x0' y0'] [x1' y1'] a nw IHnw ne IHne sw IHsw se IHse];
    intros [x0 y0] [x1 y1] Hwf Hsz Hunit; [exact I|].
  destruct Hwf as (Hok' & Hs & Wnw & Wne & Wsw & Wse).
  cbn [unit_leaves] in Hunit. destruct Hunit as (Hleaf & Unw & Une & Usw & Use).
  unfold rect_ok in Hok'. cbn [fst snd same_size] in *.
  rewrite flipped_unfold.
  shape_cases Hs; child_facts; flipped_facts; cbn [unit_leaves];
    rewrite ?isNull_flipped; use_facts; cbn [andb isNull];
    [ specialize (Hleaf eq_refl); inversion Hleaf; subst;
      repeat split; auto; intros _; apply pair_eq; lia | ..];
    (split; [discriminate|]);
    repeat split;
    try exact I;
    match goal with
    | IH : forall ul lr, wf ?c -> _ |- unit_leaves (flipped _ _ ?c) =>
        apply IH; [assumption | solve_same_size | assumption]
    end.
Qed.

Lemma unit_leaves_rotated (t : NodePtr) :
  forall ul lr,
    wf t -> swapped_size t ul lr -> unit_leaves t -> unit_leaves (rotated ul lr t).
Proof.
  induction t as [|[x0' y0'] [x1' y1'] a nw IHnw ne IHne sw IHsw se IHse];
    intros [x0 y0] [x1 y1] Hwf Hsz Hunit; [exact I|].
  destruct Hwf as (Hok' & Hs & Wnw & Wne & Wsw & Wse).
  cbn [unit_leaves] in Hunit. destruct Hunit as (Hleaf & Unw & Une & Usw & Use).
  unfold rect_ok in Hok'. cbn [fst snd swapped_size] in *.
  rewrite rotated_unfold.
  shape_cases Hs; child_facts; rotated_facts; cbn [unit_leaves];
    rewrite ?isNull_rotated; use_facts; cbn [andb isNull];
    [ specialize (Hleaf eq_refl); inversion Hleaf; subst;
      repeat split; auto; intros _; apply pair_eq; lia | ..];
    (split; [discriminate|]);
    repeat split;
    try exact I;
    match goal with
    | IH : forall ul lr, wf ?c -> _ |- unit_leaves (rotated _ _ ?c) =>
        apply IH; [assumption | solve_swapped_size | assumption]
    end.
Qed.

Section NeverPruned.
Context {metric : PixelMetric}.

(** No operation of the list is a prune. *)
Definition never_pruned (ops : list operation) : Prop :=
  Forall (fun op => match op with OpPrune _ => False | _ => True end) ops.

Lemma run_unit_leaves (ops : list operation) :
  never_pruned ops ->
  forall t, tree_ok t -> unit_leaves (root t) ->
    exists t', run ops t = Ok t' /\ tree_ok t' /\ unit_leaves (root t').
Proof.
  induction 1 as [|op rest Hop _ IH]; intros t Hok Hunit.
  - exists t. auto.
  - cbn [run]. destruct op as [tolerance| |]; [contradiction| |];
      cbn [apply_operation].
    + rewrite (FlipHorizontal_flipped t Hok). cbn [bind]. apply IH.
      * apply FlipHorizontal_ok. exact Hok.
      * cbn [root]. destruct Hok as [Hwf Hr].
        apply unit_leaves_flipped; [assumption | apply same_size_refl; assumption
                                   | assumption].
    + rewrite (RotateCCW_rotated t Hok). cbn [bind]. apply IH.
      * apply RotateCCW_ok. exact Hok.
      * cbn [root]. destruct Hok as [Hwf Hr].
        apply unit_leaves_rotated;
          [assumption
          | eapply swapped_size_has_rect; [eassumption | cbn [fst snd]; lia..]
          | assumption].
Qed.

Lemma lifecycle_unit_leaves (img : PNG) (ops : list operation) :
  valid_image img -> never_pruned ops ->
  exists t, lifecycle img ops = Ok t /\ tree_ok t /\ unit_leaves (root t).
Proof.
  intros Himg Hnp. destruct (QTree_new_ok img Himg) as (t0 & E0 & Hok0 & Hb).
  unfold lifecycle. rewrite E0. cbn [bind]. apply run_unit_leaves; try assumption.
  eapply built_unit_leaves; apply Hb.
Qed.

End NeverPruned.

Lemma canvas_block_replicate (w h k : Z) (img : PNG) :
  canvas w h img -> canvas (w * k) (h * k) (block_replicate k img).
Proof.
  intros (Hw & Hh & Hlen). unfold canvas, block_replicate.
  cbn [width_ height_ imageData_]. rewrite Hw, Hh.
  rewrite length_map, length_seq. auto.
Qed.

Lemma getPixel_block_replicate (w h k : Z) (img : PNG) :
  canvas w h img -> 0 < k -> 0 <= w -> 0 <= h ->
  forall X Y, 0 <= X < w * k -> 0 <= Y < h * k ->
    getPixel (block_replicate k img) X Y = getPixel img (X / k) (Y / k).
Proof.
  intros Hc Hk Hw0 Hh0 X Y HX HY.
  assert (Hxk : 0 <= X / k < w).
  { split; [apply Z.div_pos; lia | apply Z.div_lt_upper_bound; lia]. }
  assert (Hyk : 0 <= Y / k < h).
  { split; [apply Z.div_pos; lia | apply Z.div_lt_upper_bound; lia]. }
  destruct (getPixel_canvas w h img (X / k) (Y / k) Hc Hxk Hyk) as (c & Ec).
  rewrite Ec. destruct Hc as (Hw & Hh & Hlen).
  unfold getPixel, in_raster in Ec. rewrite Hw, Hh in Ec.
  replace (0 <=? X / k) with true in Ec by (symmetry; apply Z.leb_le; lia).
  replace (X / k <? w) with true in Ec by (symmetry; apply Z.ltb_lt; lia).
  replace (0 <=? Y / k) with true in Ec by (symmetry; apply Z.leb_le; lia).
  replace (Y / k <? h) with true in Ec by (symmetry; apply Z.ltb_lt; lia).
  cbn [andb] in Ec. unfold pixel_index in Ec. rewrite Hw in Ec.
  destruct (nth_error (imageData_ img) (Z.to_nat (X / k + Y / k * w))) as [p|] eqn:En;
    [|discriminate].
  inversion Ec; subst p; clear Ec.
  unfold getPixel, in_raster, block_replicate, pixel_index.
  cbn [width_ height_ imageData_]. rewrite Hw, Hh.
  replace (0 <=? X) with true by (symmetry; apply Z.leb_le; lia).
  replace (X <? w * k) with true by (symmetry; apply Z.ltb_lt; lia).
  replace (0 <=? Y) with true by (symmetry; apply Z.leb_le; lia).
  replace (Y <? h * k) with true by (symmetry; apply Z.ltb_lt; lia).
  cbn [andb].
  assert (Hidx : (Z.to_nat (X + Y * (w * k)) < Z.to_nat (w * k * (h * k)))%nat) by nia.
  rewrite nth_error_map, nth_error_seq.
  apply Nat.ltb_lt in Hidx. rewrite Hidx. cbn [option_map Nat.add].
  f_equal.
  assert (Hxy : 0 <= X + Y * (w * k)) by nia.
  rewrite Z2Nat.id by exact Hxy.
  rewrite Z.mod_add by lia. rewrite (Z.mod_small X (w * k)) by lia.
  rewrite Z.div_add by lia. rewrite (Z.div_small X (w * k)) by lia.
  cbn [Z.add].
  apply nth_error_nth. exact En.
Qed.

(** ** Pruning and the transforms *)

Section PruneTransforms.
Context {metric : PixelMetric}.

Lemma isNull_pruned (t : NodePtr) (tolerance : double) :
  isNull (pruned t tolerance) = isNull t.
Proof.
  destruct t as [|ul lr a nw ne sw se]; [reflexivity|].
  cbn [pruned]. destruct (isLeaf _); [reflexivity|].
  destruct (qualifies _ _); reflexivity.
Qed.

Lemma node_width_pruned (t : NodePtr) (tolerance : double) :
  node_width (pruned t tolerance) = node_width t.
Proof.
  destruct t as [|ul lr a nw ne sw se]; [reflexivity|].
  cbn [pruned]. destruct (isLeaf _); [reflexivity|].
  destruct (qualifies _ _); reflexivity.
Qed.

Lemma node_height_pruned (t : NodePtr) (tolerance : double) :
  node_height (pruned t tolerance) = node_height t.
Proof.
  destruct t as [|ul lr a nw ne sw se]; [reflexivity|].
  cbn [pruned]. destruct (isLeaf _); [reflexivity|].
  destruct (qualifies _ _); reflexivity.
Qed.

Lemma forallb_leaf_colors_flipped (f : RGBAPixel -> bool) (t : NodePtr) :
  forall ul lr,
    forallb f (leaf_colors (flipped ul lr t)) = forallb f (leaf_colors t).
Proof.
  induction t as [|ul' lr' a nw IHnw ne IHne sw IHsw se IHse]; intros ul lr;
    [reflexivity|].
  rewrite flipped_unfold.
  destruct (isNull nw && isNull ne && isNull sw && isNull se) eqn:E.
  - apply all_null in E. destruct E as (-> & -> & -> & ->). reflexivity.
  - cbv zeta. cbn [leaf_colors]. rewrite !isNull_flipped.
    replace (isNull ne && isNull nw && isNull se && isNull sw) with false
      by (rewrite <- E; destruct (isNull nw), (isNull ne), (isNull sw), (isNull se);
          reflexivity).
    rewrite E, !forallb_app, IHnw, IHne, IHsw, IHse.
    destruct (forallb f (leaf_colors nw)), (forallb f (leaf_colors ne)),
      (forallb f (leaf_colors sw)), (forallb f (leaf_colors se)); reflexivity.
Qed.

Lemma forallb_leaf_colors_rotated (f : RGBAPixel -> bool) (t : NodePtr) :
  forall ul lr,
    forallb f (leaf_colors (rotated ul lr t)) = forallb f (leaf_colors t).
Proof.
  induction t as [|ul' lr' a nw IHnw ne IHne sw IHsw se IHse]; intros ul lr;
    [reflexivity|].
  rewrite rotated_unfold.
  destruct (isNull nw && isNull ne && isNull sw && isNull se) eqn:E.
  - apply all_null in E. destruct E as (-> & -> & -> & ->). reflexivity.
  - cbv zeta. cbn [leaf_colors]. rewrite !isNull_rotated.
    replace (isNull ne && isNull se && isNull nw && isNull sw) with false
      by (rewrite <- E; destruct (isNull nw), (isNull ne), (isNull sw), (isNull se);
          reflexivity).
    rewrite E, !forallb_app, IHnw, IHne, IHsw, IHse.
    destruct (forallb f (leaf_colors nw)), (forallb f (leaf_colors ne)),
      (forallb f (leaf_colors sw)), (forallb f (leaf_colors se)); reflexivity.
Qed.

Lemma avg_of_flipped (ul lr : point) (t : NodePtr) :
  avg_of (flipped ul lr t) = avg_of t.
Proof.
  destruct t as [|ul' lr' a nw ne sw se]; [reflexivity|].
  rewrite flipped_unfold.
  destruct (isNull nw && isNull ne && isNull sw && isNull se); reflexivity.
Qed.

Lemma avg_of_rotated (ul lr : point) (t : NodePtr) :
  avg_of (rotated ul lr t) = avg_of t.
Proof.
  destruct t as [|ul' lr' a nw ne sw se]; [reflexivity|].
  rewrite rotated_unfold.
  destruct (isNull nw && isNull ne && isNull sw && isNull se); reflexivity.
Qed.

Lemma qualifies_flipped (ul lr : point) (t : NodePtr) (tolerance : double) :
  qualifies (flipped ul lr t) tolerance = qualifies t tolerance.
Proof.
  unfold qualifies. rewrite avg_of_flipped. apply forallb_leaf_colors_flipped.
Qed.

Lemma qualifies_rotated (ul lr : point) (t : NodePtr) (tolerance : double) :
  qualifies (rotated ul lr t) tolerance = qualifies t tolerance.
Proof.
  unfold qualifies. rewrite avg_of_rotated. apply forallb_leaf_colors_rotated.
Qed.

Lemma pruned_flipped (t : NodePtr) (tolerance : double) :
  forall ul lr,
    pruned (flipped ul lr t) tolerance = flipped ul lr (pruned t tolerance).
Proof.
  induction t as [|ul' lr' a nw IHnw ne IHne sw IHsw se IHse]; intros ul lr;
    [reflexivity|].
  pose proof (qualifies_flipped ul lr (node ul' lr' a nw ne sw se) tolerance) as HQ.
  rewrite flipped_unfold in *. cbn [pruned isLeaf].
  destruct (isNull nw && isNull ne && isNull sw && isNull se) eqn:E.
  - apply all_null in E. destruct E as (-> & -> & -> & ->). reflexivity.
  - cbv zeta in *. cbn [pruned isLeaf]. rewrite !isNull_flipped.
    replace (isNull ne && isNull nw && isNull se && isNull sw) with false
      by (rewrite <- E; destruct (isNull nw), (isNull ne), (isNull sw), (isNull se);
          reflexivity).
    rewrite HQ.
    destruct (qualifies (node ul' lr' a nw ne sw se) tolerance).
    + reflexivity.
    + rewrite flipped_unfold, !isNull_pruned, E.
      rewrite !node_width_pruned, !node_height_pruned. cbv zeta.
      rewrite IHnw, IHne, IHsw, IHse. reflexivity.
Qed.

Lemma pruned_rotated (t : NodePtr) (tolerance : double) :
  forall ul lr,
    pruned (rotated ul lr t) tolerance = rotated ul lr (pruned t tolerance).
Proof.
  induction t as [|ul' lr' a nw IHnw ne IHne sw IHsw se IHse]; intros ul lr;
    [reflexivity|].
  pose proof (qualifies_rotated ul lr (node ul' lr' a nw ne sw se) tolerance) as HQ.
  rewrite rotated_unfold in *. cbn [pruned isLeaf].
  destruct (isNull nw && isNull ne && isNull sw && isNull se) eqn:E.
  - apply all_null in E. destruct E as (-> & -> & -> & ->). reflexivity.
  - cbv zeta in *. cbn [pruned isLeaf]. rewrite !isNull_rotated.
    replace (isNull ne && isNull se && isNull nw && isNull sw) with false
      by (rewrite <- E; destruct (isNull nw), (isNull ne), (isNull sw), (isNull se);
          reflexivity).
    rewrite HQ.
    destruct (qualifies (node ul' lr' a nw ne sw se) tolerance).
    + reflexivity.
    + rewrite rotated_unfold, !isNull_pruned, E.
      rewrite !node_width_pruned, !node_height_pruned. cbv zeta.
      rewrite IHnw, IHne, IHsw, IHse. reflexivity.
Qed.

Lemma leaf_avg_at_in_colors (t : NodePtr) (p : point) (c : RGBAPixel) :
  leaf_avg_at t p = Some c -> In c (leaf_colors t).
Proof.
  induction t as [|ul lr a nw IHnw ne IHne sw IHsw se IHse]; [discriminate|].
  cbn [leaf_avg_at leaf_colors].
  destruct (isNull nw && isNull ne && isNull sw && isNull se).
  - destruct (inside p (ul, lr)); [|discriminate].
    intros H. inversion H. left. reflexivity.
  - rewrite !in_app_iff.
    destruct (leaf_avg_at nw p); [intros H; inversion H; subst; auto|].
    destruct (leaf_avg_at ne p); [intros H; inversion H; subst; auto|].
    destruct (leaf_avg_at sw p); [intros H; inversion H; subst; auto|].
    auto.
Qed.

Lemma is_some_pruned (t : NodePtr) (tolerance : double) (p : point) :
  wf t ->
  is_some (leaf_avg_at (pruned t tolerance) p) = is_some (leaf_avg_at t p).
Proof.
  intros Hwf. destruct t as [|ul lr a nw ne sw se]; [reflexivity|].
  rewrite (leaf_avg_at_inside (node ul lr a nw ne sw se) ul lr p Hwf eq_refl).
  apply leaf_avg_at_inside.
  - apply wf_pruned. exact Hwf.
  - unfold has_rect. rewrite rectOf_pruned. reflexivity.
Qed.

(** Where a leaf of the pruned subtree replaces a leaf of the subtree, the
    old leaf's colour is the same or within the tolerance of the new one. *)
Lemma pruned_leaf_close (t : NodePtr) (tolerance : double) :
  wf t ->
  forall p c c',
    leaf_avg_at t p = Some c -> leaf_avg_at (pruned t tolerance) p = Some c' ->
    c' = c \/ double_le (distanceTo c c') tolerance = true.
Proof.
  induction t as [|ul lr a nw IHnw ne IHne sw IHsw se IHse]; intros Hwf p c c' H1 H2;
    [discriminate|].
  cbn [pruned] in H2.
  destruct (isLeaf (node ul lr a nw ne sw se)) eqn:L.
  { left. congruence. }
  destruct (qualifies (node ul lr a nw ne sw se) tolerance) eqn:Q.
  - right. cbn [leaf_avg_at isNull andb] in H2.
    destruct (inside p (ul, lr)); [|discriminate]. inversion H2; subst c'.
    unfold qualifies in Q. rewrite forallb_forall in Q.
    apply (Q c). eapply leaf_avg_at_in_colors. exact H1.
  - destruct Hwf as (_ & _ & Wnw & Wne & Wsw & Wse).
    cbn [isLeaf] in L. cbn [leaf_avg_at] in H1, H2.
    rewrite !isNull_pruned, L in H2. rewrite L in H1.
    pose proof (is_some_pruned nw tolerance p Wnw) as Gnw.
    pose proof (is_some_pruned ne tolerance p Wne) as Gne.
    pose proof (is_some_pruned sw tolerance p Wsw) as Gsw.
    destruct (leaf_avg_at nw p) eqn:E1;
      destruct (leaf_avg_at (pruned nw tolerance) p) eqn:E1';
      try discriminate Gnw.
    { inversion H1; inversion H2; subst. eapply IHnw; eauto. }
    destruct (leaf_avg_at ne p) eqn:E2;
      destruct (leaf_avg_at (pruned ne tolerance) p) eqn:E2';
      try discriminate Gne.
    { inversion H1; inversion H2; subst. eapply IHne; eauto. }
    destruct (leaf_avg_at sw p) eqn:E3;
      destruct (leaf_avg_at (pruned sw tolerance) p) eqn:E3';
      try discriminate Gsw.
    { inversion H1; inversion H2; subst. eapply IHsw; eauto. }
    eapply IHse; eauto.
Qed.

Lemma node_count_pruned_le (t : NodePtr) (tolerance : double) :
  (node_count (pruned t tolerance) <= node_count t)%nat.
Proof.
  induction t as [|ul lr a nw IHnw ne IHne sw IHsw se IHse]; [simpl; lia|].
  cbn [pruned]. destruct (isLeaf _); [lia|].
  destruct (qualifies _ _); cbn [node_count]; lia.
Qed.

End PruneTransforms.

(** ** Counting leaves *)

Lemma unit_leaves_count (t : NodePtr) :
  wf t -> unit_leaves t -> Z.of_nat (List.length (leaves t)) = pixel_area t.
Proof.
  induction t as [|[x0 y0] [x1 y1] a nw IHnw ne IHne sw IHsw se IHse];
    intros Hwf Hunit; [reflexivity|].
  destruct Hwf as (Hok & Hs & Wnw & Wne & Wsw & Wse).
  cbn [unit_leaves] in Hunit. destruct Hunit as (Hleaf & Unw & Une & Usw & Use).
  specialize (IHnw Wnw Unw). specialize (IHne Wne Une).
  specialize (IHsw Wsw Usw). specialize (IHse Wse Use).
  cbn [leaves pixel_area fst snd].
  shape_cases Hs.
  - cbn [isNull andb] in *. specialize (Hleaf eq_refl). inversion Hleaf; subst.
    cbn [List.length]. lia.
  - child_facts; use_facts; cbn [andb]. rewrite !length_app, !Nat2Z.inj_add.
    rewrite IHnw, IHne, IHsw, IHse. expose_children. cbn [pixel_area fst snd]. ring.
  - child_facts; use_facts; cbn [andb isNull leaves app].
    rewrite !length_app, !Nat2Z.inj_add.
    rewrite IHnw, IHsw. expose_children. cbn [pixel_area fst snd List.length]. ring.
  - child_facts; use_facts; cbn [andb isNull leaves app].
    rewrite !length_app, !Nat2Z.inj_add.
    rewrite IHne, IHse. expose_children. cbn [pixel_area fst snd List.length]. ring.
  - child_facts; use_facts; cbn [andb isNull leaves app].
    rewrite !length_app, !Nat2Z.inj_add.
    rewrite IHnw, IHne. expose_children. cbn [pixel_area fst snd List.length]. ring.
  - child_facts; use_facts; cbn [andb isNull leaves app].
    rewrite !length_app, !Nat2Z.inj_add.
    rewrite IHsw, IHse. expose_children. cbn [pixel_area fst snd List.length]. ring.
Qed.

(** ** Copies, empty trees and the scale 0 *)

Lemma CopyNode_same (t : NodePtr) : CopyNode t = t.
Proof.
  induction t as [|ul lr a nw IHnw ne IHne sw IHsw se IHse]; [reflexivity|].
  cbn [CopyNode]. cbv zeta. rewrite IHnw, IHne, IHsw, IHse. reflexivity.
Qed.

Lemma ClearSubtree_null (t : NodePtr) : ClearSubtree t = nullptr.
Proof. destruct t; reflexivity. Qed.

Lemma RenderPixel_scale_0 (t : NodePtr) :
  forall img, RenderPixel img t 0 = Ok img.
Proof.
  induction t as [|ul lr a nw IHnw ne IHne sw IHsw se IHse]; intros img;
    [reflexivity|].
  cbn [RenderPixel Z.eqb]. rewrite for_loop_done by lia. cbn [bind].
  rewrite IHnw. cbn [bind]. rewrite IHne. cbn [bind]. rewrite IHsw. cbn [bind].
  apply IHse.
Qed.

(** ** Trees in memory *)

(** [repr m p t F]: in the memory [m] the pointer [p] leads to the tree
    [t], node for node, and [F] lists the cells of its nodes: the root, then
    the cells of the NW, NE, SW and SE subtrees. *)
Fixpoint repr (m : Store.memory) (p : Store.ptr) (t : NodePtr)
         (F : list Store.addr) : Prop :=
  match t with
  | nullptr => p = None /\ F = []
  | node ul lr a nw ne sw se =>
      exists o n Fnw Fne Fsw Fse,
        p = Some o /\ Store.cell m o = Some n /\
        Store.upLeft n = ul /\ Store.lowRight n = lr /\ Store.avg n = a /\
        repr m (Store.NW n) nw Fnw /\ repr m (Store.NE n) ne Fne /\
        repr m (Store.SW n) sw Fsw /\ repr m (Store.SE n) se Fse /\
        F = o :: Fnw ++ Fne ++ Fsw ++ Fse
  end.

(** A tree that owns its nodes: no cell is reached twice. *)
Definition owns (m : Store.memory) (p : Store.ptr) (t : NodePtr)
           (F : list Store.addr) : Prop :=
  repr m p t F /\ NoDup F.

Lemma cell_live_lt (m : Store.memory) (a : Store.addr) :
  Store.cell m a <> None -> (a < List.length m)%nat.
Proof.
  unfold Store.cell. intros H. apply nth_error_Some.
  destruct (nth_error m a); congruence.
Qed.

Lemma cell_list_set (m : Store.memory) (a q : Store.addr) (v : option Store.Node) :
  (a < List.length m)%nat ->
  Store.cell (list_set m a v) q = if (q =? a)%nat then v else Store.cell m q.
Proof.
  intros Ha. unfold Store.cell. rewrite nth_error_list_set by assumption.
  destruct (q =? a)%nat; reflexivity.
Qed.

Lemma write_live (m : Store.memory) (a : Store.addr) (s : Store.slot)
      (v : Store.ptr) (n : Store.Node) :
  Store.cell m a = Some n ->
  exists m',
    Store.write m a s v = Ok m' /\
    Store.cell m' a = Some (Store.set_slot s v n) /\
    forall q, q <> a -> Store.cell m' q = Store.cell m q.
Proof.
  intros Ha. assert (Hlt : (a < List.length m)%nat)
    by (apply cell_live_lt; congruence).
  unfold Store.write, Store.load. rewrite Ha. cbn [bind].
  eexists. split; [reflexivity|]. split.
  - rewrite cell_list_set by assumption. rewrite Nat.eqb_refl. reflexivity.
  - intros q Hq. rewrite cell_list_set by assumption.
    destruct (Nat.eqb_spec q a); [contradiction | reflexivity].
Qed.

Lemma delete_live (m : Store.memory) (a : Store.addr) (n : Store.Node) :
  Store.cell m a = Some n ->
  exists m',
    Store.delete m a = Ok m' /\
    Store.cell m' a = None /\
    forall q, q <> a -> Store.cell m' q = Store.cell m q.
Proof.
  intros Ha. assert (Hlt : (a < List.length m)%nat)
    by (apply cell_live_lt; congruence).
  unfold Store.delete. rewrite Ha.
  eexists. split; [reflexivity|]. split.
  - rewrite cell_list_set by assumption. rewrite Nat.eqb_refl. reflexivity.
  - intros q Hq. rewrite cell_list_set by assumption.
    destruct (Nat.eqb_spec q a); [contradiction | reflexivity].
Qed.

Lemma repr_live (t : NodePtr) :
  forall m p F, repr m p t F -> forall q, In q F -> Store.cell m q <> None.
Proof.
  induction t as [|ul lr a nw IHnw ne IHne sw IHsw se IHse]; intros m p F H q Hq.
  - destruct H as [_ ->]. destruct Hq.
  - destruct H as (o & n & Fnw & Fne & Fsw & Fse & _ & Ho & _ & _ & _ &
                   Hnw & Hne & Hsw & Hse & ->).
    cbn [In] in Hq. rewrite !in_app_iff in Hq.
    destruct Hq as [<- | [Hq | [Hq | [Hq | Hq]]]]; [congruence | eauto ..].
Qed.

Lemma repr_agree (t : NodePtr) :
  forall m m' p F, repr m p t F ->
    (forall q, In q F -> Store.cell m' q = Store.cell m q) -> repr m' p t F.
Proof.
  induction t as [|ul lr a nw IHnw ne IHne sw IHsw se IHse]; intros m m' p F H Hag.
  - exact H.
  - destruct H as (o & n & Fnw & Fne & Fsw & Fse & Hp & Ho & Hul & Hlr & Ha &
                   Hnw & Hne & Hsw & Hse & ->).
    exists o, n, Fnw, Fne, Fsw, Fse.
    split; [exact Hp|]. split; [rewrite Hag; [exact Ho | left; reflexivity]|].
    do 3 (split; [assumption|]).
    split; [eapply IHnw; [exact Hnw|]|].
    { intros q Hq. apply Hag. cbn [In]. rewrite !in_app_iff. auto. }
    split; [eapply IHne; [exact Hne|]|].
    { intros q Hq. apply Hag. cbn [In]. rewrite !in_app_iff. auto. }
    split; [eapply IHsw; [exact Hsw|]|].
    { intros q Hq. apply Hag. cbn [In]. rewrite !in_app_iff. auto. }
    split; [eapply IHse; [exact Hse|]|reflexivity].
    intros q Hq. apply Hag. cbn [In]. rewrite !in_app_iff. auto.
Qed.

Lemma repr_depth (t : NodePtr) :
  forall m p F, repr m p t F -> (depth t <= List.length F)%nat.
Proof.
  induction t as [|ul lr a nw IHnw ne IHne sw IHsw se IHse]; intros m p F H.
  - cbn [depth]. lia.
  - destruct H as (o & n & Fnw & Fne & Fsw & Fse & _ & _ & _ & _ & _ &
                   Hnw & Hne & Hsw & Hse & ->).
    specialize (IHnw _ _ _ Hnw). specialize (IHne _ _ _ Hne).
    specialize (IHsw _ _ _ Hsw). specialize (IHse _ _ _ Hse).
    cbn [depth List.length]. rewrite !length_app. lia.
Qed.

Lemma live_cells_bound (m : Store.memory) (F : list Store.addr) :
  NoDup F -> (forall q, In q F -> Store.cell m q <> None) ->
  (List.length F <= List.length m)%nat.
Proof.
  intros Hnd Hlive.
  rewrite <- (length_seq (List.length m) 0).
  apply NoDup_incl_length; [exact Hnd|].
  intros q Hq. apply in_seq. pose proof (cell_live_lt m q (Hlive q Hq)). lia.
Qed.

Lemma owns_fuel (m : Store.memory) (p : Store.ptr) (t : NodePtr)
      (F : list Store.addr) :
  owns m p t F -> (depth t < S (List.length m))%nat.
Proof.
  intros [Hr Hnd]. pose proof (repr_depth t m p F Hr).
  pose proof (live_cells_bound m F Hnd (repr_live t m p F Hr)). lia.
Qed.

(** ** Memory that only grows *)

(** From [m] to [m'] exactly the cells [A] were allocated, and no node that
    was live in [m] was touched. *)
Record grows (m m' : Store.memory) (A : list Store.addr) : Prop := mkGrows {
  grows_nodup : NoDup A;
  grows_fresh : forall q, In q A -> Store.cell m q = None;
  grows_live : forall q, In q A -> Store.cell m' q <> None;
  grows_kept : forall q, Store.cell m q <> None -> Store.cell m' q = Store.cell m q;
  grows_only : forall q, Store.cell m' q <> None -> Store.cell m q <> None \/ In q A
}.

Lemma grows_refl (m : Store.memory) : grows m m [].
Proof.
  constructor.
  - constructor.
  - intros q [].
  - intros q [].
  - reflexivity.
  - auto.
Qed.

Lemma grows_trans (m m1 m2 : Store.memory) (A1 A2 : list Store.addr) :
  grows m m1 A1 -> grows m1 m2 A2 -> grows m m2 (A1 ++ A2).
Proof.
  intros [N1 F1 L1 K1 O1] [N2 F2 L2 K2 O2]. constructor.
  - apply NoDup_app; [assumption | assumption |].
    intros q H1 H2. apply (L1 q H1). apply F2. exact H2.
  - intros q Hq. apply in_app_iff in Hq. destruct Hq as [Hq | Hq]; [auto|].
    destruct (Store.cell m q) eqn:E; [|reflexivity].
    exfalso. assert (Store.cell m q <> None) as Hl by congruence.
    rewrite <- (K1 q Hl) in Hl. rewrite (F2 q Hq) in Hl. congruence.
  - intros q Hq. apply in_app_iff in Hq. destruct Hq as [Hq | Hq]; [|auto].
    rewrite K2; auto.
  - intros q Hq. rewrite K2; [auto|]. rewrite K1; auto.
  - intros q Hq. rewrite in_app_iff.
    destruct (O2 q Hq) as [H | H]; [|auto].
    destruct (O1 q H) as [H' | H']; auto.
Qed.

Lemma grows_new (new : Store.memory -> Store.Node -> Store.memory * Store.addr)
      (m : Store.memory) (n : Store.Node) :
  Store.new_ok new -> grows m (fst (new m n)) [snd (new m n)].
Proof.
  intros Hnew. destruct (Hnew m n) as (Hfree & Hset & Hrest). constructor.
  - repeat constructor. intros [].
  - intros q [<- | []]. exact Hfree.
  - intros q [<- | []]. congruence.
  - intros q Hq. apply Hrest. congruence.
  - intros q Hq. destruct (Nat.eq_dec q (snd (new m n))) as [-> | Hne].
    + right. left. reflexivity.
    + left. rewrite <- (Hrest q Hne). exact Hq.
Qed.

Lemma grows_write (m m1 m1' : Store.memory) (A : list Store.addr)
      (a : Store.addr) (s : Store.slot) (v : Store.ptr) :
  grows m m1 A -> In a A -> Store.write m1 a s v = Ok m1' -> grows m m1' A.
Proof.
  intros [N F L K O] Ha Hw.
  destruct (Store.cell m1 a) as [n|] eqn:E; [|exfalso; exact (L a Ha E)].
  destruct (write_live m1 a s v n E) as (m2 & Hw' & Hset & Hrest).
  rewrite Hw in Hw'. inversion Hw'; subst m2; clear Hw'.
  constructor; try assumption.
  - intros q Hq. destruct (Nat.eq_dec q a) as [-> | Hne]; [congruence|].
    rewrite (Hrest q Hne). auto.
  - intros q Hq. destruct (Nat.eq_dec q a) as [-> | Hne].
    + exfalso. apply Hq. auto.
    + rewrite (Hrest q Hne). auto.
  - intros q Hq. destruct (Nat.eq_dec q a) as [-> | Hne]; [auto|].
    rewrite (Hrest q Hne) in Hq. auto.
Qed.

Lemma repr_grows (t : NodePtr) (m m' : Store.memory) (A : list Store.addr)
      (p : Store.ptr) (F : list Store.addr) :
  grows m m' A -> repr m p t F -> repr m' p t F.
Proof.
  intros G H. eapply repr_agree; [exact H|].
  intros q Hq. apply (grows_kept _ _ _ G). eapply repr_live; eauto.
Qed.

Lemma new_at_end_ok : Store.new_ok Store.new_at_end.
Proof.
  intros m n. unfold Store.new_at_end, Store.cell. cbn [fst snd]. split; [|split].
  - rewrite (proj2 (nth_error_None m (List.length m))); [reflexivity | lia].
  - rewrite nth_error_app2 by lia. rewrite Nat.sub_diag. reflexivity.
  - intros q Hq. destruct (Nat.lt_ge_cases q (List.length m)) as [Hlt | Hge].
    + rewrite nth_error_app1 by assumption. reflexivity.
    + rewrite (proj2 (nth_error_None m q)) by lia.
      rewrite (proj2 (nth_error_None (m ++ [Some n]) q)); [reflexivity|].
      rewrite length_app. cbn [List.length]. lia.
Qed.

(** ** Copying *)

Section CopyFacts.
Variable new : Store.memory -> Store.Node -> Store.memory * Store.addr.
Hypothesis new_spec : Store.new_ok new.

(** What a recursive call of [CopyNode] achieves on a subtree [tc]: it
    returns a pointer to the same tree, built from newly allocated cells. *)
Definition copies (rec : Store.memory -> Store.ptr -> result (Store.memory * Store.ptr))
           (tc : NodePtr) : Prop :=
  forall m0 p F, repr m0 p tc F ->
    exists m1 p1 F1, rec m0 p = Ok (m1, p1) /\ grows m0 m1 F1 /\ repr m1 p1 tc F1.

Lemma copy_slot_spec
      (rec : Store.memory -> Store.ptr -> result (Store.memory * Store.ptr))
      (tc : NodePtr) (m mk : Store.memory) (A : list Store.addr)
      (o s : Store.addr) (n ns : Store.Node) (sl : Store.slot)
      (Fc : list Store.addr) :
  copies rec tc ->
  grows m mk A -> In s A ->
  Store.cell m o = Some n -> Store.cell mk s = Some ns ->
  repr m (Store.get_slot sl n) tc Fc ->
  exists mk' c Fk,
    Store.copy_slot rec mk (Some o) s sl = Ok mk' /\
    grows m mk' (A ++ Fk) /\
    Store.cell mk' s = Some (Store.set_slot sl c ns) /\
    repr mk' c tc Fk /\
    ~ In s Fk /\
    forall p t F, repr mk p t F -> ~ In s F -> repr mk' p t F.
Proof.
  intros Hrec G Hs Ho Hns Hc.
  assert (Hok : Store.cell mk o = Some n).
  { rewrite (grows_kept _ _ _ G); [exact Ho | congruence]. }
  unfold Store.copy_slot, Store.load. rewrite Hok. cbn [bind].
  destruct (Hrec mk (Store.get_slot sl n) Fc (repr_grows _ _ _ _ _ _ G Hc))
    as (m1 & c & F1 & Er & G1 & R1).
  rewrite Er. cbn [bind].
  assert (Hs1 : Store.cell m1 s = Some ns).
  { rewrite (grows_kept _ _ _ G1); [exact Hns | congruence]. }
  destruct (write_live m1 s sl c ns Hs1) as (mk' & Ew & Hset & Hrest).
  exists mk', c, F1. split; [exact Ew|].
  assert (HsF : ~ In s F1).
  { intros H. pose proof (grows_fresh _ _ _ G1 s H). congruence. }
  split.
  { eapply grows_write; [eapply grows_trans; eassumption | | exact Ew].
    apply in_app_iff. auto. }
  split; [exact Hset|].
  split.
  { eapply repr_agree; [exact R1|]. intros q Hq. apply Hrest.
    intros ->. contradiction. }
  split; [exact HsF|].
  intros p t F Hr HF. eapply repr_agree; [exact Hr|]. intros q Hq.
  rewrite Hrest by (intros ->; contradiction).
  apply (grows_kept _ _ _ G1). eapply repr_live; eauto.
Qed.

Lemma CopyNode_copies (t : NodePtr) :
  forall fuel, (depth t < fuel)%nat -> copies (Store.CopyNode new fuel) t.
Proof.
  induction t as [|ul lr a nw IHnw ne IHne sw IHsw se IHse]; intros fuel Hd m p F H.
  - destruct H as [-> ->]. destruct fuel as [|f]; [cbn [depth] in Hd; lia|].
    exists m, None, []. split; [reflexivity|].
    split; [apply grows_refl | split; reflexivity].
  - destruct fuel as [|f]; [lia|].
    destruct H as (o & n & Fnw & Fne & Fsw & Fse & -> & Ho & Hul & Hlr & Ha &
                   Hnw & Hne & Hsw & Hse & ->).
    assert (Dnw : (depth nw < f)%nat) by (cbn [depth] in Hd; lia).
    assert (Dne : (depth ne < f)%nat) by (cbn [depth] in Hd; lia).
    assert (Dsw : (depth sw < f)%nat) by (cbn [depth] in Hd; lia).
    assert (Dse : (depth se < f)%nat) by (cbn [depth] in Hd; lia).
    cbn [Store.CopyNode]. unfold Store.load. rewrite Ho. cbn [bind].
    set (n0 := Store.Node_new (Store.upLeft n) (Store.lowRight n) (Store.avg n)).
    pose proof (grows_new new m n0 new_spec) as G0.
    destruct (new_spec m n0) as (_ & S0 & _).
    destruct (new m n0) as [m0 s]. cbn [fst snd] in G0, S0.
    destruct (copy_slot_spec (Store.CopyNode new f) nw m m0 [s] o s n n0 Store.sNW Fnw
                (IHnw f Dnw) G0 (or_introl eq_refl) Ho S0 Hnw)
      as (m1 & c1 & F1 & E1 & G1 & S1 & R1 & N1 & P1).
    rewrite E1. cbn [bind].
    destruct (copy_slot_spec (Store.CopyNode new f) ne m m1 _ o s n _ Store.sNE Fne
                (IHne f Dne) G1 ltac:(rewrite !in_app_iff; cbn [In]; auto) Ho S1 Hne)
      as (m2 & c2 & F2 & E2 & G2 & S2 & R2 & N2 & P2).
    rewrite E2. cbn [bind].
    destruct (copy_slot_spec (Store.CopyNode new f) sw m m2 _ o s n _ Store.sSW Fsw
                (IHsw f Dsw) G2 ltac:(rewrite !in_app_iff; cbn [In]; auto) Ho S2 Hsw)
      as (m3 & c3 & F3 & E3 & G3 & S3 & R3 & N3 & P3).
    rewrite E3. cbn [bind].
    destruct (copy_slot_spec (Store.CopyNode new f) se m m3 _ o s n _ Store.sSE Fse
                (IHse f Dse) G3 ltac:(rewrite !in_app_iff; cbn [In]; auto) Ho S3 Hse)
      as (m4 & c4 & F4 & E4 & G4 & S4 & R4 & N4 & P4).
    rewrite E4. cbn [bind].
    exists m4, (Some s), (s :: F1 ++ F2 ++ F3 ++ F4). split; [reflexivity|]. split.
    + replace (s :: F1 ++ F2 ++ F3 ++ F4) with ((((([s] ++ F1) ++ F2) ++ F3) ++ F4));
        [exact G4|].
      rewrite <- !app_assoc. reflexivity.
    + eexists s, _, F1, F2, F3, F4. split; [reflexivity|].
      split; [exact S4|]. cbn.
      do 3 (split; [assumption|]).
      split; [auto|]. split; [auto|]. split; [auto|]. split; [auto | reflexivity].
Qed.

End CopyFacts.

(** ** Clearing *)

(** The place [pl] is not a field of one of the nodes in [F]. *)
Definition place_outside (pl : Store.place) (F : list Store.addr) : Prop :=
  match pl with
  | Store.Root => True
  | Store.Child b _ => ~ In b F
  end.

(** The cell [q] of [m] once the pointer that [pl] names is null. *)
Definition nulled (pl : Store.place) (m : Store.memory) (q : Store.addr)
  : option Store.Node :=
  match pl with
  | Store.Root => Store.cell m q
  | Store.Child b s =>
      if (q =? b)%nat then option_map (Store.set_slot s None) (Store.cell m b)
      else Store.cell m q
  end.

(** The tree object once the pointer that [pl] names is null. *)
Definition nulled_root (pl : Store.place) (this : Store.QTree) : Store.QTree :=
  match pl with
  | Store.Root => Store.mkQTree None (Store.width this) (Store.height this)
  | Store.Child _ _ => this
  end.

(** What a call of [ClearSubtree] achieves on a subtree [tc]: every cell of
    the subtree is deleted, the pointer it was reached by is null, and
    nothing else has changed. *)
Definition clears
           (rec : Store.memory -> Store.QTree -> Store.place ->
                  result (Store.memory * Store.QTree))
           (tc : NodePtr) : Prop :=
  forall m this pl p F,
    Store.read m this pl = Ok p -> repr m p tc F -> NoDup F ->
    place_outside pl F ->
    exists m',
      rec m this pl = Ok (m', nulled_root pl this) /\
      (forall q, In q F -> Store.cell m' q = None) /\
      (forall q, ~ In q F -> Store.cell m' q = nulled pl m q).

Lemma set_slot_same (s : Store.slot) (n : Store.Node) :
  Store.set_slot s (Store.get_slot s n) n = n.
Proof. destruct n, s; reflexivity. Qed.

Lemma read_Child (m : Store.memory) (this : Store.QTree) (b : Store.addr)
      (s : Store.slot) (p : Store.ptr) :
  Store.read m this (Store.Child b s) = Ok p ->
  exists nb, Store.cell m b = Some nb /\ Store.get_slot s nb = p.
Proof.
  unfold Store.read, Store.load.
  destruct (Store.cell m b) as [nb|]; cbn [bind]; [|discriminate].
  intros H. inversion H. eauto.
Qed.

Lemma read_agree (pl : Store.place) (m m' : Store.memory) (this : Store.QTree) :
  (forall b s, pl = Store.Child b s -> Store.cell m' b = Store.cell m b) ->
  Store.read m' this pl = Store.read m this pl.
Proof.
  destruct pl as [|b s]; intros H; [reflexivity|].
  unfold Store.read, Store.load. rewrite (H b s eq_refl). reflexivity.
Qed.

Lemma NoDup_app_parts {A : Type} (l1 l2 : list A) :
  NoDup (l1 ++ l2) ->
  NoDup l1 /\ NoDup l2 /\ forall x, In x l1 -> ~ In x l2.
Proof.
  induction l1 as [|h t IH]; cbn [app]; intros H.
  - split; [constructor|]. split; [exact H|]. intros x [].
  - inversion H as [|? ? Hh Ht]; subst. destruct (IH Ht) as (N1 & N2 & Hd).
    rewrite in_app_iff in Hh.
    split; [constructor; tauto|]. split; [exact N2|].
    intros x [<- | Hx]; [tauto | auto].
Qed.

Lemma clear_slot_spec
      (rec : Store.memory -> Store.QTree -> Store.place ->
             result (Store.memory * Store.QTree))
      (tc : NodePtr) (m mk : Store.memory) (this : Store.QTree)
      (pl : Store.place) (a : Store.addr) (nak : Store.Node) (sl : Store.slot)
      (Fc D : list Store.addr) :
  clears rec tc ->
  Store.read mk this pl = Ok (Some a) ->
  Store.cell mk a = Some nak ->
  (forall q, In q D -> Store.cell mk q = None) ->
  (forall q, ~ In q D -> q <> a -> Store.cell mk q = Store.cell m q) ->
  repr m (Store.get_slot sl nak) tc Fc -> NoDup Fc -> ~ In a Fc ->
  (forall q, In q Fc -> ~ In q D) ->
  exists mk',
    Store.clear_slot rec mk this pl sl = Ok (mk', this) /\
    Store.cell mk' a = Some (Store.set_slot sl None nak) /\
    (forall q, In q (D ++ Fc) -> Store.cell mk' q = None) /\
    (forall q, ~ In q (D ++ Fc) -> q <> a -> Store.cell mk' q = Store.cell m q).
Proof.
  intros Hrec Hread Ha HD Hrest Hc Hnd HaF Hdisj.
  unfold Store.clear_slot. rewrite Hread. cbn [bind].
  assert (Hc' : repr mk (Store.get_slot sl nak) tc Fc).
  { eapply repr_agree; [exact Hc|]. intros q Hq. apply Hrest; [auto|].
    intros ->. contradiction. }
  destruct (Hrec mk this (Store.Child a sl) (Store.get_slot sl nak) Fc)
    as (mk' & E & Hfree & Hout); try assumption.
  { unfold Store.read, Store.load. rewrite Ha. reflexivity. }
  exists mk'. split; [exact E|]. split.
  { rewrite (Hout a HaF). cbn [nulled]. rewrite Nat.eqb_refl, Ha. reflexivity. }
  split.
  - intros q Hq. apply in_app_iff in Hq.
    destruct (in_dec Nat.eq_dec q Fc) as [Hin | Hnin]; [auto|].
    destruct Hq as [Hq | Hq]; [|contradiction].
    rewrite (Hout q Hnin). cbn [nulled].
    destruct (Nat.eqb_spec q a) as [-> | Hne]; [|auto].
    rewrite (HD a Hq) in Ha. discriminate.
  - intros q Hq Hne. rewrite in_app_iff in Hq.
    rewrite (Hout q) by tauto. cbn [nulled].
    destruct (Nat.eqb_spec q a); [contradiction|]. apply Hrest; tauto.
Qed.

Lemma ClearSubtree_clears (t : NodePtr) :
  forall fuel, (depth t < fuel)%nat -> clears (Store.ClearSubtree fuel) t.
Proof.
  induction t as [|ul lr av nw IHnw ne IHne sw IHsw se IHse];
    intros fuel Hd m this pl p F Hread H Hnd Hout.
  - destruct H as [-> ->]. destruct fuel as [|f]; [cbn [depth] in Hd; lia|].
    cbn [Store.ClearSubtree]. rewrite Hread. cbn [bind].
    exists m. split; [|split].
    + destruct pl as [|b s]; [|reflexivity].
      cbn [Store.read] in Hread. inversion Hread as [Hroot].
      destruct this as [rt w h]. cbn in *. subst rt. reflexivity.
    + intros q [].
    + intros q _. destruct pl as [|b s]; [reflexivity|]. cbn [nulled].
      destruct (Nat.eqb_spec q b) as [-> | Hne]; [|reflexivity].
      destruct (read_Child _ _ _ _ _ Hread) as (nb & Hb & Hs).
      rewrite Hb. cbn [option_map]. rewrite <- Hs, set_slot_same. reflexivity.
  - destruct fuel as [|f]; [lia|].
    destruct H as (a & na & Fnw & Fne & Fsw & Fse & -> & Ha & _ & _ & _ &
                   Hnw & Hne & Hsw & Hse & ->).
    assert (Dnw : (depth nw < f)%nat) by (cbn [depth] in Hd; lia).
    assert (Dne : (depth ne < f)%nat) by (cbn [depth] in Hd; lia).
    assert (Dsw : (depth sw < f)%nat) by (cbn [depth] in Hd; lia).
    assert (Dse : (depth se < f)%nat) by (cbn [depth] in Hd; lia).
    inversion Hnd as [|? ? HaF Hnd']; subst.
    rewrite !in_app_iff in HaF.
    destruct (NoDup_app_parts _ _ Hnd') as (Nnw & Hnd1 & X1).
    destruct (NoDup_app_parts _ _ Hnd1) as (Nne & Hnd2 & X2).
    destruct (NoDup_app_parts _ _ Hnd2) as (Nsw & Nse & X3).
    assert (Hplace : forall mk,
               (forall q, ~ In q (a :: Fnw ++ Fne ++ Fsw ++ Fse) ->
                          Store.cell mk q = Store.cell m q) ->
               Store.read mk this pl = Ok (Some a)).
    { intros mk Hk. rewrite (read_agree pl m mk this); [exact Hread|].
      intros b s ->. apply Hk. exact Hout. }
    cbn [Store.ClearSubtree]. rewrite Hread. cbn [bind].
    destruct (clear_slot_spec (Store.ClearSubtree f) nw m m this pl a na Store.sNW Fnw []
                (IHnw f Dnw) Hread Ha) as (m1 & E1 & A1 & Z1 & K1);
      [intros q [] | reflexivity | exact Hnw | exact Nnw | tauto | intros q _ [] |].
    rewrite E1. cbn [bind].
    assert (R1 : Store.read m1 this pl = Ok (Some a)).
    { apply Hplace. intros q Hq. cbn [In] in Hq. rewrite !in_app_iff in Hq.
      apply K1; [rewrite in_app_iff; cbn [In]; tauto | intros ->; tauto]. }
    destruct (clear_slot_spec (Store.ClearSubtree f) ne m m1 this pl a _ Store.sNE Fne _
                (IHne f Dne) R1 A1 Z1 K1) as (m2 & E2 & A2 & Z2 & K2);
      [exact Hne | exact Nne | tauto | |].
    { intros q Hq Hin. cbn [app] in Hin. apply (X1 q Hin).
      rewrite in_app_iff. auto. }
    rewrite E2. cbn [bind].
    assert (R2 : Store.read m2 this pl = Ok (Some a)).
    { apply Hplace. intros q Hq. cbn [In] in Hq. rewrite !in_app_iff in Hq.
      apply K2; [rewrite !in_app_iff; cbn [In]; tauto | intros ->; tauto]. }
    destruct (clear_slot_spec (Store.ClearSubtree f) sw m m2 this pl a _ Store.sSW Fsw _
                (IHsw f Dsw) R2 A2 Z2 K2) as (m3 & E3 & A3 & Z3 & K3);
      [exact Hsw | exact Nsw | tauto | |].
    { intros q Hq Hin. cbn [app] in Hin. apply in_app_iff in Hin.
      destruct Hin as [Hin | Hin].
      - apply (X1 q Hin). rewrite !in_app_iff. auto.
      - apply (X2 q Hin). rewrite in_app_iff. auto. }
    rewrite E3. cbn [bind].
    assert (R3 : Store.read m3 this pl = Ok (Some a)).
    { apply Hplace. intros q Hq. cbn [In] in Hq. rewrite !in_app_iff in Hq.
      apply K3; [rewrite !in_app_iff; cbn [In]; tauto | intros ->; tauto]. }
    destruct (clear_slot_spec (Store.ClearSubtree f) se m m3 this pl a _ Store.sSE Fse _
                (IHse f Dse) R3 A3 Z3 K3) as (m4 & E4 & A4 & Z4 & K4);
      [exact Hse | exact Nse | tauto | |].
    { intros q Hq Hin. cbn [app] in Hin. rewrite !in_app_iff in Hin.
      destruct Hin as [[Hin | Hin] | Hin].
      - apply (X1 q Hin). rewrite !in_app_iff. auto.
      - apply (X2 q Hin). rewrite in_app_iff. auto.
      - apply (X3 q Hin). exact Hq. }
    rewrite E4. cbn [bind].
    assert (R4 : Store.read m4 this pl = Ok (Some a)).
    { apply Hplace. intros q Hq. cbn [In] in Hq. rewrite !in_app_iff in Hq.
      apply K4; [rewrite !in_app_iff; cbn [In]; tauto | intros ->; tauto]. }
    rewrite R4. cbn [bind].
    destruct (delete_live m4 a _ A4) as (m5 & E5 & A5 & K5).
    rewrite E5. cbn [bind].
    assert (Z5 : forall q, In q (a :: Fnw ++ Fne ++ Fsw ++ Fse) ->
                           Store.cell m5 q = None).
    { intros q Hq. destruct (Nat.eq_dec q a) as [-> | Hne']; [exact A5|].
      rewrite (K5 q Hne'). apply Z4. cbn [In app] in *.
      rewrite !in_app_iff in *. destruct Hq as [<- | Hq]; tauto. }
    assert (K6 : forall q, ~ In q (a :: Fnw ++ Fne ++ Fsw ++ Fse) ->
                           Store.cell m5 q = Store.cell m q).
    { intros q Hq. cbn [In] in Hq. rewrite !in_app_iff in Hq.
      rewrite K5 by (intros ->; tauto).
      apply K4; [cbn [app]; rewrite !in_app_iff; tauto | intros ->; tauto]. }
    destruct pl as [|b s]; cbn [Store.assign_place nulled_root nulled].
    + exists m5. split; [reflexivity|]. split; assumption.
    + cbn [place_outside] in Hout.
      destruct (read_Child _ _ _ _ _ Hread) as (nb & Hb & Hs).
      assert (Hb5 : Store.cell m5 b = Some nb) by (rewrite K6; assumption).
      destruct (write_live m5 b s None nb Hb5) as (m6 & E6 & A6 & K7).
      rewrite E6. cbn [bind]. exists m6. split; [reflexivity|]. split.
      * intros q Hq. rewrite K7 by (intros ->; contradiction). auto.
      * intros q Hq. destruct (Nat.eqb_spec q b) as [-> | Hne'].
        -- rewrite A6, Hb. reflexivity.
        -- rewrite (K7 q Hne'). auto.
Qed.

(** ** Tree objects in memory *)

(** The tree object [q] holds, in memory [m], the tree value [T] in the
    cells [F], each reached once. *)
Definition stored (m : Store.memory) (q : Store.QTree) (T : QTree)
           (F : list Store.addr) : Prop :=
  owns m (Store.root q) (root T) F /\
  Store.width q = width T /\ Store.height q = height T.

Lemma stored_grows (m m' : Store.memory) (A : list Store.addr)
      (q : Store.QTree) (T : QTree) (F : list Store.addr) :
  grows m m' A -> stored m q T F -> stored m' q T F.
Proof.
  intros G ((Hr & Hnd) & Hw & Hh).
  split; [split; [eapply repr_grows; eassumption | exact Hnd] | auto].
Qed.

Lemma Copy_copies
      (new : Store.memory -> Store.Node -> Store.memory * Store.addr)
      (m : Store.memory) (this rhs : Store.QTree) (T : QTree)
      (F : list Store.addr) :
  Store.new_ok new -> stored m rhs T F ->
  exists m' this' F',
    Store.Copy new m this rhs = Ok (m', this') /\
    grows m m' F' /\ stored m' this' T F'.
Proof.
  intros Hnew (Hown & Hw & Hh).
  destruct (CopyNode_copies new Hnew (root T) (S (List.length m))
              (owns_fuel _ _ _ _ Hown) m (Store.root rhs) F (proj1 Hown))
    as (m' & p' & F' & E & G & R).
  unfold Store.Copy. cbv zeta. rewrite E. cbn [bind].
  eexists m', _, F'. split; [reflexivity|]. split; [exact G|].
  split; [split; [exact R | apply (grows_nodup _ _ _ G)] | auto].
Qed.

Lemma Clear_clears (m : Store.memory) (this : Store.QTree) (T : QTree)
      (F : list Store.addr) :
  stored m this T F ->
  exists m',
    Store.Clear m this
    = Ok (m', Store.mkQTree None (Store.width this) (Store.height this)) /\
    (forall q, In q F -> Store.cell m' q = None) /\
    (forall q, ~ In q F -> Store.cell m' q = Store.cell m q).
Proof.
  intros (Hown & _).
  destruct (ClearSubtree_clears (root T) (S (List.length m))
              (owns_fuel _ _ _ _ Hown) m this Store.Root (Store.root this) F
              eq_refl (proj1 Hown) (proj2 Hown) I) as (m' & E & Z & K).
  exists m'. split; [exact E|]. split; assumption.
Qed.

(** ** A memory to try copies on *)

(** A tree of two leaves in the cells 2, 0 and 1, a deleted cell 3 and a
    tree of one leaf in the cell 4. *)
Definition sample_memory : Store.memory :=
  [ Some (Store.Node_new (0, 0) (0, 0) (mkPixel 10 0 0));
    Some (Store.Node_new (0, 1) (0, 1) (mkPixel 20 0 0));
    Some (Store.mkNode (0, 0) (0, 1) (mkPixel 15 0 0)
                       (Some 0%nat) None (Some 1%nat) None);
    None;
    Some (Store.Node_new (0, 0) (0, 0) (mkPixel 7 7 7)) ].

Definition sample_rhs : Store.QTree := Store.mkQTree (Some 2%nat) 1 2.
Definition sample_this : Store.QTree := Store.mkQTree (Some 4%nat) 1 1.

Definition sample_rhs_tree : QTree :=
  mkQTree (node (0, 0) (0, 1) (mkPixel 15 0 0)
                (node (0, 0) (0, 0) (mkPixel 10 0 0)
                      nullptr nullptr nullptr nullptr)
                nullptr
                (node (0, 1) (0, 1) (mkPixel 20 0 0)
                      nullptr nullptr nullptr nullptr)
                nullptr)
          1 2.

Definition sample_this_tree : QTree :=
  mkQTree (node (0, 0) (0, 0) (mkPixel 7 7 7) nullptr nullptr nullptr nullptr)
          1 1.

Ltac stored_tac :=
  split; [split; [repeat (eexists || reflexivity)
                 | repeat constructor; cbn [In]; intuition discriminate]
         | split; reflexivity].

Lemma sample_rhs_stored :
  stored sample_memory sample_rhs sample_rhs_tree [2; 0; 1]%nat.
Proof. stored_tac. Qed.

Lemma sample_this_stored :
  stored sample_memory sample_this sample_this_tree [4]%nat.
Proof. stored_tac. Qed.

(* ===================================================================== *)
(** * Further theorems *)

Lemma valid_image_canvas (img : PNG) :
  valid_image img -> canvas (width_ img) (height_ img) img.
Proof. intros (_ & _ & _ & Hlen & _). unfold canvas. auto. Qed.

(** X1.  From a valid raster, construction and every later prune, flip and
    rotation succeed (no null dereference, no division by zero, the
    recursion ends), and the resulting tree renders at every scale from 1
    whose canvas fits 32-bit dimensions, into a canvas of width and height
    times the scale with every pixel stored. *)
Theorem operations_never_fail {metric : PixelMetric}
        (img : PNG) (ops : list operation) :
  valid_image img ->
  exists t,
    lifecycle img ops = Ok t /\
    forall scale,
      1 <= scale ->
      width t * scale < 4294967296 -> height t * scale < 4294967296 ->
      exists out,
        Render t scale = Ok out /\
        width_ out = width t * scale /\ height_ out = height t * scale /\
        List.length (imageData_ out) = Z.to_nat (width_ out * height_ out).
Proof.
  intros Himg. destruct (lifecycle_ok img ops Himg) as (t & Et & Hok).
  exists t. split; [exact Et|]. intros scale Hs Hw Hh.
  destruct (Render_total t scale Hok Hs Hw Hh) as (out & Eo & Cw & Ch & Cl).
  exists out. rewrite Cw, Ch. auto.
Qed.

Lemma operations_never_fail_witness :
  valid_image sample_image /\
  exists t,
    @lifecycle squared_metric sample_image
      [OpRotateCCW; @OpPrune squared_metric 100; OpFlipHorizontal] = Ok t /\
    forall scale,
      1 <= scale ->
      width t * scale < 4294967296 -> height t * scale < 4294967296 ->
      exists out,
        Render t scale = Ok out /\
        width_ out = width t * scale /\ height_ out = height t * scale /\
        List.length (imageData_ out) = Z.to_nat (width_ out * height_ out).
Proof.
  split; [valid_image_tac|].
  apply (@operations_never_fail squared_metric sample_image). valid_image_tac.
Defined.

(** X2.  For every tree reached from a valid raster, [Render] at scale 1
    gives a raster of the tree's width and height in which every pixel
    has the average colour of the leaf whose rectangle contains it. *)
Theorem Render_1_paints_leaf_averages {metric : PixelMetric}
        (img : PNG) (ops : list operation) :
  valid_image img ->
  exists t out,
    lifecycle img ops = Ok t /\ Render t 1 = Ok out /\
    width_ out = width t /\ height_ out = height t /\
    forall x y, 0 <= x < width t -> 0 <= y < height t ->
      exists c, leaf_avg_at (root t) (x, y) = Some c /\ getPixel out x y = Ok c.
Proof.
  intros Himg. destruct (lifecycle_ok img ops Himg) as (t & Et & Hok).
  pose proof (tree_ok_bounds t Hok) as [Hw Hh].
  destruct (Render_paints t 1 Hok) as (out & Eo & (Cw & Ch & _) & P);
    [lia | lia | lia | left; reflexivity |].
  exists t, out. rewrite Cw, Ch, !Z.mul_1_r.
  repeat split; try assumption.
  intros x y Hx Hy. specialize (P x y ltac:(lia) ltac:(lia)).
  rewrite !Z.div_1_r in P. exact P.
Qed.

Lemma Render_1_paints_leaf_averages_witness :
  valid_image sample_image /\
  exists t out,
    @lifecycle squared_metric sample_image
      [@OpPrune squared_metric 100; OpRotateCCW] = Ok t /\
    Render t 1 = Ok out /\
    width_ out = width t /\ height_ out = height t /\
    forall x y, 0 <= x < width t -> 0 <= y < height t ->
      exists c, leaf_avg_at (root t) (x, y) = Some c /\ getPixel out x y = Ok c.
Proof.
  split; [valid_image_tac|].
  apply (@Render_1_paints_leaf_averages squared_metric sample_image).
  valid_image_tac.
Defined.

(** X3.  Building a tree from a valid raster and rendering it at scale 1
    gives the raster back. *)
Theorem build_then_render_is_identity (img : PNG) :
  valid_image img ->
  exists t, QTree_new img = Ok t /\ Render t 1 = Ok img.
Proof.
  intros Himg. destruct (QTree_new_built img Himg) as (t & Et & Hw & Hh & Hb).
  assert (Hok : tree_ok t).
  { split; [apply Hb|]. rewrite Hw, Hh. apply Hb. }
  pose proof (tree_ok_bounds t Hok) as [Bw Bh].
  destruct (Render_paints t 1 Hok) as (out & Eo & Co & P);
    [lia | lia | lia | left; reflexivity |].
  exists t. split; [exact Et|]. rewrite Eo. f_equal.
  rewrite !Z.mul_1_r, Hw, Hh in *.
  apply (canvas_ext (width_ img) (height_ img)); try lia; try assumption.
  - apply valid_image_canvas. exact Himg.
  - intros x y Hx Hy. destruct (P x y Hx Hy) as (c & Ec & Ep).
    rewrite !Z.div_1_r in Ec. rewrite Ep. symmetry.
    eapply built_leaf_pixels; [apply Hb | apply Hb | exact Ec].
Qed.

Lemma build_then_render_is_identity_witness :
  valid_image sample_image /\
  exists t, QTree_new sample_image = Ok t /\ Render t 1 = Ok sample_image.
Proof.
  split; [valid_image_tac|].
  apply (build_then_render_is_identity sample_image). valid_image_tac.
Defined.

(** X4.  In the tree built from a valid raster every leaf covers a single
    pixel, there are as many leaves as the raster has pixels, and the leaf
    at each position holds the colour of the raster's pixel there. *)
Theorem built_leaves_are_the_pixels (img : PNG) :
  valid_image img ->
  exists t,
    QTree_new img = Ok t /\
    unit_leaves (root t) /\
    Z.of_nat (List.length (leaves (root t))) = width_ img * height_ img /\
    forall x y, 0 <= x < width_ img -> 0 <= y < height_ img ->
      exists c, getPixel img x y = Ok c /\ leaf_avg_at (root t) (x, y) = Some c.
Proof.
  intros Himg. destruct (QTree_new_built img Himg) as (t & Et & Hw & Hh & Hb).
  pose proof Himg as (Iw & Ih & _).
  assert (Hunit : unit_leaves (root t))
    by (eapply built_unit_leaves; apply Hb).
  exists t. split; [exact Et|]. split; [exact Hunit|]. split.
  - rewrite (unit_leaves_count (root t)); [|apply Hb | exact Hunit].
    rewrite (built_area _ _ _ _ Hb). cbn [fst snd]. ring.
  - intros x y Hx Hy.
    pose proof (leaf_avg_at_inside (root t) _ _ (x, y) (built_wf _ _ _ _ Hb)
                  (built_rect _ _ _ _ Hb)) as Hin.
    rewrite inside_in in Hin by lia.
    destruct (leaf_avg_at (root t) (x, y)) as [c|] eqn:Ec; [|discriminate].
    exists c. split; [|reflexivity].
    eapply built_leaf_pixels; [apply Hb | apply Hb | exact Ec].
Qed.

Lemma built_leaves_are_the_pixels_witness :
  valid_image sample_image /\
  exists t,
    QTree_new sample_image = Ok t /\
    unit_leaves (root t) /\
    Z.of_nat (List.length (leaves (root t)))
    = width_ sample_image * height_ sample_image /\
    forall x y, 0 <= x < width_ sample_image -> 0 <= y < height_ sample_image ->
      exists c, getPixel sample_image x y = Ok c /\
                leaf_avg_at (root t) (x, y) = Some c.
Proof.
  split; [valid_image_tac|].
  apply (built_leaves_are_the_pixels sample_image). valid_image_tac.
Defined.

(** X5.  For every tree reached from a valid raster, [FlipHorizontal]
    succeeds, keeps width and height, and the rendering at scale 1 of the
    flipped tree is the horizontal mirror image of the rendering before:
    its pixel (x, y) is the former pixel (width - 1 - x, y). *)
Theorem FlipHorizontal_mirrors_rendering {metric : PixelMetric}
        (img : PNG) (ops : list operation) :
  valid_image img ->
  exists t t' out out',
    lifecycle img ops = Ok t /\ FlipHorizontal t = Ok t' /\
    width t' = width t /\ height t' = height t /\
    Render t 1 = Ok out /\ Render t' 1 = Ok out' /\
    forall x y, 0 <= x < width t -> 0 <= y < height t ->
      getPixel out' x y = getPixel out (width t - 1 - x) y.
Proof.
  intros Himg. destruct (lifecycle_ok img ops Himg) as (t & Et & Hok).
  pose proof (tree_ok_bounds t Hok) as [Hw Hh].
  pose proof (FlipHorizontal_ok t Hok) as Hok'.
  destruct (Render_paints t 1 Hok) as (out & Eo & _ & P);
    [lia | lia | lia | left; reflexivity |].
  destruct (Render_paints _ 1 Hok') as (out' & Eo' & _ & P');
    [cbn [width height]; lia .. | left; reflexivity |].
  cbn [root width height] in *.
  do 4 eexists. split; [exact Et|].
  split; [apply (FlipHorizontal_flipped t Hok)|].
  cbn [root width height]. do 2 (split; [reflexivity|]).
  split; [exact Eo|]. split; [exact Eo'|].
  intros x y Hx Hy.
  destruct (P' x y ltac:(lia) ltac:(lia)) as (c' & Ec' & Ep').
  destruct (P (width t - 1 - x) y ltac:(lia) ltac:(lia)) as (c & Ec & Ep).
  rewrite !Z.div_1_r in *. rewrite Ep, Ep'. f_equal.
  destruct Hok as [Hwf Hr].
  rewrite (leaf_avg_at_flipped (root t) _ _ _ _ x y (width t - 1 - x) y Hwf Hr)
    in Ec';
    [ congruence
    | eapply wf_rect_ok; eassumption
    | apply same_size_refl; assumption
    | cbn [fst snd]; lia
    | cbn [fst snd]; lia ].
Qed.

Lemma FlipHorizontal_mirrors_rendering_witness :
  valid_image sample_image /\
  exists t t' out out',
    @lifecycle squared_metric sample_image
      [@OpPrune squared_metric 100; OpRotateCCW] = Ok t /\
    FlipHorizontal t = Ok t' /\
    width t' = width t /\ height t' = height t /\
    Render t 1 = Ok out /\ Render t' 1 = Ok out' /\
    forall x y, 0 <= x < width t -> 0 <= y < height t ->
      getPixel out' x y = getPixel out (width t - 1 - x) y.
Proof.
  split; [valid_image_tac|].
  apply (@FlipHorizontal_mirrors_rendering squared_metric sample_image).
  valid_image_tac.
Defined.

(** X6.  For every tree reached from a valid raster, [RotateCCW] succeeds,
    exchanges width and height, and the rendering at scale 1 of the rotated
    tree is the rendering before turned a quarter counter-clockwise: its
    pixel (x, y) is the former pixel (width - 1 - y, x). *)
Theorem RotateCCW_rotates_rendering {metric : PixelMetric}
        (img : PNG) (ops : list operation) :
  valid_image img ->
  exists t t' out out',
    lifecycle img ops = Ok t /\ RotateCCW t = Ok t' /\
    width t' = height t /\ height t' = width t /\
    Render t 1 = Ok out /\ Render t' 1 = Ok out' /\
    forall x y, 0 <= x < height t -> 0 <= y < width t ->
      getPixel out' x y = getPixel out (width t - 1 - y) x.
Proof.
  intros Himg. destruct (lifecycle_ok img ops Himg) as (t & Et & Hok).
  pose proof (tree_ok_bounds t Hok) as [Hw Hh].
  pose proof (RotateCCW_ok t Hok) as Hok'.
  destruct (Render_paints t 1 Hok) as (out & Eo & _ & P);
    [lia | lia | lia | left; reflexivity |].
  destruct (Render_paints _ 1 Hok') as (out' & Eo' & _ & P');
    [cbn [width height]; lia .. | left; reflexivity |].
  cbn [root width height] in *.
  do 4 eexists. split; [exact Et|].
  split; [apply (RotateCCW_rotated t Hok)|].
  cbn [root width height]. do 2 (split; [reflexivity|]).
  split; [exact Eo|]. split; [exact Eo'|].
  intros x y Hx Hy.
  destruct (P' x y ltac:(lia) ltac:(lia)) as (c' & Ec' & Ep').
  destruct (P (width t - 1 - y) x ltac:(lia) ltac:(lia)) as (c & Ec & Ep).
  rewrite !Z.div_1_r in *. rewrite Ep, Ep'. f_equal.
  destruct Hok as [Hwf Hr]. pose proof (wf_rect_ok _ _ _ Hwf Hr) as Hrect.
  unfold rect_ok in Hrect. cbn [fst snd] in Hrect.
  rewrite (leaf_avg_at_rotated (root t) _ _ _ _ x y (width t - 1 - y) x Hwf Hr)
    in Ec';
    [ congruence
    | solve_rect_ok
    | solve_swapped_size
    | cbn [fst snd]; lia
    | cbn [fst snd]; lia ].
Qed.

Lemma RotateCCW_rotates_rendering_witness :
  valid_image sample_image /\
  exists t t' out out',
    @lifecycle squared_metric sample_image
      [@OpPrune squared_metric 100; OpFlipHorizontal] = Ok t /\
    RotateCCW t = Ok t' /\
    width t' = height t /\ height t' = width t /\
    Render t 1 = Ok out /\ Render t' 1 = Ok out' /\
    forall x y, 0 <= x < height t -> 0 <= y < width t ->
      getPixel out' x y = getPixel out (width t - 1 - y) x.
Proof.
  split; [valid_image_tac|].
  apply (@RotateCCW_rotates_rendering squared_metric sample_image).
  valid_image_tac.
Defined.

(** X7.  On a tree reached from a valid raster by flips and rotations only
    (never pruned), [Render] at any scale from 1 whose canvas fits 32-bit
    dimensions is [Render] at scale 1 with every pixel replicated into a
    scale x scale block. *)
Theorem Render_scaled_replicates_unpruned {metric : PixelMetric}
        (img : PNG) (ops : list operation) :
  valid_image img -> never_pruned ops ->
  exists t out1,
    lifecycle img ops = Ok t /\ Render t 1 = Ok out1 /\
    forall scale,
      1 <= scale ->
      width t * scale < 4294967296 -> height t * scale < 4294967296 ->
      Render t scale = Ok (block_replicate scale out1).
Proof.
  intros Himg Hnp.
  destruct (lifecycle_unit_leaves img ops Himg Hnp) as (t & Et & Hok & Hunit).
  pose proof (tree_ok_bounds t Hok) as [Hw Hh].
  destruct (Render_paints t 1 Hok) as (out1 & E1 & C1 & P1);
    [lia | lia | lia | left; reflexivity |].
  rewrite !Z.mul_1_r in C1.
  exists t, out1. split; [exact Et|]. split; [exact E1|].
  intros scale Hs Hws Hhs.
  destruct (Render_paints t scale Hok Hs Hws Hhs (or_intror Hunit))
    as (outk & Ek & Ck & Pk).
  rewrite Ek. f_equal.
  assert (0 <= width t * scale) by (apply Z.mul_nonneg_nonneg; lia).
  assert (0 <= height t * scale) by (apply Z.mul_nonneg_nonneg; lia).
  apply (canvas_ext (width t * scale) (height t * scale)); try assumption.
  - apply canvas_block_replicate. exact C1.
  - intros X Y HX HY.
    rewrite (getPixel_block_replicate (width t) (height t) scale out1 C1)
      by lia.
    destruct (Pk X Y HX HY) as (c & Ec & Ep).
    assert (Hxk : 0 <= X / scale < width t).
    { split; [apply Z.div_pos; lia | apply Z.div_lt_upper_bound; lia]. }
    assert (Hyk : 0 <= Y / scale < height t).
    { split; [apply Z.div_pos; lia | apply Z.div_lt_upper_bound; lia]. }
    destruct (P1 (X / scale) (Y / scale) ltac:(lia) ltac:(lia)) as (c1 & Ec1 & Ep1).
    rewrite !Z.div_1_r in Ec1. congruence.
Qed.

Lemma Render_scaled_replicates_unpruned_witness :
  valid_image sample_image /\
  @never_pruned squared_metric [OpFlipHorizontal; OpRotateCCW] /\
  exists t out1,
    @lifecycle squared_metric sample_image [OpFlipHorizontal; OpRotateCCW] = Ok t /\
    Render t 1 = Ok out1 /\
    forall scale,
      1 <= scale ->
      width t * scale < 4294967296 -> height t * scale < 4294967296 ->
      Render t scale = Ok (block_replicate scale out1).
Proof.
  split; [valid_image_tac|].
  split; [repeat constructor|].
  apply (@Render_scaled_replicates_unpruned squared_metric sample_image).
  - valid_image_tac.
  - repeat constructor.
Defined.

(** X8.  On every tree reached from a valid raster, pruning and then
    flipping gives the same tree as flipping and then pruning with the
    same tolerance. *)
Theorem Prune_commutes_with_FlipHorizontal {metric : PixelMetric}
        (img : PNG) (ops : list operation) (tolerance : double) :
  valid_image img ->
  exists t tp tf res,
    lifecycle img ops = Ok t /\
    Prune t tolerance = Ok tp /\ FlipHorizontal tp = Ok res /\
    FlipHorizontal t = Ok tf /\ Prune tf tolerance = Ok res.
Proof.
  intros Himg. destruct (lifecycle_ok img ops Himg) as (t & Et & Hok).
  do 4 eexists. split; [exact Et|].
  split; [apply Prune_pruned|].
  split; [apply (FlipHorizontal_flipped _ (Prune_ok t tolerance Hok))|].
  split; [apply (FlipHorizontal_flipped t Hok)|].
  rewrite Prune_pruned. cbn [root width height].
  rewrite pruned_flipped. reflexivity.
Qed.

Lemma Prune_commutes_with_FlipHorizontal_witness :
  valid_image sample_image /\
  exists t tp tf res,
    @lifecycle squared_metric sample_image [OpRotateCCW] = Ok t /\
    @Prune squared_metric t 100 = Ok tp /\ FlipHorizontal tp = Ok res /\
    FlipHorizontal t = Ok tf /\ @Prune squared_metric tf 100 = Ok res.
Proof.
  split; [valid_image_tac|].
  apply (@Prune_commutes_with_FlipHorizontal squared_metric sample_image).
  valid_image_tac.
Defined.

(** X9.  On every tree reached from a valid raster, pruning and then
    rotating gives the same tree as rotating and then pruning with the
    same tolerance. *)
Theorem Prune_commutes_with_RotateCCW {metric : PixelMetric}
        (img : PNG) (ops : list operation) (tolerance : double) :
  valid_image img ->
  exists t tp tr res,
    lifecycle img ops = Ok t /\
    Prune t tolerance = Ok tp /\ RotateCCW tp = Ok res /\
    RotateCCW t = Ok tr /\ Prune tr tolerance = Ok res.
Proof.
  intros Himg. destruct (lifecycle_ok img ops Himg) as (t & Et & Hok).
  do 4 eexists. split; [exact Et|].
  split; [apply Prune_pruned|].
  split; [apply (RotateCCW_rotated _ (Prune_ok t tolerance Hok))|].
  split; [apply (RotateCCW_rotated t Hok)|].
  rewrite Prune_pruned. cbn [root width height].
  rewrite pruned_rotated. reflexivity.
Qed.

Lemma Prune_commutes_with_RotateCCW_witness :
  valid_image sample_image /\
  exists t tp tr res,
    @lifecycle squared_metric sample_image [OpFlipHorizontal] = Ok t /\
    @Prune squared_metric t 100 = Ok tp /\ RotateCCW tp = Ok res /\
    RotateCCW t = Ok tr /\ @Prune squared_metric tr 100 = Ok res.
Proof.
  split; [valid_image_tac|].
  apply (@Prune_commutes_with_RotateCCW squared_metric sample_image).
  valid_image_tac.
Defined.

(** X10.  On every tree reached from a valid raster, pruning changes the
    rendering at scale 1 only within the tolerance: at every pixel the
    colour after is the colour before, or the colour before is within the
    tolerance of the colour after. *)
Theorem Prune_changes_pixels_within_tolerance {metric : PixelMetric}
        (img : PNG) (ops : list operation) (tolerance : double) :
  valid_image img ->
  exists t tp out outp,
    lifecycle img ops = Ok t /\ Prune t tolerance = Ok tp /\
    Render t 1 = Ok out /\ Render tp 1 = Ok outp /\
    forall x y, 0 <= x < width t -> 0 <= y < height t ->
      exists c c',
        getPixel out x y = Ok c /\ getPixel outp x y = Ok c' /\
        (c' = c \/ double_le (distanceTo c c') tolerance = true).
Proof.
  intros Himg. destruct (lifecycle_ok img ops Himg) as (t & Et & Hok).
  pose proof (tree_ok_bounds t Hok) as [Hw Hh].
  pose proof (Prune_ok t tolerance Hok) as Hokp.
  destruct (Render_paints t 1 Hok) as (out & Eo & _ & P);
    [lia | lia | lia | left; reflexivity |].
  destruct (Render_paints _ 1 Hokp) as (outp & Eop & _ & Pp);
    [cbn [width height]; lia .. | left; reflexivity |].
  cbn [root width height] in *.
  do 4 eexists. split; [exact Et|]. split; [apply Prune_pruned|].
  split; [exact Eo|]. split; [exact Eop|].
  intros x y Hx Hy.
  destruct (P x y ltac:(lia) ltac:(lia)) as (c & Ec & Ep).
  destruct (Pp x y ltac:(lia) ltac:(lia)) as (c' & Ec' & Ep').
  rewrite !Z.div_1_r in *.
  exists c, c'. split; [exact Ep|]. split; [exact Ep'|].
  eapply pruned_leaf_close; [apply Hok | exact Ec | exact Ec'].
Qed.

Lemma Prune_changes_pixels_within_tolerance_witness :
  valid_image sample_image /\
  exists t tp out outp,
    @lifecycle squared_metric sample_image [OpFlipHorizontal] = Ok t /\
    @Prune squared_metric t 100 = Ok tp /\
    Render t 1 = Ok out /\ Render tp 1 = Ok outp /\
    forall x y, 0 <= x < width t -> 0 <= y < height t ->
      exists c c',
        getPixel out x y = Ok c /\ getPixel outp x y = Ok c' /\
        (c' = c \/ @double_le squared_metric
                     (@distanceTo squared_metric c c') 100 = true).
Proof.
  split; [valid_image_tac|].
  apply (@Prune_changes_pixels_within_tolerance squared_metric sample_image).
  valid_image_tac.
Defined.

(** X11.  In the tree built from a valid raster, every node's average
    lies, channel by channel, within any bounds that hold for all pixels
    of the raster; on a raster of one colour every average is that
    colour. *)
Theorem built_averages_within_pixel_range (img : PNG) (lo hi : RGBAPixel) :
  valid_image img ->
  Forall (in_box lo hi) (imageData_ img) ->
  exists t, QTree_new img = Ok t /\ Forall (in_box lo hi) (avgs (root t)).
Proof.
  intros Himg Hbox. destruct (QTree_new_ok img Himg) as (t & Et & _ & Hb).
  exists t. split; [exact Et|].
  apply avgs_in_box; try apply Hb.
  pose proof (built_leaf_colors img (root t) (built_wf _ _ _ _ Hb)
                (built_split _ _ _ _ Hb)) as Hin.
  rewrite Forall_forall in *. auto.
Qed.

Lemma built_averages_within_pixel_range_witness :
  valid_image sample_image /\
  Forall (in_box (mkPixel 10 0 0) (mkPixel 60 0 0)) (imageData_ sample_image) /\
  exists t, QTree_new sample_image = Ok t /\
            Forall (in_box (mkPixel 10 0 0) (mkPixel 60 0 0)) (avgs (root t)).
Proof.
  split; [valid_image_tac|].
  split; [repeat constructor; cbn; lia|].
  apply (built_averages_within_pixel_range sample_image).
  - valid_image_tac.
  - repeat constructor; cbn; lia.
Defined.

(** X12.  [Prune] never adds a node, and it keeps the stored width and
    height and the rectangle and average of the root. *)
Theorem Prune_never_adds_nodes {metric : PixelMetric}
        (t : QTree) (tolerance : double) :
  exists tp,
    Prune t tolerance = Ok tp /\
    (node_count (root tp) <= node_count (root t))%nat /\
    width tp = width t /\ height tp = height t /\
    rectOf (root tp) = rectOf (root t) /\ avgOf (root tp) = avgOf (root t).
Proof.
  eexists. split; [apply Prune_pruned|]. cbn [root width height].
  split; [apply node_count_pruned_le|]. do 2 (split; [reflexivity|]).
  split; [apply rectOf_pruned|].
  destruct (root t) as [|ul lr a nw ne sw se]; [reflexivity|].
  cbn [pruned]. destruct (isLeaf _); [reflexivity|].
  destruct (qualifies _ _); reflexivity.
Qed.

(** X13.  [operator=] in memory, for any allocator that hands out unused
    cells.  When [this] and [rhs] each own a tree, the assignment succeeds
    and afterwards [this] holds the value that [assign] computes, width and
    height included, in cells that were all unused before: a deep copy,
    sharing no node with [rhs] or anything else.  No node that was live
    is modified and no other cell is allocated, so [rhs] still owns its
    tree.  Nothing is deleted: the nodes [this] owned before are all
    still allocated, none of them belongs to the new tree of [this], and
    [this] no longer points to them. *)
Theorem assign_is_a_deep_copy_and_leaks
        (new : Store.memory -> Store.Node -> Store.memory * Store.addr)
        (m : Store.memory) (this rhs : Store.QTree) (T_this T_rhs : QTree)
        (F_this F_rhs : list Store.addr) :
  Store.new_ok new ->
  stored m this T_this F_this ->
  stored m rhs T_rhs F_rhs ->
  exists m' this' F',
    Store.assign new m this rhs = Ok (m', this') /\
    stored m' this' (assign T_this T_rhs) F' /\
    (forall q, In q F' -> Store.cell m q = None) /\
    (forall q, Store.cell m q <> None -> Store.cell m' q = Store.cell m q) /\
    (forall q, Store.cell m' q <> None -> Store.cell m q <> None \/ In q F') /\
    stored m' rhs T_rhs F_rhs /\
    stored m' this T_this F_this /\
    (forall q, In q F_this -> ~ In q F') /\
    (F_this <> [] -> Store.root this' <> Store.root this).
Proof.
  intros Hnew Hthis Hrhs.
  destruct (Copy_copies new m this rhs T_rhs F_rhs Hnew Hrhs)
    as (m' & this' & F' & E & G & S').
  exists m', this', F'. split; [exact E|].
  assert (Hfresh : forall q, In q F_this -> ~ In q F').
  { intros q Hq Hq'. pose proof (grows_fresh _ _ _ G q Hq') as Hfree.
    destruct Hthis as ((Hr & _) & _).
    exact (repr_live _ _ _ _ Hr q Hq Hfree). }
  split.
  { unfold assign, Copy. cbv zeta. destruct S' as (Ho & Hw & Hh).
    split; [|split; assumption]. cbn [root]. rewrite CopyNode_same. exact Ho. }
  split; [apply (grows_fresh _ _ _ G)|].
  split; [apply (grows_kept _ _ _ G)|].
  split; [apply (grows_only _ _ _ G)|].
  split; [eapply stored_grows; eassumption|].
  split; [eapply stored_grows; eassumption|].
  split; [exact Hfresh|].
  intros Hne Heq.
  destruct Hthis as ((Hr & _) & _). destruct S' as ((Hr' & _) & _).
  rewrite Heq in Hr'.
  destruct (root T_this) as [|ul lr a nw ne sw se].
  - destruct Hr as [_ ->]. contradiction.
  - destruct Hr as (o & n & ? & ? & ? & ? & Ho & _ & _ & _ & _ & _ & _ & _ & _ & ->).
    destruct (root T_rhs) as [|ul' lr' a' nw' ne' sw' se'].
    + destruct Hr' as [Hnone _]. congruence.
    + destruct Hr' as (o' & n' & ? & ? & ? & ? & Ho' & _ & _ & _ & _ & _ & _ & _ & _ & ->).
      apply (Hfresh o); [left; reflexivity|].
      left. congruence.
Qed.

Lemma assign_is_a_deep_copy_and_leaks_witness :
  Store.new_ok Store.new_at_end /\
  stored sample_memory sample_this sample_this_tree [4]%nat /\
  stored sample_memory sample_rhs sample_rhs_tree [2; 0; 1]%nat /\
  exists m' this' F',
    Store.assign Store.new_at_end sample_memory sample_this sample_rhs
    = Ok (m', this') /\
    stored m' this' (assign sample_this_tree sample_rhs_tree) F' /\
    (forall q, In q F' -> Store.cell sample_memory q = None) /\
    (forall q, Store.cell sample_memory q <> None ->
               Store.cell m' q = Store.cell sample_memory q) /\
    (forall q, Store.cell m' q <> None ->
               Store.cell sample_memory q <> None \/ In q F') /\
    stored m' sample_rhs sample_rhs_tree [2; 0; 1]%nat /\
    stored m' sample_this sample_this_tree [4]%nat /\
    (forall q, In q [4]%nat -> ~ In q F') /\
    ([4]%nat <> [] -> Store.root this' <> Store.root sample_this).
Proof.
  split; [exact new_at_end_ok|].
  split; [exact sample_this_stored|].
  split; [exact sample_rhs_stored|].
  apply (assign_is_a_deep_copy_and_leaks Store.new_at_end sample_memory
           sample_this sample_rhs sample_this_tree sample_rhs_tree).
  - exact new_at_end_ok.
  - exact sample_this_stored.
  - exact sample_rhs_stored.
Defined.

(** X14.  [Render] at scale 0 (outside its precondition) paints nothing
    and returns the empty raster, for every tree. *)
Theorem Render_scale_0_is_empty (t : QTree) : Render t 0 = Ok (mkPNG 0 0 []).
Proof.
  unfold Render. rewrite !Z.mul_0_r. apply RenderPixel_scale_0.
Qed.

(** X15.  After [Clear] the root is null.  On such a tree [RotateCCW]
    dereferences the null root, while [FlipHorizontal] and [Prune] return
    the tree unchanged and [Render] returns the canvas it allocated,
    untouched. *)
Theorem operations_on_cleared_tree {metric : PixelMetric}
        (t : QTree) (tolerance : double) (scale : Z) :
  root (Clear t) = nullptr /\
  RotateCCW (Clear t) = Err NullDeref /\
  FlipHorizontal (Clear t) = Ok (Clear t) /\
  Prune (Clear t) tolerance = Ok (Clear t) /\
  Render (Clear t) scale
  = Ok (PNG_new (u32 (width t * scale)) (u32 (height t * scale))).
Proof.
  unfold Clear, RotateCCW, FlipHorizontal, Prune, Render.
  cbn [root width height]. rewrite ClearSubtree_null.
  repeat split; reflexivity.
Qed.

(** X16.  On a tree reached from a valid raster, if every leaf is within
    the tolerance of the root's average, [Prune] leaves a single leaf and
    its rendering at scale 1 is uniformly the root's average. *)
Theorem Prune_to_single_leaf {metric : PixelMetric}
        (img : PNG) (ops : list operation) (tolerance : double) (t : QTree) :
  valid_image img ->
  lifecycle img ops = Ok t ->
  qualifies (root t) tolerance = true ->
  exists tp out,
    Prune t tolerance = Ok tp /\ isLeaf (root tp) = true /\
    Render tp 1 = Ok out /\
    width_ out = width t /\ height_ out = height t /\
    forall x y, 0 <= x < width t -> 0 <= y < height t ->
      getPixel out x y = Ok (avg_of (root t)).
Proof.
  intros Himg Et Hq. destruct (lifecycle_ok img ops Himg) as (t0 & Et0 & Hok).
  rewrite Et in Et0. inversion Et0; subst t0; clear Et0.
  pose proof (tree_ok_bounds t Hok) as [Hw Hh].
  pose proof (Prune_ok t tolerance Hok) as Hokp.
  destruct (Render_paints _ 1 Hokp) as (out & Eo & (Cw & Ch & _) & P);
    [cbn [width height]; lia .. | left; reflexivity |].
  cbn [root width height] in *. rewrite Z.mul_1_r in Cw, Ch.
  do 2 eexists. split; [apply Prune_pruned|]. cbn [root].
  destruct Hok as [Hwf Hr].
  destruct (has_rect_inv _ _ _ Hr) as (a & nw & ne & sw & se & E).
  rewrite E in *. cbn [avg_of].
  assert (Hp : pruned (node (0, 0) (width t - 1, height t - 1) a nw ne sw se) tolerance
               = node (0, 0) (width t - 1, height t - 1) a
                      nullptr nullptr nullptr nullptr).
  { cbn [pruned]. rewrite Hq.
    destruct (isLeaf (node (0, 0) (width t - 1, height t - 1) a nw ne sw se)) eqn:L;
      [|reflexivity].
    cbn [isLeaf] in L. apply all_null in L. destruct L as (-> & -> & -> & ->).
    reflexivity. }
  rewrite Hp in *. split; [reflexivity|]. split; [exact Eo|].
  do 2 (split; [assumption|]).
  intros x y Hx Hy. destruct (P x y ltac:(lia) ltac:(lia)) as (c & Ec & Ep).
  rewrite !Z.div_1_r in Ec. cbn [leaf_avg_at isNull andb] in Ec.
  rewrite inside_in in Ec by lia. inversion Ec; subst c. exact Ep.
Qed.

Lemma Prune_to_single_leaf_witness :
  valid_image scenario_image /\
  @lifecycle squared_metric scenario_image [] = Ok scenario_tree /\
  @qualifies squared_metric (root scenario_tree) 250000 = true /\
  exists tp out,
    @Prune squared_metric scenario_tree 250000 = Ok tp /\
    isLeaf (root tp) = true /\
    Render tp 1 = Ok out /\
    width_ out = width scenario_tree /\ height_ out = height scenario_tree /\
    forall x y, 0 <= x < width scenario_tree -> 0 <= y < height scenario_tree ->
      getPixel out x y = Ok (avg_of (root scenario_tree)).
Proof.
  split; [valid_image_tac|].
  split; [vm_compute; reflexivity|].
  split; [vm_compute; reflexivity|].
  apply (@Prune_to_single_leaf squared_metric scenario_image [] 250000 scenario_tree).
  - valid_image_tac.
  - vm_compute. reflexivity.
  - vm_compute. reflexivity.
Defined.

(** X17.  In the tree built from a valid raster (one with so few pixels
    that the [int] sums of [assignColor] stay below 2^31), the root covers
    the whole raster, the children of every internal node tile its
    rectangle, only single pixels are leaves, and each colour channel of
    every internal node is the truncated quotient of the sum, over its
    direct (non-null) children, of child area times child average, by the
    sum of the child areas. *)
Theorem small_image_averages_are_weighted_means (img : PNG) :
  valid_image img ->
  exists t,
    QTree_new img = Ok t /\
    has_rect (root t) (0, 0) (width_ img - 1, height_ img - 1) /\
    wf (root t) /\ unit_leaves (root t) /\ avg_rule (root t).
Proof.
  intros Himg. destruct (QTree_new_built img Himg) as (t & Et & _ & _ & Hb).
  exists t. split; [exact Et|].
  split; [apply Hb|]. split; [apply Hb|].
  split; [|apply Hb].
  apply (built_unit_leaves img); apply Hb.
Qed.

Lemma small_image_averages_are_weighted_means_witness :
  valid_image sample_image /\
  exists t,
    QTree_new sample_image = Ok t /\
    has_rect (root t) (0, 0) (width_ sample_image - 1, height_ sample_image - 1) /\
    wf (root t) /\ unit_leaves (root t) /\ avg_rule (root t).
Proof.
  split; [valid_image_tac|].
  apply (small_image_averages_are_weighted_means sample_image). valid_image_tac.
Defined.

(** X18.  [Clear] in memory.  On a tree object that owns its tree it
    succeeds, so every [delete] met a live node; afterwards every cell of
    the tree is deleted, every other cell is as before, and the object
    holds the value that [Clear] computes: a null root, width and height
    kept.  A second [Clear] then changes nothing. *)
Theorem Clear_deletes_the_tree_and_nothing_else
        (m : Store.memory) (this : Store.QTree) (T : QTree)
        (F : list Store.addr) :
  stored m this T F ->
  exists m' this',
    Store.Clear m this = Ok (m', this') /\
    stored m' this' (Clear T) [] /\
    (forall q, In q F -> Store.cell m' q = None) /\
    (forall q, ~ In q F -> Store.cell m' q = Store.cell m q) /\
    Store.Clear m' this' = Ok (m', this').
Proof.
  intros Hs. destruct (Clear_clears m this T F Hs) as (m' & E & Z & K).
  destruct Hs as (_ & Hw & Hh).
  exists m', (Store.mkQTree None (Store.width this) (Store.height this)).
  split; [exact E|]. split.
  { unfold stored, owns, Clear. cbn [root width height Store.root Store.width Store.height].
    rewrite ClearSubtree_null. cbn [repr].
    repeat split; try assumption. constructor. }
  split; [exact Z|]. split; [exact K|]. reflexivity.
Qed.

Lemma Clear_deletes_the_tree_and_nothing_else_witness :
  stored sample_memory sample_rhs sample_rhs_tree [2; 0; 1]%nat /\
  exists m' this',
    Store.Clear sample_memory sample_rhs = Ok (m', this') /\
    stored m' this' (Clear sample_rhs_tree) [] /\
    (forall q, In q [2; 0; 1]%nat -> Store.cell m' q = None) /\
    (forall q, ~ In q [2; 0; 1]%nat -> Store.cell m' q = Store.cell sample_memory q) /\
    Store.Clear m' this' = Ok (m', this').
Proof.
  split; [exact sample_rhs_stored|].
  apply (Clear_deletes_the_tree_and_nothing_else sample_memory sample_rhs
           sample_rhs_tree).
  exact sample_rhs_stored.
Defined.

(** X19.  A copy can be cleared without harm to the original: after
    [operator=] from a tree object that owns its tree, [Clear] on the copy
    succeeds, the original still owns its tree, and every cell of the
    memory holds what it held before the assignment. *)
Theorem clearing_a_copy_keeps_the_original
        (new : Store.memory -> Store.Node -> Store.memory * Store.addr)
        (m : Store.memory) (this rhs : Store.QTree) (T : QTree)
        (F : list Store.addr) :
  Store.new_ok new ->
  stored m rhs T F ->
  exists m1 copy m2 gone,
    Store.assign new m this rhs = Ok (m1, copy) /\
    Store.Clear m1 copy = Ok (m2, gone) /\
    Store.root gone = None /\
    stored m2 rhs T F /\
    forall q, Store.cell m2 q = Store.cell m q.
Proof.
  intros Hnew Hrhs.
  destruct (Copy_copies new m this rhs T F Hnew Hrhs)
    as (m1 & copy & F' & E & G & S').
  destruct (Clear_clears m1 copy T F' S') as (m2 & E2 & Z & K).
  exists m1, copy, m2, (Store.mkQTree None (Store.width copy) (Store.height copy)).
  split; [exact E|]. split; [exact E2|]. split; [reflexivity|].
  assert (Hsame : forall q, Store.cell m2 q = Store.cell m q).
  { intros q. destruct (in_dec Nat.eq_dec q F') as [Hin | Hnin].
    - rewrite (Z q Hin). symmetry. apply (grows_fresh _ _ _ G q Hin).
    - rewrite (K q Hnin).
      destruct (Store.cell m q) as [n|] eqn:Eq.
      + rewrite <- Eq. apply (grows_kept _ _ _ G). congruence.
      + destruct (Store.cell m1 q) as [n1|] eqn:E1; [|reflexivity].
        destruct (grows_only _ _ _ G q) as [H | H]; congruence || contradiction. }
  split; [|exact Hsame].
  destruct Hrhs as ((Hr & Hnd) & Hw & Hh).
  split; [split; [|exact Hnd] | auto].
  eapply repr_agree; [exact Hr|]. intros q _. apply Hsame.
Qed.

Lemma clearing_a_copy_keeps_the_original_witness :
  Store.new_ok Store.new_at_end /\
  stored sample_memory sample_rhs sample_rhs_tree [2; 0; 1]%nat /\
  exists m1 copy m2 gone,
    Store.assign Store.new_at_end sample_memory sample_this sample_rhs
    = Ok (m1, copy) /\
    Store.Clear m1 copy = Ok (m2, gone) /\
    Store.root gone = None /\
    stored m2 sample_rhs sample_rhs_tree [2; 0; 1]%nat /\
    forall q, Store.cell m2 q = Store.cell sample_memory q.
Proof.
  split; [exact new_at_end_ok|].
  split; [exact sample_rhs_stored|].
  apply (clearing_a_copy_keeps_the_original Store.new_at_end sample_memory
           sample_this sample_rhs sample_rhs_tree).
  - exact new_at_end_ok.
  - exact sample_rhs_stored.
Defined.
